(** * WIRE: a UART bridge between the USB console port and an inter-chip link

    A shallow embedding of [config.h], [wire.cpp] and [commands.cpp].

    The firmware talks to two Arduino [HardwareSerial] objects, [Serial]
    (the USB side, "Near") and [Serial1] (the inter-chip UART, "Far").
    The Arduino core is not part of the sources, so the two ports are
    modelled as small state machines whose free choices (how many bytes
    have arrived, how many a read hands over, what a write returns, how
    much room the transmitter reports) are taken from an explicit
    [environment] oracle.  Every call on a port, every [delay] and every
    console print is appended to a chronological trace, so that claims
    about which calls are issued, with which arguments and in which order
    are plain statements about lists.

    [main.cpp] registers [cmd_receive] and [cmd_send] with the console
    library under the names "receive" and "send"; the console library
    itself is outside this development. *)

From Stdlib Require Import String Strings.Byte.
From Stdlib Require Import ZArith List Lia Bool.
Import ListNotations.
Local Open Scope Z_scope.

(** ** config.h *)

Definition WIRE_TX_PIN : Z := 18.
Definition WIRE_RX_PIN : Z := 19.
Definition WIRE_BAUD : Z := 115200.
Definition BRIDGE_BUF_SZ : Z := 32768.

(** ** Machine integers

    [size_t] is a 32-bit unsigned integer on the target. *)

Definition SIZE_MOD : Z := 2 ^ 32.
Definition to_size_t (z : Z) : Z := z mod SIZE_MOD.

(** ** The two serial ports and what is observable about them *)

Inductive endpoint := Serial | Serial1.

Definition endpoint_eqb (a b : endpoint) : bool :=
  match a, b with
  | Serial, Serial | Serial1, Serial1 => true
  | _, _ => false
  end.

Inductive frame_format := SERIAL_8N1.

Record link_settings := mkLink {
  ls_baud : Z;
  ls_format : frame_format;
  ls_rx_pin : Z;
  ls_tx_pin : Z;
  ls_invert : bool;
  ls_arg6 : Z }.

(** One call on a [HardwareSerial] object, with its arguments and, for the
    calls that return something, the returned value. *)
Inductive hal_call :=
| Begin (l : link_settings)
| SetRxBufferSize (sz : Z)
| SetTxBufferSize (sz : Z)
| Available (ret : Z)
| ReadBytes (req ret : Z)
| AvailableForWrite (ret : Z)
| Write (req ret : Z)
| Flush (arg : option bool).

Inductive event :=
| Hal (e : endpoint) (c : hal_call)
| Delay (ms : Z)
| KonPrintf (fmt : string) (args : list Z).

(** State of one port.  [line_in] holds the bytes that the peer has sent
    and that have not reached the driver yet, [rx_fifo] the bytes the
    driver has received and the program has not read, [tx_out] every byte
    a [write] has accepted so far, oldest first.  The receive queue is not
    bounded here: overruns of the driver's buffer are outside the model. *)
Record port := mkPort {
  link : option link_settings;
  rx_buffer_size : Z;
  tx_buffer_size : Z;
  rx_fifo : list byte;
  line_in : list byte;
  tx_out : list byte }.

(** The four static staging buffers of wire.cpp: [buf] of
    [run_receive_bridge], [buf] of [run_send_bridge], and the two buffers
    of [run_bidi_bridge]. *)
Inductive staging := RecvBuf | SendBuf | WireToUsb | UsbToWire.

Record world := mkWorld {
  usb : port;
  wire : port;
  wire_inited : bool;
  receive_buf : list byte;
  send_buf : list byte;
  buf_wire_to_usb : list byte;
  buf_usb_to_wire : list byte;
  trace : list event }.

Definition port_of (e : endpoint) (w : world) : port :=
  match e with Serial => usb w | Serial1 => wire w end.

Definition set_port (e : endpoint) (p : port) (w : world) : world :=
  match e with
  | Serial =>
      mkWorld p (wire w) (wire_inited w) (receive_buf w) (send_buf w)
              (buf_wire_to_usb w) (buf_usb_to_wire w) (trace w)
  | Serial1 =>
      mkWorld (usb w) p (wire_inited w) (receive_buf w) (send_buf w)
              (buf_wire_to_usb w) (buf_usb_to_wire w) (trace w)
  end.

Definition buf_of (b : staging) (w : world) : list byte :=
  match b with
  | RecvBuf => receive_buf w
  | SendBuf => send_buf w
  | WireToUsb => buf_wire_to_usb w
  | UsbToWire => buf_usb_to_wire w
  end.

Definition set_buf (b : staging) (l : list byte) (w : world) : world :=
  match b with
  | RecvBuf =>
      mkWorld (usb w) (wire w) (wire_inited w) l (send_buf w)
              (buf_wire_to_usb w) (buf_usb_to_wire w) (trace w)
  | SendBuf =>
      mkWorld (usb w) (wire w) (wire_inited w) (receive_buf w) l
              (buf_wire_to_usb w) (buf_usb_to_wire w) (trace w)
  | WireToUsb =>
      mkWorld (usb w) (wire w) (wire_inited w) (receive_buf w) (send_buf w)
              l (buf_usb_to_wire w) (trace w)
  | UsbToWire =>
      mkWorld (usb w) (wire w) (wire_inited w) (receive_buf w) (send_buf w)
              (buf_wire_to_usb w) l (trace w)
  end.

Definition set_inited (v : bool) (w : world) : world :=
  mkWorld (usb w) (wire w) v (receive_buf w) (send_buf w)
          (buf_wire_to_usb w) (buf_usb_to_wire w) (trace w).

Definition log (ev : event) (w : world) : world :=
  mkWorld (usb w) (wire w) (wire_inited w) (receive_buf w) (send_buf w)
          (buf_wire_to_usb w) (buf_usb_to_wire w) (trace w ++ [ev]).

(** Number of events so far; the oracle is indexed by it. *)
Definition clock (w : world) : nat := length (trace w).

(** [p + off] with [size] bytes behind it, and a store of [data] at the
    start of a buffer. *)
Definition slice (buf : list byte) (off size : Z) : list byte :=
  firstn (Z.to_nat size) (skipn (Z.to_nat off) buf).

Definition overwrite (data buf : list byte) : list byte :=
  data ++ skipn (length data) buf.

(** ** The environment *)

Record environment := mkEnv {
  (* bytes that reach the driver just before the [available()] made at time t *)
  env_arrive : endpoint -> nat -> nat;
  (* most bytes the [readBytes] made at time t hands over *)
  env_read : endpoint -> nat -> Z;
  (* value returned by the [write(p, size)] made at time t *)
  env_write : endpoint -> nat -> Z -> Z;
  (* value returned by the [availableForWrite()] made at time t *)
  env_room : endpoint -> nat -> Z }.

(** ** Computations

    A computation either finishes with a value or is still inside one of
    the program's loops when the fuel runs out. *)

Inductive outcome (A : Type) :=
| Done (a : A) (w : world)
| Spinning (w : world).
Arguments Done {A} a w.
Arguments Spinning {A} w.

Definition world_of {A} (o : outcome A) : world :=
  match o with Done _ w => w | Spinning w => w end.

Definition returned {A} (o : outcome A) : bool :=
  match o with Done _ _ => true | Spinning _ => false end.

Definition M (A : Type) : Type := world -> outcome A.

Definition ret {A} (a : A) : M A := fun w => Done a w.

Definition bind {A B} (m : M A) (k : A -> M B) : M B :=
  fun w =>
    match m w with
    | Done a w' => k a w'
    | Spinning w' => Spinning w'
    end.

Declare Scope prog_scope.
Delimit Scope prog_scope with prog.
Notation "x <- m ;; k" := (bind m (fun x => k))
  (at level 61, m at next level, right associativity) : prog_scope.
Notation "m ;; k" := (bind m (fun _ => k))
  (at level 61, right associativity) : prog_scope.
Local Open Scope prog_scope.

(** [for (;;) body]: [ticks] passes of the body, after which the loop is
    still running.  There is no way out of it. *)
Fixpoint forever {A} (ticks : nat) (body : M unit) : M A :=
  fun w =>
    match ticks with
    | O => Spinning w
    | S k =>
        match body w with
        | Done _ w' => forever k body w'
        | Spinning w' => Spinning w'
        end
    end.

Section Firmware.

Variable env : environment.

(** *** HardwareSerial *)

Definition deliver (k : nat) (p : port) : port :=
  mkPort (link p) (rx_buffer_size p) (tx_buffer_size p)
         (rx_fifo p ++ firstn k (line_in p)) (skipn k (line_in p)) (tx_out p).

Definition hs_begin (e : endpoint) (baud : Z) (fmt : frame_format)
    (rxp txp : Z) (inv : bool) (a6 : Z) : M unit :=
  fun w =>
    let l := mkLink baud fmt rxp txp inv a6 in
    let p := port_of e w in
    let p' := mkPort (Some l) (rx_buffer_size p) (tx_buffer_size p)
                     (rx_fifo p) (line_in p) (tx_out p) in
    Done tt (log (Hal e (Begin l)) (set_port e p' w)).

Definition hs_setRxBufferSize (e : endpoint) (sz : Z) : M unit :=
  fun w =>
    let p := port_of e w in
    let p' := mkPort (link p) sz (tx_buffer_size p)
                     (rx_fifo p) (line_in p) (tx_out p) in
    Done tt (log (Hal e (SetRxBufferSize sz)) (set_port e p' w)).

Definition hs_setTxBufferSize (e : endpoint) (sz : Z) : M unit :=
  fun w =>
    let p := port_of e w in
    let p' := mkPort (link p) (rx_buffer_size p) sz
                     (rx_fifo p) (line_in p) (tx_out p) in
    Done tt (log (Hal e (SetTxBufferSize sz)) (set_port e p' w)).

Definition hs_available (e : endpoint) : M Z :=
  fun w =>
    let p := deliver (env_arrive env e (clock w)) (port_of e w) in
    let r := Z.of_nat (length (rx_fifo p)) in
    Done r (log (Hal e (Available r)) (set_port e p w)).

(** [readBytes(buf, req)]: the bytes go to the start of staging buffer
    [b]; the result is the number of bytes stored. *)
Definition hs_readBytes (e : endpoint) (b : staging) (req : Z) : M Z :=
  fun w =>
    let p := port_of e w in
    let k := Z.to_nat (Z.min (env_read env e (clock w)) req) in
    let got := firstn k (rx_fifo p) in
    let r := Z.of_nat (length got) in
    let p' := mkPort (link p) (rx_buffer_size p) (tx_buffer_size p)
                     (skipn k (rx_fifo p)) (line_in p) (tx_out p) in
    Done r (log (Hal e (ReadBytes req r))
                (set_buf b (overwrite got (buf_of b w)) (set_port e p' w))).

Definition hs_availableForWrite (e : endpoint) : M Z :=
  fun w =>
    let r := env_room env e (clock w) in
    Done r (log (Hal e (AvailableForWrite r)) w).

(** [write(buf + off, size)] on staging buffer [b]: the port takes the
    first [r] bytes of the region and returns [r]. *)
Definition hs_write (e : endpoint) (b : staging) (off size : Z) : M Z :=
  fun w =>
    let p := port_of e w in
    let r := env_write env e (clock w) size in
    let taken := firstn (Z.to_nat r) (slice (buf_of b w) off size) in
    let p' := mkPort (link p) (rx_buffer_size p) (tx_buffer_size p)
                     (rx_fifo p) (line_in p) (tx_out p ++ taken) in
    Done r (log (Hal e (Write size r)) (set_port e p' w)).

Definition hs_flush (e : endpoint) (arg : option bool) : M unit :=
  fun w => Done tt (log (Hal e (Flush arg)) w).

Definition delay (ms : Z) : M unit :=
  fun w => Done tt (log (Delay ms) w).

Definition kon_printf (fmt : string) (args : list Z) : M unit :=
  fun w => Done tt (log (KonPrintf fmt args) w).

(** *** wire.cpp *)

Definition write_chunk (s : endpoint) (b : staging) (off n : Z) : M Z :=
  room <- hs_availableForWrite s ;;
  let room := to_size_t room in
  let send := n in
  let send := if negb (room =? 0) && (send >? room) then room else send in
  let send := if send >? 256 then 256 else send in
  hs_write s b off send.

Definition WIRE_RXBUF : Z := 32768.

Definition wire_init : M unit :=
  fun w =>
    if wire_inited w then Done tt w
    else
      (hs_begin Serial1 WIRE_BAUD SERIAL_8N1 WIRE_RX_PIN WIRE_TX_PIN false
                WIRE_RXBUF ;;
       hs_setRxBufferSize Serial1 32768 ;;
       hs_setTxBufferSize Serial1 32768 ;;
       hs_setRxBufferSize Serial 32768 ;;
       hs_setTxBufferSize Serial 32768 ;;
       (fun w' => Done tt (set_inited true w'))) w.

(** [size_t off = 0; while (off < n) off += dst.write(buf + off, n - off);]
    entered with the given [off]. *)
Fixpoint drain (fuel : nat) (dst : endpoint) (b : staging) (n off : Z)
  : M unit :=
  fun w =>
    if off <? n then
      match fuel with
      | O => Spinning w
      | S fuel' =>
          (r <- hs_write dst b off (n - off) ;;
           drain fuel' dst b n (to_size_t (off + r))) w
      end
    else Done tt w.

(** The block that the three run loops repeat, once per direction:
    wire.cpp lines 35-42, 51-58, 70-77 and 79-86. *)
Definition pump_once (fuel : nat) (src dst : endpoint) (b : staging)
  : M unit :=
  a <- hs_available src ;;
  let n := to_size_t a in
  if n =? 0 then ret tt
  else
    let n := if n >? BRIDGE_BUF_SZ then BRIDGE_BUF_SZ else n in
    n <- hs_readBytes src b n ;;
    drain fuel dst b n 0 ;;
    hs_flush dst (Some false).

Definition receive_pass (fuel : nat) : M unit :=
  pump_once fuel Serial1 Serial RecvBuf ;;
  delay 0.

Definition send_pass (fuel : nat) : M unit :=
  pump_once fuel Serial Serial1 SendBuf ;;
  delay 0.

Definition bidi_pass (fuel : nat) : M unit :=
  pump_once fuel Serial1 Serial WireToUsb ;;
  pump_once fuel Serial Serial1 UsbToWire ;;
  delay 0.

Definition run_receive_bridge (ticks fuel : nat) : M unit :=
  wire_init ;; forever ticks (receive_pass fuel).

Definition run_send_bridge (ticks fuel : nat) : M unit :=
  wire_init ;; forever ticks (send_pass fuel).

Definition run_bidi_bridge (ticks fuel : nat) : M unit :=
  wire_init ;; forever ticks (bidi_pass fuel).

(** *** commands.cpp *)

Definition cmd_receive (ticks fuel : nat) : M Z :=
  kon_printf
    "Entering RECEIVE mode (Serial1 -> USB). No further console output.\r\n"%string
    [] ;;
  kon_printf "Wire: TX=%d RX=%d BAUD=%d. Power-cycle to exit.\r\n"%string
    [WIRE_TX_PIN; WIRE_RX_PIN; WIRE_BAUD] ;;
  hs_flush Serial None ;;
  delay 50 ;;
  run_bidi_bridge ticks fuel ;;
  ret 0.

Definition cmd_send (ticks fuel : nat) : M Z :=
  kon_printf
    "Entering SEND mode (USB -> Serial1). No further console output.\r\n"%string
    [] ;;
  kon_printf "Wire: TX=%d RX=%d BAUD=%d. Power-cycle to exit.\r\n"%string
    [WIRE_TX_PIN; WIRE_RX_PIN; WIRE_BAUD] ;;
  hs_flush Serial None ;;
  delay 50 ;;
  run_bidi_bridge ticks fuel ;;
  ret 0.

End Firmware.

(** ** Observations on traces and worlds *)

(** Events appended between two worlds of one run. *)
Definition emitted (w w' : world) : list event :=
  skipn (length (trace w)) (trace w').

Definition is_config_call (ev : event) : bool :=
  match ev with
  | Hal _ (Begin _) | Hal _ (SetRxBufferSize _) | Hal _ (SetTxBufferSize _) =>
      true
  | _ => false
  end.

Definition config_calls (evs : list event) : list event :=
  filter is_config_call evs.

Definition is_call_on (e : endpoint) (ev : event) : bool :=
  match ev with
  | Hal e' _ => endpoint_eqb e e'
  | _ => false
  end.

Definition calls_on (e : endpoint) (evs : list event) : list event :=
  filter (is_call_on e) evs.

Definition is_write_on (e : endpoint) (ev : event) : bool :=
  match ev with
  | Hal e' (Write _ _) => endpoint_eqb e e'
  | _ => false
  end.

Definition writes_on (e : endpoint) (evs : list event) : list event :=
  filter (is_write_on e) evs.

Definition is_flush_on (e : endpoint) (ev : event) : bool :=
  match ev with
  | Hal e' (Flush _) => endpoint_eqb e e'
  | _ => false
  end.

Definition flushes_on (e : endpoint) (evs : list event) : list event :=
  filter (is_flush_on e) evs.

Definition is_read_on (e : endpoint) (ev : event) : bool :=
  match ev with
  | Hal e' (ReadBytes _ _) => endpoint_eqb e e'
  | _ => false
  end.

Definition reads_on (e : endpoint) (evs : list event) : list event :=
  filter (is_read_on e) evs.

(** The settings of a port that [begin] and the two buffer setters own. *)
Definition settings (p : port) : option link_settings * Z * Z :=
  (link p, rx_buffer_size p, tx_buffer_size p).

Definition resized (rx tx : Z) (p : port) : port :=
  mkPort (link p) rx tx (rx_fifo p) (line_in p) (tx_out p).

Definition begun (l : link_settings) (p : port) : port :=
  mkPort (Some l) (rx_buffer_size p) (tx_buffer_size p)
         (rx_fifo p) (line_in p) (tx_out p).

(** The link settings that [wire_init] passes to [Serial1.begin]. *)
Definition wire_link : link_settings :=
  mkLink WIRE_BAUD SERIAL_8N1 WIRE_RX_PIN WIRE_TX_PIN false WIRE_RXBUF.

(** The calls of one effective [wire_init], in program order. *)
Definition init_calls : list event :=
  [ Hal Serial1 (Begin wire_link);
    Hal Serial1 (SetRxBufferSize 32768);
    Hal Serial1 (SetTxBufferSize 32768);
    Hal Serial (SetRxBufferSize 32768);
    Hal Serial (SetTxBufferSize 32768) ].

(** [wire_init] called [N] times in a row. *)
Definition wire_init_times (N : nat) (w : world) : world :=
  Nat.iter N (fun w0 => world_of (wire_init w0)) w.

(** A port nobody has configured, with [incoming] bytes on their way. *)
Definition fresh_port (incoming : list byte) : port :=
  mkPort None 0 0 [] incoming [].

Definition zeroed : list byte := repeat x00 (Z.to_nat BRIDGE_BUF_SZ).

(** The machine at reset: latch clear, buffers zeroed, empty trace. *)
Definition power_on (near far : list byte) : world :=
  mkWorld (fresh_port near) (fresh_port far) false
          zeroed zeroed zeroed zeroed [].

(** What one call of [wire_init] leaves behind. *)
Definition initialized (w : world) : world :=
  mkWorld (resized 32768 32768 (usb w))
          (resized 32768 32768 (begun wire_link (wire w)))
          true (receive_buf w) (send_buf w)
          (buf_wire_to_usb w) (buf_usb_to_wire w)
          (trace w ++ init_calls).

(** Two worlds of one run between which nobody reconfigured a port. *)
Definition same_setup (w w' : world) : Prop :=
  settings (usb w') = settings (usb w)
  /\ settings (wire w') = settings (wire w)
  /\ wire_inited w' = wire_inited w
  /\ config_calls (trace w') = config_calls (trace w).

(** The sizes requested by the [write] calls issued on port [e]. *)
Definition write_requests (e : endpoint) (evs : list event) : list Z :=
  flat_map (fun ev =>
              match ev with
              | Hal e' (Write req _) => if endpoint_eqb e e' then [req] else []
              | _ => []
              end) evs.

(** Up to 512 bytes arrive before each query, reads and writes take all
    they are offered; the transmitter reports room for 128 bytes. *)
Definition env_greedy : environment :=
  mkEnv (fun _ _ => 512%nat) (fun _ _ => BRIDGE_BUF_SZ)
        (fun _ _ size => size) (fun _ _ => 128).

(** As [env_greedy], but a write takes two bytes at most. *)
Definition env_two : environment :=
  mkEnv (fun _ _ => 512%nat) (fun _ _ => BRIDGE_BUF_SZ)
        (fun _ _ size => Z.min size 2) (fun _ _ => 2).

Definition ping : list byte := list_byte_of_string "PING".

(** ** The write loop, call by call

    What [drain] does is determined by the values the port returns.  The
    three functions below follow the loop from time [t] on and give the
    calls it issues, the bytes the port takes from buffer contents [buf],
    and whether the loop is left within [fuel] calls. *)

Fixpoint drain_calls (env : environment) (fuel : nat) (dst : endpoint)
    (t : nat) (n off : Z) : list hal_call :=
  if off <? n then
    match fuel with
    | O => []
    | S fuel' =>
        let r := env_write env dst t (n - off) in
        Write (n - off) r
          :: drain_calls env fuel' dst (S t) n (to_size_t (off + r))
    end
  else [].

Fixpoint drain_bytes (env : environment) (fuel : nat) (dst : endpoint)
    (buf : list byte) (t : nat) (n off : Z) : list byte :=
  if off <? n then
    match fuel with
    | O => []
    | S fuel' =>
        let r := env_write env dst t (n - off) in
        firstn (Z.to_nat r) (slice buf off (n - off))
          ++ drain_bytes env fuel' dst buf (S t) n (to_size_t (off + r))
    end
  else [].

Fixpoint drain_done (env : environment) (fuel : nat) (dst : endpoint)
    (t : nat) (n off : Z) : bool :=
  if off <? n then
    match fuel with
    | O => false
    | S fuel' =>
        let r := env_write env dst t (n - off) in
        drain_done env fuel' dst (S t) n (to_size_t (off + r))
    end
  else true.

(** Sum of the values returned by a list of [write] calls. *)
Fixpoint returned_total (cs : list hal_call) : Z :=
  match cs with
  | [] => 0
  | Write _ r :: cs' => r + returned_total cs'
  | _ :: cs' => returned_total cs'
  end.

Definition log_all (evs : list event) (w : world) : world :=
  mkWorld (usb w) (wire w) (wire_inited w) (receive_buf w) (send_buf w)
          (buf_wire_to_usb w) (buf_usb_to_wire w) (trace w ++ evs).

Definition sent (bytes : list byte) (p : port) : port :=
  mkPort (link p) (rx_buffer_size p) (tx_buffer_size p)
         (rx_fifo p) (line_in p) (tx_out p ++ bytes).

Definition push_tx (e : endpoint) (bytes : list byte) (w : world) : world :=
  set_port e (sent bytes (port_of e w)) w.

(** A port returns from [write] the number of bytes it took: never more
    than it was offered. *)
Definition honest_writes (env : environment) (e : endpoint) : Prop :=
  forall t size, 0 <= size -> 0 <= env_write env e t size <= size.

(** A port takes at least one byte of every non-empty [write], and never
    more than it was offered. *)
Definition writes_progress (env : environment) (e : endpoint) : Prop :=
  forall t size, 0 <= size -> Z.min 1 size <= env_write env e t size <= size.

(** At least one byte in transit reaches the driver before each query,
    and a read of a non-empty queue hands over at least one byte. *)
Definition arrivals_progress (env : environment) (e : endpoint) : Prop :=
  forall t, (1 <= env_arrive env e t)%nat.

Definition reads_progress (env : environment) (e : endpoint) : Prop :=
  forall t, 1 <= env_read env e t.

(** An environment in which the direction from [src] to [dst] cannot
    stall. *)
Definition fair (env : environment) (src dst : endpoint) : Prop :=
  arrivals_progress env src /\ reads_progress env src
  /\ writes_progress env dst.

(** A port whose [write] returns zero every time. *)
Definition writes_nothing (env : environment) (e : endpoint) : Prop :=
  forall t size, env_write env e t size = 0.

(** Sum of the values returned by the [write] calls on port [e], and by
    the [readBytes] calls on port [e]. *)
Fixpoint returned_bytes (e : endpoint) (evs : list event) : Z :=
  match evs with
  | [] => 0
  | Hal e' (Write _ r) :: evs' =>
      (if endpoint_eqb e e' then r else 0) + returned_bytes e evs'
  | _ :: evs' => returned_bytes e evs'
  end.

Fixpoint read_bytes (e : endpoint) (evs : list event) : Z :=
  match evs with
  | [] => 0
  | Hal e' (ReadBytes _ r) :: evs' =>
      (if endpoint_eqb e e' then r else 0) + read_bytes e evs'
  | _ :: evs' => read_bytes e evs'
  end.

(** ** One pump step, stage by stage *)

(** Value that [available()] returns on port [e] in world [w], and the
    world after the call. *)
Definition reported (env : environment) (e : endpoint) (w : world) : Z :=
  Z.of_nat
    (length (rx_fifo (deliver (env_arrive env e (clock w)) (port_of e w)))).

Definition polled (env : environment) (e : endpoint) (w : world) : world :=
  world_of (hs_available env e w).

(** [n] after [if (n > sizeof(buf)) n = sizeof(buf)]. *)
Definition chunk_size (a : Z) : Z :=
  if to_size_t a >? BRIDGE_BUF_SZ then BRIDGE_BUF_SZ else to_size_t a.

(** Bytes that [readBytes(buf, req)] hands over in world [w], and the
    world after the call. *)
Definition fetch (env : environment) (e : endpoint) (req : Z) (w : world)
  : list byte :=
  firstn (Z.to_nat (Z.min (env_read env e (clock w)) req))
         (rx_fifo (port_of e w)).

Definition fetched (env : environment) (e : endpoint) (b : staging)
    (req : Z) (w : world) : world :=
  world_of (hs_readBytes env e b req w).

(** Whether one pump step started in [w] is left within [fuel] write
    calls, and the events it appends to the trace. *)
Definition pump_done (env : environment) (fuel : nat) (src dst : endpoint)
    (w : world) : bool :=
  let a := reported env src w in
  if to_size_t a =? 0 then true
  else
    let req := chunk_size a in
    let n := Z.of_nat (length (fetch env src req (polled env src w))) in
    drain_done env fuel dst (S (S (clock w))) n 0.

Definition pump_events (env : environment) (fuel : nat) (src dst : endpoint)
    (w : world) : list event :=
  let a := reported env src w in
  if to_size_t a =? 0 then [Hal src (Available a)]
  else
    let req := chunk_size a in
    let n := Z.of_nat (length (fetch env src req (polled env src w))) in
    let t := S (S (clock w)) in
    Hal src (Available a)
      :: Hal src (ReadBytes req n)
      :: map (Hal dst) (drain_calls env fuel dst t n 0)
      ++ (if drain_done env fuel dst t n 0
          then [Hal dst (Flush (Some false))] else []).

(** The later world's trace continues the earlier one's. *)
Definition extends (w w' : world) : Prop :=
  exists evs, trace w' = trace w ++ evs.

(** Every [available()] on port [e] recorded in [evs] returned zero. *)
Definition reports_zero (e : endpoint) (evs : list event) : bool :=
  forallb (fun ev =>
             match ev with
             | Hal e' (Available r) => negb (endpoint_eqb e e') || (r =? 0)
             | _ => true
             end) evs.

(** The trace of [k] passes of a one-way loop that finds nothing to do. *)
Definition idle_passes (src : endpoint) (k : nat) : list event :=
  concat (repeat [Hal src (Available 0); Delay 0] k).

(** No [readBytes] on [src], no [write] and no [flush] on [dst]. *)
Definition no_traffic (src dst : endpoint) (evs : list event) : Prop :=
  reads_on src evs = [] /\ writes_on dst evs = [] /\ flushes_on dst evs = [].

(** As long as [src] reports nothing available, nothing is forwarded
    from [src] to [dst]. *)
Definition idle_while_empty (src dst : endpoint) (w w' : world) : Prop :=
  extends w w'
  /\ (reports_zero src (emitted w w') = true ->
      no_traffic src dst (emitted w w')).

(** One pass of a loop that serves a single direction; [receive_pass]
    and [send_pass] are instances. *)
Definition one_way_pass (env : environment) (fuel : nat)
    (src dst : endpoint) (b : staging) : M unit :=
  pump_once env fuel src dst b ;; delay 0.

(** A port on which [readBytes] hands over nothing although bytes are
    reported available (the read timed out). *)
Definition env_read_stalls : environment :=
  mkEnv (fun _ _ => 512%nat) (fun _ _ => 0)
        (fun _ _ size => size) (fun _ _ => 128).

Definition is_room_query (ev : event) : bool :=
  match ev with
  | Hal _ (AvailableForWrite _) => true
  | _ => false
  end.

(** 300 bytes, more than the 256 of the cap. *)
Definition burst : list byte := repeat "A"%byte 300.

(** ** Byte streams

    For the direction from [src] to [dst]: the bytes the program has not
    taken from [src] yet, in arrival order, and the bytes [dst] has
    accepted, in acceptance order. *)
Definition pending (src : endpoint) (w : world) : list byte :=
  rx_fifo (port_of src w) ++ line_in (port_of src w).

Definition delivered (dst : endpoint) (w : world) : list byte :=
  tx_out (port_of dst w).

(** Every byte of the stream is accounted for, once and in order: it has
    been accepted by [dst], or sits in the staging buffer waiting for a
    [write] to take it ([stuck]), or has not been read from [src] yet. *)
Definition in_order (src dst : endpoint) (w w' : world) : Prop :=
  exists stuck,
    delivered dst w' ++ stuck ++ pending src w'
    = delivered dst w ++ pending src w.

(** The same between two passes, when the staging buffer holds nothing
    that is still to be written. *)
Definition conserved (src dst : endpoint) (w w' : world) : Prop :=
  delivered dst w' ++ pending src w' = delivered dst w ++ pending src w.

(** While nothing is pending on [src], nothing is forwarded to [dst]. *)
Definition idle_while_silent (src dst : endpoint) (w w' : world) : Prop :=
  extends w w'
  /\ (pending src w = [] ->
      pending src w' = [] /\ no_traffic src dst (emitted w w')).

(** A port after the program has taken [k] bytes from its queue. *)
Definition consumed (k : nat) (p : port) : port :=
  mkPort (link p) (rx_buffer_size p) (tx_buffer_size p)
         (skipn k (rx_fifo p)) (line_in p) (tx_out p).

(** A computation keeps the stream from [src] to [dst]: started between
    two passes it either finishes between two passes or is caught inside
    a write loop, and no byte is lost, repeated or reordered. *)
Definition keeps {A} (src dst : endpoint) (m : M A) : Prop :=
  forall w0 w,
    conserved src dst w0 w ->
    match m w with
    | Done _ w' => conserved src dst w0 w'
    | Spinning w' => in_order src dst w0 w'
    end.

(** A pass that always completes, keeps the stream from [src] to [dst]
    and, while bytes are pending on [src], takes at least one of them. *)
Definition advances (src dst : endpoint) (body : M unit) : Prop :=
  forall w,
    Z.of_nat (length (pending src w)) < SIZE_MOD ->
    exists w',
      body w = Done tt w'
      /\ conserved src dst w w'
      /\ (length (pending src w') <= Nat.pred (length (pending src w)))%nat.

(** The world with the Near port's two buffer sizes at 32768, the
    values that [setup()] in main.cpp asks for. *)
Definition near_sized (w : world) : world :=
  set_port Serial (resized 32768 32768 (usb w)) w.

(** ** Further observations *)

(** The size that [write_chunk] settles on for [n] bytes to send when the
    port reports [room]. *)
Definition chunk_request (room n : Z) : Z :=
  Z.min 256 (if to_size_t room =? 0 then n else Z.min n (to_size_t room)).

(** The calls of a bridge loop: on each port a query, a read, a write or
    a non-blocking flush, and the zero-length yield. *)
Definition is_loop_event (ev : event) : bool :=
  match ev with
  | Hal _ (Available _) | Hal _ (ReadBytes _ _) | Hal _ (Write _ _)
  | Hal _ (Flush (Some false)) => true
  | Delay ms => ms =? 0
  | _ => false
  end.

(** The calls of the direction from [src] to [dst]: queries and reads on
    [src], writes and non-blocking flushes on [dst], and the yield. *)
Definition is_one_way_event (src dst : endpoint) (ev : event) : bool :=
  match ev with
  | Hal e (Available _) | Hal e (ReadBytes _ _) => endpoint_eqb e src
  | Hal e (Write _ _) | Hal e (Flush (Some false)) => endpoint_eqb e dst
  | Delay ms => ms =? 0
  | _ => false
  end.

(** A read or write request that fits the staging buffer: a read asks for
    between 1 and [BRIDGE_BUF_SZ] bytes and stores no more than it asked
    for, a write offers between 1 and [BRIDGE_BUF_SZ] bytes. *)
Definition fits_buffer (ev : event) : Prop :=
  match ev with
  | Hal _ (ReadBytes req n) => 1 <= req <= BRIDGE_BUF_SZ /\ 0 <= n <= req
  | Hal _ (Write req _) => 1 <= req <= BRIDGE_BUF_SZ
  | _ => True
  end.

(** Every event between the two worlds satisfies [P]. *)
Definition only (P : event -> Prop) (w w' : world) : Prop :=
  extends w w' /\ Forall P (emitted w w').

(** The four staging buffers have the size of their declaration. *)
Definition buffers_sized (w : world) : Prop :=
  forall b, length (buf_of b w) = Z.to_nat BRIDGE_BUF_SZ.

Definition is_poll_on (e : endpoint) (ev : event) : bool :=
  match ev with
  | Hal e' (Available _) => endpoint_eqb e e'
  | _ => false
  end.

(** Number of [available()] queries on port [e], and of yields. *)
Definition polls (e : endpoint) (evs : list event) : nat :=
  length (filter (is_poll_on e) evs).

Definition yields (evs : list event) : nat :=
  length (filter (fun ev => match ev with Delay _ => true | _ => false end)
                 evs).

(** A [readBytes] is never cut short by the port: it hands over all it
    is asked for, as far as the queue holds it. *)
Definition reads_full (env : environment) (e : endpoint) : Prop :=
  forall t, BRIDGE_BUF_SZ <= env_read env e t.

(** [sizeof(buf)] as a number of list elements. *)
Definition BUF_LEN : nat := Z.to_nat BRIDGE_BUF_SZ.

(** The machine at reset with [near] and [far] already in the drivers'
    receive queues. *)
Definition power_on_queued (near far : list byte) : world :=
  mkWorld (mkPort None 0 0 near [] []) (mkPort None 0 0 far [] []) false
          zeroed zeroed zeroed zeroed [].

(** The world with its trace replaced by [h]. *)
Definition with_trace (h : list event) (w : world) : world :=
  mkWorld (usb w) (wire w) (wire_inited w) (receive_buf w) (send_buf w)
          (buf_wire_to_usb w) (buf_usb_to_wire w) h.

(** The outcome of a run started in [w0], replayed on top of history [h]
    instead of the history of [w0]. *)
Definition rebase {A} (h : list event) (w0 : world) (o : outcome A)
  : outcome A :=
  match o with
  | Done a w' => Done a (with_trace (h ++ emitted w0 w') w')
  | Spinning w' => Spinning (with_trace (h ++ emitted w0 w') w')
  end.

(** A computation that looks at the length of the trace only, never at
    what it holds: on a history of the same length it does the same. *)
Definition history_blind {A} (m : M A) : Prop :=
  forall w h,
    length h = length (trace w) ->
    extends w (world_of (m w))
    /\ m (with_trace h w) = rebase h w (m w).

(** ** main.cpp: the console's input callback

    [setup()] hands the console library four callbacks on [Serial].  The
    second one reads up to [n] bytes into the caller's buffer [b]:
    [size_t i = 0; while (i < n && Serial.available()) b[i++] =
    (uint8_t)Serial.read(); return i;] *)

(** [int HardwareSerial::read()]: the oldest byte of the receive queue,
    removed from it, or -1 when the queue is empty.  The call leaves no
    entry in the trace, which records the calls listed in [hal_call]. *)
Definition hs_read (e : endpoint) : M Z :=
  fun w =>
    match rx_fifo (port_of e w) with
    | [] => Done (-1) w
    | x :: _ =>
        Done (Z.of_N (Byte.to_N x)) (set_port e (consumed 1 (port_of e w)) w)
    end.

(** The cast [(uint8_t)c] of an [int]. *)
Definition to_uint8 (z : Z) : byte :=
  match Byte.of_N (Z.to_N (z mod 256)) with
  | Some x => x
  | None => x00
  end.

(** [b[i] = x].  A store past the end of the caller's buffer is outside the
    callback's contract and leaves the list as it is. *)
Definition store (i : Z) (x : byte) (b : list byte) : list byte :=
  if Z.of_nat (length b) <=? i then b
  else firstn (Z.to_nat i) b ++ x :: skipn (S (Z.to_nat i)) b.

Fixpoint io_read_loop (env : environment) (fuel : nat) (n i : Z)
    (b : list byte) : M (Z * list byte) :=
  fun w =>
    if i <? n then
      match fuel with
      | O => Spinning w
      | S fuel' =>
          bind (hs_available env Serial)
               (fun a =>
                  if a =? 0 then ret (i, b)
                  else
                    bind (hs_read Serial)
                         (fun c =>
                            io_read_loop env fuel' n (to_size_t (i + 1))
                                         (store i (to_uint8 c) b))) w
      end
    else Done (i, b) w.

(** The callback: the loop cannot make more than [n] rounds. *)
Definition io_read (env : environment) (n : Z) (b : list byte)
  : M (Z * list byte) :=
  io_read_loop env (Z.to_nat n) n 0 b.

(** What a call on the USB port's input leaves alone: the link, the
    bytes already sent to the USB side, the staging buffers, the latch. *)
Definition input_only (w w' : world) : Prop :=
  wire w' = wire w
  /\ delivered Serial w' = delivered Serial w
  /\ wire_inited w' = wire_inited w
  /\ forall s, buf_of s w' = buf_of s w.

(** A run of [write] calls in which the first offers [q] bytes and every
    later one offers what the call before it did not take. *)
Fixpoint offers_remainder (q : Z) (cs : list hal_call) : Prop :=
  match cs with
  | [] => True
  | Write q' r :: cs' => q' = q /\ offers_remainder (q - r) cs'
  | _ :: _ => False
  end.

(** A port that takes all it is offered. *)
Definition takes_all (env : environment) (e : endpoint) : Prop :=
  forall t size, env_write env e t size = size.

(** ** Staging buffers of the two-way loop *)

(** [step] forwards from [src] to [dst] through staging buffer [b] and
    through no other: the bytes it takes from [src] (as many as its
    [readBytes] returns) are stored at the start of [b], the rest of [b]
    and every other staging buffer stay as they were, and what [dst]
    accepts is read back from the start of [b]: as many bytes as the
    [write] calls returned, all that was taken when the step completes.
    A step that finds bytes in the driver's queue and is handed at least
    one does take some. *)
Definition stages_in (env : environment) (src dst : endpoint) (b : staging)
    (step : M unit) : Prop :=
  forall w,
    let w' := world_of (step w) in
    let evs := emitted w w' in
    exists got,
      pending src w = got ++ pending src w'
      /\ Z.of_nat (length got) = read_bytes src evs
      /\ buf_of b w' = overwrite got (buf_of b w)
      /\ (forall b', b' <> b -> buf_of b' w' = buf_of b' w)
      /\ (honest_writes env dst ->
          delivered dst w'
          = delivered dst w
              ++ firstn (Z.to_nat (returned_bytes dst evs)) (buf_of b w')
          /\ (returned (step w) = true ->
              returned_bytes dst evs = Z.of_nat (length got)))
      /\ (rx_fifo (port_of src w) <> [] ->
          Z.of_nat (length (pending src w)) < SIZE_MOD ->
          1 <= env_read env src (S (clock w)) ->
          got <> []).

(** One pass of the two-way loop keeps the two directions in two
    buffers: at the end of the pass (or where the pass is caught in a
    write loop) [buf_wire_to_usb] starts with the bytes the pass took
    from Serial1 and [buf_usb_to_wire] with the bytes it took from
    Serial, both at once; the buffers of the one-way loops are not
    touched; and each sink has accepted a prefix of its own direction's
    buffer as it stands then.  When neither direction can stall, a pass
    that finds bytes queued on a side takes some of them. *)
Definition buffers_apart (env : environment) (fuel : nat) (pass : M unit)
  : Prop :=
  forall w,
    let w' := world_of (pass w) in
    let evs := emitted w w' in
    exists far near,
      pending Serial1 w = far ++ pending Serial1 w'
      /\ pending Serial w = near ++ pending Serial w'
      /\ buf_of WireToUsb w' = overwrite far (buf_of WireToUsb w)
      /\ buf_of UsbToWire w' = overwrite near (buf_of UsbToWire w)
      /\ buf_of RecvBuf w' = buf_of RecvBuf w
      /\ buf_of SendBuf w' = buf_of SendBuf w
      /\ (honest_writes env Serial -> honest_writes env Serial1 ->
          delivered Serial w'
          = delivered Serial w
              ++ firstn (Z.to_nat (returned_bytes Serial evs))
                        (buf_of WireToUsb w')
          /\ delivered Serial1 w'
             = delivered Serial1 w
                 ++ firstn (Z.to_nat (returned_bytes Serial1 evs))
                           (buf_of UsbToWire w'))
      /\ (reads_progress env Serial1 ->
          rx_fifo (wire w) <> [] ->
          Z.of_nat (length (pending Serial1 w)) < SIZE_MOD ->
          far <> [])
      /\ (reads_progress env Serial -> writes_progress env Serial ->
          (BUF_LEN <= fuel)%nat ->
          rx_fifo (usb w) <> [] ->
          Z.of_nat (length (pending Serial w)) < SIZE_MOD ->
          near <> []).

(** "PONG", for the direction opposite to [ping]. *)
Definition pong : list byte := list_byte_of_string "PONG".

(* ================================================================= *)
(** * Properties *)

(** ** Basic facts *)

Lemma emitted_app w w' evs :
  trace w' = trace w ++ evs -> emitted w w' = evs.
Proof.
  intros H. unfold emitted. rewrite H.
  rewrite skipn_app, skipn_all, Nat.sub_diag. reflexivity.
Qed.

Lemma emitted_refl w : emitted w w = [].
Proof. apply emitted_app. now rewrite app_nil_r. Qed.

Lemma port_of_set_port_same e p w : port_of e (set_port e p w) = p.
Proof. destruct e; reflexivity. Qed.

Lemma port_of_set_port_other e e' p w :
  e <> e' -> port_of e (set_port e' p w) = port_of e w.
Proof. destruct e, e'; intros H; try reflexivity; congruence. Qed.

Lemma trace_log ev w : trace (log ev w) = trace w ++ [ev].
Proof. reflexivity. Qed.

Lemma trace_set_port e p w : trace (set_port e p w) = trace w.
Proof. destruct e; reflexivity. Qed.

Lemma trace_set_buf b l w : trace (set_buf b l w) = trace w.
Proof. destruct b; reflexivity. Qed.

Lemma buf_of_set_buf_same b l w : buf_of b (set_buf b l w) = l.
Proof. destruct b; reflexivity. Qed.

Lemma buf_of_set_buf_other b b' l w :
  b <> b' -> buf_of b (set_buf b' l w) = buf_of b w.
Proof. destruct b, b'; intros H; try reflexivity; congruence. Qed.

Lemma forever_spins {A} ticks body w :
  returned (forever (A:=A) ticks body w) = false.
Proof.
  revert w. induction ticks as [|k IH]; intros w; simpl.
  - reflexivity.
  - destruct (body w) as [u w'|w']; [apply IH | reflexivity].
Qed.

Lemma returned_bind_r {A B} (m : M A) (k : A -> M B) w :
  (forall a w', returned (k a w') = false) ->
  returned (bind m k w) = false.
Proof.
  intros H. unfold bind. destruct (m w) as [a w'|w']; [apply H | reflexivity].
Qed.

Lemma returned_bind_l {A B} (m : M A) (k : A -> M B) w :
  returned (m w) = false -> returned (bind m k w) = false.
Proof.
  unfold bind. destruct (m w) as [a w'|w']; simpl; intros H;
    [discriminate | reflexivity].
Qed.

Lemma wire_init_eq w :
  wire_init w = Done tt (if wire_inited w then w else initialized w).
Proof.
  destruct w as [u f i rb sb wu uw tr]. unfold wire_init. simpl.
  destruct i; [reflexivity|].
  unfold initialized, bind, hs_begin, hs_setRxBufferSize, hs_setTxBufferSize.
  simpl. unfold log, set_inited. simpl.
  repeat rewrite <- app_assoc. reflexivity.
Qed.

Lemma wire_init_times_succ N w :
  wire_init_times (S N) w = world_of (wire_init w).
Proof.
  induction N as [|N IH].
  - reflexivity.
  - change (wire_init_times (S (S N)) w)
      with (world_of (wire_init (wire_init_times (S N) w))).
    rewrite IH. rewrite !wire_init_eq. simpl.
    destruct (wire_inited w) eqn:E; simpl; [rewrite E|]; reflexivity.
Qed.

(** ** Lifting a step invariant through the control structure

    [R] relates a world to a later world of the same run.  When every
    primitive call of a loop respects a reflexive and transitive [R], so
    does the loop, whether it finishes or is still spinning. *)

Section Lifting.

Variable env : environment.
Variable R : world -> world -> Prop.
Hypothesis R_refl : forall w, R w w.
Hypothesis R_trans : forall a b c, R a b -> R b c -> R a c.

Lemma bind_lift {A B} (m : M A) (k : A -> M B) w :
  R w (world_of (m w)) ->
  (forall a w1, R w1 (world_of (k a w1))) ->
  R w (world_of (bind m k w)).
Proof.
  intros Hm Hk. unfold bind. destruct (m w) as [a w1|w1]; simpl in *.
  - eapply R_trans; [exact Hm | apply Hk].
  - exact Hm.
Qed.

Lemma forever_lift {A} (body : M unit) :
  (forall w, R w (world_of (body w))) ->
  forall ticks w, R w (world_of (forever (A:=A) ticks body w)).
Proof.
  intros Hb. induction ticks as [|k IH]; intros w; simpl.
  - apply R_refl.
  - specialize (Hb w). destruct (body w) as [u w1|w1]; simpl in *.
    + eapply R_trans; [exact Hb | apply IH].
    + exact Hb.
Qed.

Section Pump.

Variables (src dst : endpoint) (b : staging).
Hypothesis R_available : forall w, R w (world_of (hs_available env src w)).
Hypothesis R_read :
  forall req w, R w (world_of (hs_readBytes env src b req w)).
Hypothesis R_write :
  forall off size w, R w (world_of (hs_write env dst b off size w)).
Hypothesis R_flush : forall w, R w (world_of (hs_flush dst (Some false) w)).

Lemma drain_lift fuel n :
  forall off w, R w (world_of (drain env fuel dst b n off w)).
Proof.
  induction fuel as [|f IH]; intros off w; simpl;
    destruct (off <? n); simpl; try apply R_refl.
  apply bind_lift; [apply R_write | intros; apply IH].
Qed.

Lemma pump_once_lift fuel w :
  R w (world_of (pump_once env fuel src dst b w)).
Proof.
  unfold pump_once. apply bind_lift; [apply R_available|].
  intros a w1. destruct (to_size_t a =? 0); [apply R_refl|].
  apply bind_lift; [apply R_read|]. intros n w2.
  apply bind_lift; [apply drain_lift|]. intros _ w3. apply R_flush.
Qed.

End Pump.

End Lifting.

(** The same, for an invariant that every call of the pump respects on
    every port and buffer: it then holds across the three run loops. *)

Section LiftingLoops.

Variable env : environment.
Variable R : world -> world -> Prop.
Hypothesis R_refl : forall w, R w w.
Hypothesis R_trans : forall a b c, R a b -> R b c -> R a c.
Hypothesis R_available : forall e w, R w (world_of (hs_available env e w)).
Hypothesis R_read :
  forall e b req w, R w (world_of (hs_readBytes env e b req w)).
Hypothesis R_write :
  forall e b off size w, R w (world_of (hs_write env e b off size w)).
Hypothesis R_flush : forall e w, R w (world_of (hs_flush e (Some false) w)).
Hypothesis R_delay : forall w, R w (world_of (delay 0 w)).

Lemma pump_lift fuel src dst b w :
  R w (world_of (pump_once env fuel src dst b w)).
Proof. apply pump_once_lift; auto. Qed.

Lemma receive_pass_lift fuel w : R w (world_of (receive_pass env fuel w)).
Proof.
  unfold receive_pass. apply bind_lift; auto using pump_lift.
Qed.

Lemma send_pass_lift fuel w : R w (world_of (send_pass env fuel w)).
Proof.
  unfold send_pass. apply bind_lift; auto using pump_lift.
Qed.

Lemma bidi_pass_lift fuel w : R w (world_of (bidi_pass env fuel w)).
Proof.
  unfold bidi_pass. apply bind_lift; auto using pump_lift.
  intros _ w1. apply bind_lift; auto using pump_lift.
Qed.

Lemma loops_lift ticks fuel w :
  R w (world_of (forever (A:=unit) ticks (receive_pass env fuel) w))
  /\ R w (world_of (forever (A:=unit) ticks (send_pass env fuel) w))
  /\ R w (world_of (forever (A:=unit) ticks (bidi_pass env fuel) w)).
Proof.
  repeat split; apply forever_lift;
    auto using receive_pass_lift, send_pass_lift, bidi_pass_lift.
Qed.

End LiftingLoops.

(** ** Configuration is touched by [wire_init] alone *)

Lemma same_setup_refl w : same_setup w w.
Proof. repeat split. Qed.

Lemma same_setup_trans a b c :
  same_setup a b -> same_setup b c -> same_setup a c.
Proof.
  unfold same_setup. intros (H1 & H2 & H3 & H4) (K1 & K2 & K3 & K4).
  repeat split; congruence.
Qed.

Lemma config_calls_snoc tr ev :
  is_config_call ev = false -> config_calls (tr ++ [ev]) = config_calls tr.
Proof.
  intros H. unfold config_calls. rewrite filter_app. simpl. rewrite H.
  apply app_nil_r.
Qed.

Lemma same_setup_logged w w' ev :
  settings (usb w') = settings (usb w) ->
  settings (wire w') = settings (wire w) ->
  wire_inited w' = wire_inited w ->
  trace w' = trace w ->
  is_config_call ev = false ->
  same_setup w (log ev w').
Proof.
  intros H1 H2 H3 H4 H5. unfold same_setup. simpl.
  rewrite H4, config_calls_snoc by assumption. auto.
Qed.

Lemma same_setup_available env e w :
  same_setup w (world_of (hs_available env e w)).
Proof. destruct e; now apply same_setup_logged. Qed.

Lemma same_setup_read env e b req w :
  same_setup w (world_of (hs_readBytes env e b req w)).
Proof. destruct e, b; now apply same_setup_logged. Qed.

Lemma same_setup_write env e b off size w :
  same_setup w (world_of (hs_write env e b off size w)).
Proof. destruct e; now apply same_setup_logged. Qed.

Lemma same_setup_flush e arg w :
  same_setup w (world_of (hs_flush e arg w)).
Proof. now apply same_setup_logged. Qed.

Lemma same_setup_delay ms w : same_setup w (world_of (delay ms w)).
Proof. now apply same_setup_logged. Qed.

Lemma same_setup_loops env ticks fuel w :
  same_setup w (world_of (forever (A:=unit) ticks (receive_pass env fuel) w))
  /\ same_setup w (world_of (forever (A:=unit) ticks (send_pass env fuel) w))
  /\ same_setup w (world_of (forever (A:=unit) ticks (bidi_pass env fuel) w)).
Proof.
  apply loops_lift;
    auto using same_setup_refl, same_setup_available, same_setup_read,
      same_setup_write, same_setup_flush, same_setup_delay.
  exact same_setup_trans.
Qed.

(** Entering a bridge is [wire_init] followed by the loop. *)
Lemma run_bridges_eq env ticks fuel w :
  let w1 := world_of (wire_init w) in
  run_receive_bridge env ticks fuel w
    = forever ticks (receive_pass env fuel) w1
  /\ run_send_bridge env ticks fuel w = forever ticks (send_pass env fuel) w1
  /\ run_bidi_bridge env ticks fuel w = forever ticks (bidi_pass env fuel) w1.
Proof.
  unfold run_receive_bridge, run_send_bridge, run_bidi_bridge, bind.
  rewrite wire_init_eq. simpl. auto.
Qed.

(** ** The run loops have no exit *)

Lemma forever_iterates {A} (body : M unit) :
  (forall w, returned (body w) = true) ->
  forall ticks w,
    forever (A:=A) ticks body w
    = Spinning (Nat.iter ticks (fun w0 => world_of (body w0)) w).
Proof.
  intros Hb. induction ticks as [|k IH]; intros w.
  - reflexivity.
  - rewrite Nat.iter_succ_r. simpl. specialize (Hb w).
    destruct (body w) as [u w1|w1]; [apply IH | discriminate].
Qed.

(** C4: once a bridge run loop is entered it never returns, however many
    passes it is given, so neither command handler ever reaches its
    [return 0]; and a loop whose passes complete has, after any number of
    passes, run that many passes and is still running. *)
Theorem bridge_never_returns env ticks fuel w :
  returned (run_receive_bridge env ticks fuel w) = false
  /\ returned (run_send_bridge env ticks fuel w) = false
  /\ returned (run_bidi_bridge env ticks fuel w) = false
  /\ (forall status w', cmd_receive env ticks fuel w <> Done status w')
  /\ (forall status w', cmd_send env ticks fuel w <> Done status w')
  /\ (forall body : M unit,
        (forall w0, returned (body w0) = true) ->
        forever (A:=unit) ticks body w
        = Spinning (Nat.iter ticks (fun w0 => world_of (body w0)) w)).
Proof.
  assert (Hb : forall w0, returned (run_bidi_bridge env ticks fuel w0) = false).
  { intros w0. destruct (run_bridges_eq env ticks fuel w0) as (_ & _ & ->).
    apply forever_spins. }
  destruct (run_bridges_eq env ticks fuel w) as (-> & -> & _).
  repeat split; try apply forever_spins; try apply Hb;
    try (intros body Hbody; now apply forever_iterates).
  - intros status w' H.
    assert (K : returned (cmd_receive env ticks fuel w) = false).
    { unfold cmd_receive.
      do 4 (apply returned_bind_r; intros).
      apply returned_bind_l, Hb. }
    rewrite H in K. discriminate.
  - intros status w' H.
    assert (K : returned (cmd_send env ticks fuel w) = false).
    { unfold cmd_send.
      do 4 (apply returned_bind_r; intros).
      apply returned_bind_l, Hb. }
    rewrite H in K. discriminate.
Qed.

Lemma bridge_never_returns_witness :
  (forall w0, returned (delay 0 w0) = true)
  /\ forever (A:=unit) 3 (delay 0) (power_on [] [])
     = Spinning (Nat.iter 3 (fun w0 => world_of (delay 0 w0))
                   (power_on [] [])).
Proof.
  split; [reflexivity|].
  apply (bridge_never_returns env_greedy 3 0 (power_on [] [])).
  reflexivity.
Defined.

(** ** Link initialisation *)

(** C5: [wire_init] is idempotent.  [N >= 1] calls leave the world
    (ports, latch and trace of calls) exactly as one call does; from a
    clear latch the five configuration calls are issued once; entering
    any bridge, after any number of earlier calls, leaves the settings
    and the configuration calls of that single [wire_init]. *)
Theorem wire_init_idempotent (N : nat) (w : world) (HN : (1 <= N)%nat) :
  let once := world_of (wire_init w) in
  wire_init_times N w = once
  /\ wire_inited once = true
  /\ (wire_inited w = false ->
      emitted w (wire_init_times N w) = init_calls)
  /\ (wire_inited w = true -> wire_init_times N w = w)
  /\ forall env ticks fuel K,
       let w0 := wire_init_times K w in
       same_setup once (world_of (run_receive_bridge env ticks fuel w0))
       /\ same_setup once (world_of (run_send_bridge env ticks fuel w0))
       /\ same_setup once (world_of (run_bidi_bridge env ticks fuel w0)).
Proof.
  destruct N as [|N]; [lia|]. intros once. subst once.
  rewrite wire_init_times_succ, wire_init_eq. simpl.
  split; [reflexivity|]. split.
  { destruct (wire_inited w) eqn:E; [exact E | reflexivity]. }
  split.
  { intros ->. apply emitted_app. reflexivity. }
  split.
  { intros ->. reflexivity. }
  intros env ticks fuel K.
  destruct (run_bridges_eq env ticks fuel (wire_init_times K w))
    as (E1 & E2 & E3).
  rewrite E1, E2, E3.
  change (world_of (wire_init (wire_init_times K w)))
    with (wire_init_times (S K) w).
  rewrite wire_init_times_succ, wire_init_eq. simpl.
  apply same_setup_loops.
Qed.

Lemma wire_init_idempotent_witness :
  (1 <= 3)%nat
  /\ wire_init_times 3 (power_on [] []) = world_of (wire_init (power_on [] [])).
Proof.
  split; [lia|].
  apply (wire_init_idempotent 3 (power_on [] [])). lia.
Defined.

(** C6, as the code has it: an effective [wire_init] starts the Far port
    with the configured baud rate and pins and sets the receive and
    transmit buffer sizes of BOTH ports to 32768.  Nothing else changes:
    queued bytes, the Near port's link settings and the staging buffers
    stay, and a latched [wire_init] changes nothing at all.  The Near
    port is therefore left as it was exactly when its two buffer sizes
    were 32768 already. *)
Theorem wire_init_effect (w : world) :
  let w' := world_of (wire_init w) in
  (wire_inited w = true -> w' = w)
  /\ (wire_inited w = false ->
      wire w' = resized 32768 32768 (begun wire_link (wire w))
      /\ usb w' = resized 32768 32768 (usb w)
      /\ calls_on Serial (emitted w w')
         = [Hal Serial (SetRxBufferSize 32768);
            Hal Serial (SetTxBufferSize 32768)]
      /\ (usb w' = usb w <->
          rx_buffer_size (usb w) = 32768 /\ tx_buffer_size (usb w) = 32768))
  /\ link (usb w') = link (usb w)
  /\ rx_fifo (usb w') = rx_fifo (usb w)
  /\ line_in (usb w') = line_in (usb w)
  /\ tx_out (usb w') = tx_out (usb w)
  /\ (forall b, buf_of b w' = buf_of b w).
Proof.
  cbv zeta. rewrite wire_init_eq. simpl world_of.
  destruct (wire_inited w) eqn:E.
  - split; [reflexivity|]. split; [discriminate|].
    repeat split.
  - split; [discriminate|]. split.
    + intros _. split; [reflexivity|]. split; [reflexivity|]. split.
      * rewrite (emitted_app w (initialized w) init_calls); reflexivity.
      * split.
        -- intros H. unfold initialized in H. simpl in H.
           rewrite <- H. simpl. auto.
        -- intros [H1 H2]. simpl. destruct (usb w) as [l r t f i o].
           simpl in *. unfold resized. simpl. congruence.
    + repeat split.
Qed.

Lemma wire_init_effect_witness :
  wire_inited (power_on [] []) = false
  /\ usb (world_of (wire_init (power_on [] [])))
     = resized 32768 32768 (usb (power_on [] [])).
Proof.
  split; [reflexivity|].
  apply (wire_init_effect (power_on [] [])). reflexivity.
Defined.

(** C6, as stated, fails: on a machine whose Near port still has its
    buffers unsized, [wire_init] changes the Near port's state and issues
    two configuration calls on it; and on a machine whose Near port has
    both sizes at 32768 already, as [setup()] requests, the state stays
    but the two configuration calls on the Near port are issued all the
    same. *)
Lemma wire_init_changes_near :
  let w := power_on [] [] in
  let w' := world_of (wire_init w) in
  let v := near_sized (power_on [] []) in
  let v' := world_of (wire_init v) in
  usb w' <> usb w
  /\ rx_buffer_size (usb w) = 0 /\ rx_buffer_size (usb w') = 32768
  /\ tx_buffer_size (usb w) = 0 /\ tx_buffer_size (usb w') = 32768
  /\ calls_on Serial (emitted w w') <> []
  /\ usb v' = usb v
  /\ calls_on Serial (emitted v v')
     = [Hal Serial (SetRxBufferSize 32768);
        Hal Serial (SetTxBufferSize 32768)].
Proof.
  cbv zeta. rewrite !wire_init_eq.
  change (wire_inited (power_on [] [])) with false.
  change (wire_inited (near_sized (power_on [] []))) with false.
  cbv iota.
  change (world_of (Done tt (initialized (power_on [] []))))
    with (initialized (power_on [] [])).
  change (world_of (Done tt (initialized (near_sized (power_on [] [])))))
    with (initialized (near_sized (power_on [] []))).
  repeat split.
  - intros H. apply (f_equal rx_buffer_size) in H.
    vm_compute in H. discriminate.
  - rewrite (emitted_app _ (initialized (power_on [] [])) init_calls);
      [discriminate | reflexivity].
Qed.

(** ** Which bridge a command enters *)

(** C2, evaluated on the code: both handlers hand over to
    [run_bidi_bridge].  With "PING" waiting on the USB side and nothing
    on the link, one pass of [cmd_receive] forwards "PING" to Serial1, a
    transfer that [run_receive_bridge] never makes; with "PING" waiting on
    the link and nothing on USB, one pass of [cmd_send] forwards it to
    USB, which [run_send_bridge] never does. *)
Theorem handlers_enter_bidi :
  (forall env ticks fuel w,
      cmd_receive env ticks fuel w
      = (kon_printf
           "Entering RECEIVE mode (Serial1 -> USB). No further console output.\r\n"
           [] ;;
         kon_printf "Wire: TX=%d RX=%d BAUD=%d. Power-cycle to exit.\r\n"
           [WIRE_TX_PIN; WIRE_RX_PIN; WIRE_BAUD] ;;
         hs_flush Serial None ;; delay 50 ;;
         run_bidi_bridge env ticks fuel ;; ret 0)%prog w)
  /\ tx_out (wire (world_of (cmd_receive env_greedy 1 4 (power_on ping []))))
     = ping
  /\ tx_out (wire (world_of (run_receive_bridge env_greedy 1 4
                               (power_on ping []))))
     = []
  /\ tx_out (usb (world_of (cmd_send env_greedy 1 4 (power_on [] ping))))
     = ping
  /\ tx_out (usb (world_of (run_send_bridge env_greedy 1 4
                              (power_on [] ping))))
     = [].
Proof.
  split; [reflexivity|].
  repeat split; vm_compute; reflexivity.
Qed.

(** ** The write loop in closed form *)

Lemma log_all_nil w : log_all [] w = w.
Proof. destruct w; unfold log_all; simpl. now rewrite app_nil_r. Qed.

Lemma push_tx_nil e w : push_tx e [] w = w.
Proof.
  destruct w as [[] [] ? ? ? ? ? ?], e; unfold push_tx, sent; simpl;
    now rewrite app_nil_r.
Qed.

Lemma log_all_log ev evs w : log_all evs (log ev w) = log_all (ev :: evs) w.
Proof. unfold log_all, log; simpl. now rewrite <- app_assoc. Qed.

Lemma push_tx_log e bytes ev w :
  push_tx e bytes (log ev w) = log ev (push_tx e bytes w).
Proof. destruct e; reflexivity. Qed.

Lemma push_tx_push_tx e x y w :
  push_tx e y (push_tx e x w) = push_tx e (x ++ y) w.
Proof.
  destruct e; unfold push_tx, sent; simpl; now rewrite <- app_assoc.
Qed.

Lemma hs_write_eq env e b off size w :
  hs_write env e b off size w
  = let r := env_write env e (clock w) size in
    Done r (log (Hal e (Write size r))
              (push_tx e (firstn (Z.to_nat r) (slice (buf_of b w) off size))
                 w)).
Proof. reflexivity. Qed.

Lemma clock_log ev w : clock (log ev w) = S (clock w).
Proof. unfold clock, log; simpl. rewrite length_app. simpl. lia. Qed.

Lemma clock_push_tx e bytes w : clock (push_tx e bytes w) = clock w.
Proof. destruct e; reflexivity. Qed.

Lemma buf_of_log b ev w : buf_of b (log ev w) = buf_of b w.
Proof. destruct b; reflexivity. Qed.

Lemma buf_of_push_tx b e bytes w : buf_of b (push_tx e bytes w) = buf_of b w.
Proof. destruct b, e; reflexivity. Qed.

Lemma drain_closed_form env fuel dst b n :
  forall off w,
    drain env fuel dst b n off w
    = (if drain_done env fuel dst (clock w) n off
       then Done tt else Spinning)
        (log_all (map (Hal dst) (drain_calls env fuel dst (clock w) n off))
           (push_tx dst
              (drain_bytes env fuel dst (buf_of b w) (clock w) n off) w)).
Proof.
  induction fuel as [|f IH]; intros off w; simpl.
  - destruct (off <? n); simpl; now rewrite push_tx_nil, log_all_nil.
  - destruct (off <? n); simpl; [|now rewrite push_tx_nil, log_all_nil].
    unfold bind. rewrite hs_write_eq. cbv beta iota zeta.
    rewrite IH.
    rewrite clock_log, clock_push_tx, buf_of_log, buf_of_push_tx.
    rewrite push_tx_log, push_tx_push_tx, log_all_log. reflexivity.
Qed.

Lemma pump_once_eq env fuel src dst b w :
  pump_once env fuel src dst b w
  = if to_size_t (reported env src w) =? 0
    then Done tt (polled env src w)
    else
      let w1 := polled env src w in
      let req := chunk_size (reported env src w) in
      let n := Z.of_nat (length (fetch env src req w1)) in
      let w2 := fetched env src b req w1 in
      match drain env fuel dst b n 0 w2 with
      | Done _ w3 => Done tt (log (Hal dst (Flush (Some false))) w3)
      | Spinning w3 => Spinning w3
      end.
Proof.
  unfold pump_once, bind, polled, fetched, fetch, reported, chunk_size.
  simpl. destruct (to_size_t _ =? 0); reflexivity.
Qed.

(** ** Arithmetic of the write loop *)

Lemma size_mod_pos : 0 < SIZE_MOD.
Proof. reflexivity. Qed.

Lemma to_size_t_small z : 0 <= z < SIZE_MOD -> to_size_t z = z.
Proof. intros H. unfold to_size_t. now apply Z.mod_small. Qed.

Lemma firstn_plus {A} (a c : nat) (l : list A) :
  firstn (a + c) l = firstn a l ++ firstn c (skipn a l).
Proof.
  revert l. induction a as [|a IH]; intros l; simpl.
  - reflexivity.
  - destruct l as [|x l]; simpl.
    + now rewrite firstn_nil.
    + now rewrite IH.
Qed.

Lemma slice_split buf off r m tot :
  0 <= off -> 0 <= r <= m -> 0 <= tot ->
  firstn (Z.to_nat r) (slice buf off m) ++ slice buf (off + r) tot
  = slice buf off (r + tot).
Proof.
  intros Hoff Hr Htot. unfold slice.
  rewrite firstn_firstn.
  replace (Nat.min (Z.to_nat r) (Z.to_nat m)) with (Z.to_nat r) by lia.
  rewrite !Z2Nat.inj_add by lia.
  rewrite firstn_plus, skipn_skipn.
  now rewrite (Nat.add_comm (Z.to_nat r) (Z.to_nat off)).
Qed.

Lemma returned_bytes_map dst cs :
  returned_bytes dst (map (Hal dst) cs) = returned_total cs.
Proof.
  induction cs as [|c cs IH]; simpl; [reflexivity|].
  destruct c; simpl; try exact IH.
  rewrite IH. now destruct dst.
Qed.

(** With a port that returns what it took, the loop's offset is the sum
    of the returned values, the loop is left exactly when that sum
    reaches [n], and the port has received the buffer's bytes from the
    starting offset on, in order. *)
Lemma drain_sum env dst buf n :
  (forall t size, 1 <= size -> 0 <= env_write env dst t size <= size) ->
  n < SIZE_MOD ->
  forall fuel t off, 0 <= off <= n ->
    let tot := returned_total (drain_calls env fuel dst t n off) in
    0 <= tot <= n - off
    /\ (drain_done env fuel dst t n off = true <-> tot = n - off)
    /\ drain_bytes env fuel dst buf t n off = slice buf off tot.
Proof.
  intros Hw Hn. induction fuel as [|f IH]; intros t off Hoff; simpl.
  - destruct (off <? n) eqn:E; simpl.
    + apply Z.ltb_lt in E. split; [lia|]. split; [|reflexivity].
      split; [discriminate | lia].
    + apply Z.ltb_ge in E. split; [lia|]. split; [|reflexivity].
      split; [lia | reflexivity].
  - destruct (off <? n) eqn:E; simpl.
    + apply Z.ltb_lt in E.
      pose proof (Hw t (n - off) ltac:(lia)) as Hr.
      set (r := env_write env dst t (n - off)) in *.
      rewrite to_size_t_small by lia.
      destruct (IH (S t) (off + r) ltac:(lia)) as (H1 & H2 & H3).
      rewrite H3. split; [lia|]. split.
      * split; intros K; [apply H2 in K; lia | apply H2; lia].
      * apply slice_split; lia.
    + apply Z.ltb_ge in E. split; [lia|]. split; [|reflexivity].
      split; [lia | reflexivity].
Qed.

Lemma drain_progress env dst n :
  writes_progress env dst ->
  n < SIZE_MOD ->
  forall fuel t off, 0 <= off <= n -> (Z.to_nat (n - off) <= fuel)%nat ->
    drain_done env fuel dst t n off = true.
Proof.
  intros Hw Hn. induction fuel as [|f IH]; intros t off Hoff Hf; simpl.
  - destruct (off <? n) eqn:E; [|reflexivity].
    apply Z.ltb_lt in E. lia.
  - destruct (off <? n) eqn:E; [|reflexivity].
    apply Z.ltb_lt in E.
    pose proof (Hw t (n - off) ltac:(lia)) as Hr.
    rewrite to_size_t_small by lia.
    apply IH; lia.
Qed.

Lemma drain_starved env dst n :
  writes_nothing env dst ->
  0 < n ->
  forall fuel t,
    drain_done env fuel dst t n 0 = false
    /\ returned_total (drain_calls env fuel dst t n 0) = 0
    /\ length (drain_calls env fuel dst t n 0) = fuel.
Proof.
  intros Hw Hn. induction fuel as [|f IH]; intros t; simpl.
  - destruct (0 <? n) eqn:E; [auto|]. apply Z.ltb_ge in E. lia.
  - destruct (0 <? n) eqn:E; [|apply Z.ltb_ge in E; lia].
    rewrite Hw. change (to_size_t (0 + 0)) with 0.
    destruct (IH (S t)) as (H1 & H3 & H4).
    simpl. change (to_size_t 0) with 0. rewrite H1, H3, H4. auto.
Qed.

(** ** One pump step: its events and whether it is left *)

Lemma trace_polled env e w :
  trace (polled env e w) = trace w ++ [Hal e (Available (reported env e w))].
Proof. destruct e; reflexivity. Qed.

Lemma trace_fetched env e b req w :
  trace (fetched env e b req w)
  = trace w ++ [Hal e (ReadBytes req (Z.of_nat (length (fetch env e req w))))].
Proof. destruct e, b; reflexivity. Qed.

Lemma trace_log_all evs w : trace (log_all evs w) = trace w ++ evs.
Proof. reflexivity. Qed.

Lemma trace_push_tx e bytes w : trace (push_tx e bytes w) = trace w.
Proof. destruct e; reflexivity. Qed.

Lemma clock_fetched_polled env e b req w :
  clock (fetched env e b req (polled env e w)) = S (S (clock w)).
Proof.
  unfold clock. rewrite trace_fetched, trace_polled, !length_app. simpl. lia.
Qed.

Lemma pump_once_returned env fuel src dst b w :
  returned (pump_once env fuel src dst b w) = pump_done env fuel src dst w.
Proof.
  rewrite pump_once_eq. unfold pump_done.
  destruct (to_size_t (reported env src w) =? 0); [reflexivity|].
  cbv zeta. rewrite drain_closed_form, clock_fetched_polled.
  destruct (drain_done _ _ _ _ _ _); reflexivity.
Qed.

Lemma pump_once_trace env fuel src dst b w :
  trace (world_of (pump_once env fuel src dst b w))
  = trace w ++ pump_events env fuel src dst w.
Proof.
  rewrite pump_once_eq. unfold pump_events.
  destruct (to_size_t (reported env src w) =? 0).
  - simpl. apply trace_polled.
  - cbv zeta. rewrite drain_closed_form, clock_fetched_polled.
    destruct (drain_done _ _ _ _ _ _); simpl;
      rewrite trace_push_tx, trace_fetched, trace_polled;
      repeat rewrite <- app_assoc; simpl; try rewrite app_nil_r; reflexivity.
Qed.

Lemma pump_once_emitted env fuel src dst b w :
  emitted w (world_of (pump_once env fuel src dst b w))
  = pump_events env fuel src dst w.
Proof. apply emitted_app, pump_once_trace. Qed.

(** Every chunk fits the staging buffer and the loop counter. *)
Lemma chunk_size_bound a : 0 <= chunk_size a <= BRIDGE_BUF_SZ.
Proof.
  unfold chunk_size.
  pose proof (Z.mod_pos_bound a SIZE_MOD size_mod_pos) as H.
  fold (to_size_t a) in H.
  destruct (to_size_t a >? BRIDGE_BUF_SZ) eqn:E.
  - unfold BRIDGE_BUF_SZ. lia.
  - rewrite Z.gtb_ltb in E. apply Z.ltb_ge in E. lia.
Qed.

Lemma fetch_length_bound env e req w :
  0 <= req -> 0 <= Z.of_nat (length (fetch env e req w)) <= req.
Proof.
  intros H. unfold fetch. rewrite length_firstn. lia.
Qed.

Lemma buf_sz_small : BRIDGE_BUF_SZ < SIZE_MOD.
Proof. reflexivity. Qed.

Lemma returned_bytes_app e l1 l2 :
  returned_bytes e (l1 ++ l2) = returned_bytes e l1 + returned_bytes e l2.
Proof.
  induction l1 as [|ev l1 IH]; simpl; [reflexivity|].
  destruct ev as [e' c| |]; try exact IH.
  destruct c; try exact IH. rewrite IH. lia.
Qed.

Lemma read_bytes_app e l1 l2 :
  read_bytes e (l1 ++ l2) = read_bytes e l1 + read_bytes e l2.
Proof.
  induction l1 as [|ev l1 IH]; simpl; [reflexivity|].
  destruct ev as [e' c| |]; try exact IH.
  destruct c; try exact IH. rewrite IH. lia.
Qed.

Lemma drain_calls_are_writes env fuel dst n :
  forall t off,
    Forall (fun c => exists req r, c = Write req r)
           (drain_calls env fuel dst t n off).
Proof.
  induction fuel as [|f IH]; intros t off; simpl;
    destruct (off <? n); constructor; eauto.
Qed.

Lemma read_bytes_writes e dst cs :
  Forall (fun c => exists req r, c = Write req r) cs ->
  read_bytes e (map (Hal dst) cs) = 0.
Proof.
  induction 1 as [|c cs (req & r & ->) _ IH]; simpl; auto.
Qed.

Lemma writes_on_writes dst cs :
  Forall (fun c => exists req r, c = Write req r) cs ->
  writes_on dst (map (Hal dst) cs) = map (Hal dst) cs.
Proof.
  induction 1 as [|c cs (req & r & ->) _ IH]; simpl; auto.
  destruct dst; simpl; f_equal; exact IH.
Qed.

Lemma writes_on_app e l1 l2 :
  writes_on e (l1 ++ l2) = writes_on e l1 ++ writes_on e l2.
Proof. apply filter_app. Qed.

(** The counts of one pump step that got past the [if (n)]. *)
Lemma busy_counts env fuel src dst t a req n :
  let evs :=
    Hal src (Available a)
      :: Hal src (ReadBytes req n)
      :: map (Hal dst) (drain_calls env fuel dst t n 0)
      ++ (if drain_done env fuel dst t n 0
          then [Hal dst (Flush (Some false))] else []) in
  returned_bytes dst evs = returned_total (drain_calls env fuel dst t n 0)
  /\ read_bytes src evs = n
  /\ writes_on dst evs = map (Hal dst) (drain_calls env fuel dst t n 0).
Proof.
  simpl. rewrite returned_bytes_app, read_bytes_app, writes_on_app.
  rewrite returned_bytes_map.
  rewrite read_bytes_writes by apply drain_calls_are_writes.
  rewrite writes_on_writes by apply drain_calls_are_writes.
  assert (E : endpoint_eqb src src = true) by now destruct src.
  rewrite E.
  destruct (drain_done env fuel dst t n 0); simpl;
    rewrite ?app_nil_r; repeat split; lia.
Qed.

(** ** Termination of the write loop *)

(** C10: the write loop of a pump step is left exactly when the values
    returned by the sink's [write] calls add up to the number of bytes
    read in that step.  If every call returns at least one byte, the step
    completes (32768 calls are always enough) and the returned values
    add up to the read count; if [write] returns zero every time, a step
    that read at least one byte is never left: whatever the number of
    iterations allowed, all of them are spent on further [write] calls. *)
Theorem write_loop_termination env fuel src dst b w :
  let o := pump_once env fuel src dst b w in
  let evs := emitted w (world_of o) in
  (honest_writes env dst ->
     returned_bytes dst evs <= read_bytes src evs
     /\ (returned o = true <-> returned_bytes dst evs = read_bytes src evs))
  /\ (writes_progress env dst -> (Z.to_nat BRIDGE_BUF_SZ <= fuel)%nat ->
      returned o = true /\ returned_bytes dst evs = read_bytes src evs)
  /\ (writes_nothing env dst -> 1 <= read_bytes src evs ->
      returned o = false /\ length (writes_on dst evs) = fuel).
Proof.
  cbv zeta. rewrite pump_once_emitted, pump_once_returned.
  unfold pump_events, pump_done.
  destruct (to_size_t (reported env src w) =? 0).
  - simpl. repeat split; intros; try lia; auto.
  - cbv zeta.
    set (req := chunk_size (reported env src w)).
    set (n := Z.of_nat (length (fetch env src req (polled env src w)))).
    set (t := S (S (clock w))).
    pose proof (chunk_size_bound (reported env src w)) as Hreq. fold req in Hreq.
    pose proof (fetch_length_bound env src req (polled env src w)
                  ltac:(lia)) as Hlen.
    fold n in Hlen.
    pose proof buf_sz_small as Hsm.
    destruct (busy_counts env fuel src dst t (reported env src w) req n)
      as (E1 & E2 & E3).
    cbv zeta in E1, E2, E3. rewrite E1, E2, E3. clear E1 E2 E3.
    assert (Sum : (forall t0 size, 1 <= size ->
                     0 <= env_write env dst t0 size <= size) ->
                  0 <= returned_total (drain_calls env fuel dst t n 0) <= n
                  /\ (drain_done env fuel dst t n 0 = true <->
                      returned_total (drain_calls env fuel dst t n 0) = n)).
    { intros Hw.
      destruct (drain_sum env dst [] n Hw ltac:(lia) fuel t 0 ltac:(lia))
        as (H1 & H2 & _).
      rewrite Z.sub_0_r in H1, H2. auto. }
    split; [|split].
    + intros Hh. destruct Sum as [H1 H2].
      { intros t0 size Hs. apply Hh. lia. }
      split; [lia | exact H2].
    + intros Hp Hf.
      assert (Hd : drain_done env fuel dst t n 0 = true).
      { apply drain_progress; auto; unfold BRIDGE_BUF_SZ in *; lia. }
      destruct Sum as [H1 H2].
      { intros t0 size Hs. specialize (Hp t0 size ltac:(lia)). lia. }
      split; [exact Hd | now apply H2].
    + intros Hz Hn.
      destruct (drain_starved env dst n Hz ltac:(lia) fuel t) as (S1 & _ & S3).
      split; [exact S1 | now rewrite length_map].
Qed.

Lemma write_loop_termination_witness :
  writes_progress env_two Serial1
  /\ (Z.to_nat BRIDGE_BUF_SZ <= Z.to_nat BRIDGE_BUF_SZ)%nat
  /\ returned (pump_once env_two (Z.to_nat BRIDGE_BUF_SZ) Serial Serial1
                 SendBuf (power_on ping []))
     = true.
Proof.
  assert (P : writes_progress env_two Serial1).
  { intros t size H. simpl. lia. }
  split; [exact P|]. split; [lia|].
  destruct (write_loop_termination env_two (Z.to_nat BRIDGE_BUF_SZ)
              Serial Serial1 SendBuf (power_on ping [])) as (_ & H & _).
  apply H; [exact P | lia].
Defined.

(** ** Traces only grow *)

Lemma extends_refl w : extends w w.
Proof. exists []. now rewrite app_nil_r. Qed.

Lemma extends_trans a b c : extends a b -> extends b c -> extends a c.
Proof.
  intros [x Hx] [y Hy]. exists (x ++ y). rewrite Hy, Hx. now rewrite app_assoc.
Qed.

Lemma extends_emitted w w' :
  extends w w' -> trace w' = trace w ++ emitted w w'.
Proof. intros [evs H]. now rewrite (emitted_app _ _ _ H). Qed.

Lemma emitted_trans a b c :
  extends a b -> extends b c -> emitted a c = emitted a b ++ emitted b c.
Proof.
  intros Hab Hbc. apply emitted_app.
  rewrite (extends_emitted _ _ Hbc), (extends_emitted _ _ Hab).
  now rewrite app_assoc.
Qed.

Lemma extends_log ev w : extends w (log ev w).
Proof. exists [ev]. reflexivity. Qed.

Lemma extends_available env e w : extends w (world_of (hs_available env e w)).
Proof. eexists. apply trace_polled. Qed.

Lemma extends_read env e b req w :
  extends w (world_of (hs_readBytes env e b req w)).
Proof. eexists. apply trace_fetched. Qed.

Lemma extends_write env e b off size w :
  extends w (world_of (hs_write env e b off size w)).
Proof. eexists. rewrite hs_write_eq. simpl. now rewrite trace_push_tx. Qed.

Lemma extends_pump env fuel src dst b w :
  extends w (world_of (pump_once env fuel src dst b w)).
Proof. eexists. apply pump_once_trace. Qed.

Lemma extends_wire_init w : extends w (world_of (wire_init w)).
Proof.
  rewrite wire_init_eq. destruct (wire_inited w); simpl.
  - apply extends_refl.
  - exists init_calls. reflexivity.
Qed.

(** ** A pump step with nothing available *)

Lemma firstn_nil_skipn {A} k (l : list A) : firstn k l = [] -> skipn k l = l.
Proof.
  intros H. rewrite <- (firstn_skipn k l) at 2. now rewrite H.
Qed.

Lemma set_port_same e w : set_port e (port_of e w) w = w.
Proof. destruct w, e; reflexivity. Qed.

Lemma polled_eq env e w :
  polled env e w
  = log (Hal e (Available (reported env e w)))
        (set_port e (deliver (env_arrive env e (clock w)) (port_of e w)) w).
Proof. reflexivity. Qed.

Lemma polled_idle env e w :
  reported env e w = 0 -> polled env e w = log (Hal e (Available 0)) w.
Proof.
  intros H. rewrite polled_eq, H. f_equal.
  unfold reported in H.
  assert (L : rx_fifo (deliver (env_arrive env e (clock w)) (port_of e w)) = []).
  { apply length_zero_iff_nil. lia. }
  simpl in L. apply app_eq_nil in L. destruct L as [L1 L2].
  replace (deliver (env_arrive env e (clock w)) (port_of e w))
    with (port_of e w); [apply set_port_same|].
  unfold deliver. rewrite L1, L2, (firstn_nil_skipn _ _ L2). simpl.
  rewrite <- L1. now destruct (port_of e w).
Qed.

Lemma pump_once_idle env fuel src dst b w :
  reported env src w = 0 ->
  pump_once env fuel src dst b w = Done tt (log (Hal src (Available 0)) w).
Proof.
  intros H. rewrite pump_once_eq, H. change (to_size_t 0 =? 0) with true.
  cbv iota. now rewrite polled_idle.
Qed.

Lemma pump_events_head env fuel src dst w :
  exists tl,
    pump_events env fuel src dst w
    = Hal src (Available (reported env src w)) :: tl.
Proof.
  unfold pump_events. destruct (to_size_t _ =? 0); eexists; reflexivity.
Qed.

Lemma reports_zero_app e l1 l2 :
  reports_zero e (l1 ++ l2) = reports_zero e l1 && reports_zero e l2.
Proof. apply forallb_app. Qed.

Lemma reports_zero_head e a tl :
  reports_zero e (Hal e (Available a) :: tl) = true -> a = 0.
Proof.
  simpl. assert (E : endpoint_eqb e e = true) by now destruct e.
  rewrite E. simpl. intros H. apply andb_prop in H. lia.
Qed.

Lemma extends_bind {A B} (m : M A) (k : A -> M B) w :
  extends w (world_of (m w)) ->
  (forall a w1, extends w1 (world_of (k a w1))) ->
  extends w (world_of (bind m k w)).
Proof. apply bind_lift. exact extends_trans. Qed.

Lemma extends_forever {A} body :
  (forall w, extends w (world_of (body w))) ->
  forall ticks w, extends w (world_of (forever (A:=A) ticks body w)).
Proof. apply forever_lift; [exact extends_refl | exact extends_trans]. Qed.

Lemma extends_one_way env fuel src dst b w :
  extends w (world_of (one_way_pass env fuel src dst b w)).
Proof.
  apply extends_bind; [apply extends_pump | intros; apply extends_log].
Qed.

Lemma log_all_log2 ev1 ev2 evs w :
  log_all evs (log ev2 (log ev1 w)) = log_all (ev1 :: ev2 :: evs) w.
Proof. now rewrite !log_all_log. Qed.

Lemma forever_succ {A} k body w :
  forever (A:=A) (S k) body w
  = match body w with
    | Done _ w' => forever k body w'
    | Spinning w' => Spinning w'
    end.
Proof. reflexivity. Qed.

Lemma one_way_pass_idle env fuel src dst b w :
  reported env src w = 0 ->
  one_way_pass env fuel src dst b w
  = Done tt (log (Delay 0) (log (Hal src (Available 0)) w)).
Proof.
  intros H. unfold one_way_pass, bind. now rewrite pump_once_idle.
Qed.

(** A one-way loop whose source reports zero at every query does
    nothing but query and yield, pass after pass. *)
Lemma one_way_idle env fuel src dst b :
  forall ticks w,
    reports_zero src
      (emitted w (world_of (forever (A:=unit) ticks
                              (one_way_pass env fuel src dst b) w)))
    = true ->
    forever (A:=unit) ticks (one_way_pass env fuel src dst b) w
    = Spinning (log_all (idle_passes src ticks) w).
Proof.
  induction ticks as [|k IH]; intros w H.
  - simpl. now rewrite log_all_nil.
  - assert (Hz : reported env src w = 0).
    { assert (X : extends (world_of (pump_once env fuel src dst b w))
                    (world_of (forever (A:=unit) (S k)
                                 (one_way_pass env fuel src dst b) w))).
      { rewrite forever_succ. unfold one_way_pass at 1. unfold bind.
        destruct (pump_once env fuel src dst b w) as [u w1|w1].
        - change (delay 0 w1) with (Done (A:=unit) tt (log (Delay 0) w1)).
          cbv beta iota.
          eapply extends_trans; [apply extends_log|].
          apply extends_forever. intros; apply extends_one_way.
        - apply extends_refl. }
      rewrite (emitted_trans _ _ _ (extends_pump env fuel src dst b w) X) in H.
      rewrite pump_once_emitted in H.
      destruct (pump_events_head env fuel src dst w) as [tl E].
      rewrite E in H. rewrite <- app_comm_cons in H.
      now apply reports_zero_head in H. }
    rewrite forever_succ in H |- *.
    rewrite (one_way_pass_idle env fuel src dst b w Hz) in H |- *.
    cbv beta iota in H |- *.
    set (w1 := log (Delay 0) (log (Hal src (Available 0)) w)) in *.
    assert (X1 : extends w w1).
    { eapply extends_trans; apply extends_log. }
    assert (X2 : extends w1 (world_of (forever (A:=unit) k
                                         (one_way_pass env fuel src dst b) w1))).
    { apply extends_forever. intros; apply extends_one_way. }
    rewrite (emitted_trans _ _ _ X1 X2), reports_zero_app in H.
    apply andb_prop in H. destruct H as [_ H].
    rewrite (IH w1 H). unfold w1. now rewrite log_all_log2.
Qed.

Lemma filter_writes_nil (f : event -> bool) d cs :
  Forall (fun c => exists req r, c = Write req r) cs ->
  (forall req r, f (Hal d (Write req r)) = false) ->
  filter f (map (Hal d) cs) = [].
Proof.
  intros Hc Hf. induction Hc as [|c cs (req & r & ->) _ IH]; simpl; auto.
  now rewrite Hf.
Qed.

Lemma no_traffic_nil src dst : no_traffic src dst [].
Proof. repeat split. Qed.

Lemma no_traffic_app src dst l1 l2 :
  no_traffic src dst l1 -> no_traffic src dst l2 ->
  no_traffic src dst (l1 ++ l2).
Proof.
  unfold no_traffic, reads_on, writes_on, flushes_on.
  intros (A1 & A2 & A3) (B1 & B2 & B3).
  rewrite !filter_app, A1, A2, A3, B1, B2, B3. auto.
Qed.

Lemma idle_while_empty_refl src dst w : idle_while_empty src dst w w.
Proof.
  split; [apply extends_refl|]. intros _. rewrite emitted_refl.
  apply no_traffic_nil.
Qed.

Lemma idle_while_empty_trans src dst a b c :
  idle_while_empty src dst a b -> idle_while_empty src dst b c ->
  idle_while_empty src dst a c.
Proof.
  intros [X1 H1] [X2 H2]. split; [eapply extends_trans; eauto|].
  rewrite (emitted_trans _ _ _ X1 X2), reports_zero_app.
  intros H. apply andb_prop in H. destruct H as [Ha Hb].
  apply no_traffic_app; auto.
Qed.

Lemma idle_while_empty_quiet src dst w w' evs :
  trace w' = trace w ++ evs -> no_traffic src dst evs ->
  idle_while_empty src dst w w'.
Proof.
  intros H N. split; [now exists evs|].
  now rewrite (emitted_app _ _ _ H).
Qed.

(** The step that forwards from [src] to [dst]. *)
Lemma idle_pump_forth env fuel src dst b w :
  idle_while_empty src dst w (world_of (pump_once env fuel src dst b w)).
Proof.
  split; [apply extends_pump|]. rewrite pump_once_emitted. intros H.
  destruct (pump_events_head env fuel src dst w) as [tl E].
  rewrite E in H. apply reports_zero_head in H.
  unfold pump_events. rewrite H. change (to_size_t 0 =? 0) with true.
  cbv iota. repeat split.
Qed.

Lemma endpoint_eqb_neq a b : a <> b -> endpoint_eqb a b = false.
Proof. destruct a, b; intros H; try reflexivity; congruence. Qed.

Lemma endpoint_eqb_refl a : endpoint_eqb a a = true.
Proof. now destruct a. Qed.

(** The step that forwards the other way, from [dst] to [src]. *)
Lemma pump_back_no_traffic env fuel src dst w :
  src <> dst -> no_traffic src dst (pump_events env fuel dst src w).
Proof.
  intros Hne.
  assert (E1 : endpoint_eqb src dst = false) by now apply endpoint_eqb_neq.
  assert (E2 : endpoint_eqb dst src = false)
    by (apply endpoint_eqb_neq; congruence).
  unfold pump_events.
  destruct (to_size_t (reported env dst w) =? 0).
  - unfold no_traffic; simpl. auto.
  - cbv zeta.
    set (cs := drain_calls env fuel src _ _ 0).
    assert (W : Forall (fun c => exists req r, c = Write req r) cs)
      by apply drain_calls_are_writes.
    unfold no_traffic, reads_on, writes_on, flushes_on. simpl.
    rewrite E1, !filter_app.
    rewrite !(filter_writes_nil _ src cs W);
      try (intros; simpl; now rewrite ?E2).
    destruct (drain_done _ _ _ _ _ _); simpl; rewrite ?E2; auto.
Qed.

Lemma idle_pump_back env fuel src dst b w :
  src <> dst ->
  idle_while_empty src dst w (world_of (pump_once env fuel dst src b w)).
Proof.
  intros Hne. eapply idle_while_empty_quiet; [apply pump_once_trace|].
  now apply pump_back_no_traffic.
Qed.

Lemma idle_delay src dst ms w :
  idle_while_empty src dst w (world_of (delay ms w)).
Proof.
  eapply idle_while_empty_quiet with (evs := [Delay ms]); [reflexivity|].
  repeat split.
Qed.

Lemma idle_wire_init src dst w :
  idle_while_empty src dst w (world_of (wire_init w)).
Proof.
  rewrite wire_init_eq. destruct (wire_inited w); simpl.
  - apply idle_while_empty_refl.
  - eapply idle_while_empty_quiet with (evs := init_calls); [reflexivity|].
    destruct dst; repeat split.
Qed.

(** In the two-way loop each direction stays idle while its own source
    reports nothing, whatever the other direction carries. *)
Lemma bidi_idle env ticks fuel src dst w :
  src <> dst ->
  idle_while_empty src dst w (world_of (run_bidi_bridge env ticks fuel w)).
Proof.
  intros Hne. unfold run_bidi_bridge.
  apply (bind_lift (idle_while_empty src dst));
    [apply idle_while_empty_trans | apply idle_wire_init |].
  intros _ w1.
  apply (forever_lift (idle_while_empty src dst));
    [apply idle_while_empty_refl | apply idle_while_empty_trans |].
  intros w2. unfold bidi_pass.
  assert (P : forall s d b w0, idle_while_empty src dst w0
                (world_of (pump_once env fuel s d b w0)) \/ s = d).
  { intros s d b w0. destruct src, dst, s, d; try congruence; auto;
      left; try apply idle_pump_forth; apply idle_pump_back; congruence. }
  apply (bind_lift (idle_while_empty src dst));
    [apply idle_while_empty_trans | |].
  { destruct (P Serial1 Serial WireToUsb w2); [assumption|discriminate]. }
  intros _ w3.
  apply (bind_lift (idle_while_empty src dst));
    [apply idle_while_empty_trans | |].
  { destruct (P Serial Serial1 UsbToWire w3); [assumption|discriminate]. }
  intros _ w4. apply idle_delay.
Qed.

(** C7: a pump step whose source reports zero bytes available completes
    at once, with any fuel, and changes nothing: the query is the only
    call made, so there is no read, no write and no flush.  While the
    link reports zero, pass after pass, the receive-only and send-only
    loops do nothing but query and yield, and the two-way loop issues no
    read on that source and no write or flush on the opposite sink. *)
Theorem empty_source_is_noop env fuel :
  (forall src dst b w,
      reported env src w = 0 ->
      pump_once env fuel src dst b w
      = Done tt (log (Hal src (Available 0)) w))
  /\ (forall ticks w,
        let w1 := world_of (wire_init w) in
        let o := run_receive_bridge env ticks fuel w in
        reports_zero Serial1 (emitted w1 (world_of o)) = true ->
        o = Spinning (log_all (idle_passes Serial1 ticks) w1)
        /\ writes_on Serial (emitted w (world_of o)) = [])
  /\ (forall ticks w,
        let w1 := world_of (wire_init w) in
        let o := run_send_bridge env ticks fuel w in
        reports_zero Serial (emitted w1 (world_of o)) = true ->
        o = Spinning (log_all (idle_passes Serial ticks) w1)
        /\ writes_on Serial1 (emitted w (world_of o)) = [])
  /\ (forall ticks w,
        let evs := emitted w (world_of (run_bidi_bridge env ticks fuel w)) in
        (reports_zero Serial1 evs = true -> no_traffic Serial1 Serial evs)
        /\ (reports_zero Serial evs = true -> no_traffic Serial Serial1 evs)).
Proof.
  split; [intros; now apply pump_once_idle|].
  assert (Idle : forall src k, writes_on src (idle_passes src k) = []
                               /\ forall d, writes_on d (idle_passes src k) = []).
  { intros src k. assert (forall d, writes_on d (idle_passes src k) = []).
    { intros d. induction k as [|k IH]; [reflexivity|]. exact IH. }
    auto. }
  assert (Init : forall d w, writes_on d (emitted w (world_of (wire_init w))) = []).
  { intros d w. rewrite wire_init_eq. destruct (wire_inited w); simpl.
    - now rewrite emitted_refl.
    - rewrite (emitted_app _ (initialized w) init_calls) by reflexivity.
      now destruct d. }
  split; [|split].
  - intros ticks w w1 o H. subst o.
    destruct (run_bridges_eq env ticks fuel w) as (E & _ & _).
    fold w1 in E. rewrite E in *.
    pose proof (one_way_idle env fuel Serial1 Serial RecvBuf ticks w1 H) as K.
    change (receive_pass env fuel)
      with (one_way_pass env fuel Serial1 Serial RecvBuf).
    rewrite K. split; [reflexivity|]. simpl.
    rewrite (emitted_trans w w1); [| apply extends_wire_init
                                   | now exists (idle_passes Serial1 ticks)].
    rewrite writes_on_app. unfold w1 at 1. rewrite Init.
    rewrite (emitted_app w1 _ (idle_passes Serial1 ticks)) by reflexivity.
    apply Idle.
  - intros ticks w w1 o H. subst o.
    destruct (run_bridges_eq env ticks fuel w) as (_ & E & _).
    fold w1 in E. rewrite E in *.
    pose proof (one_way_idle env fuel Serial Serial1 SendBuf ticks w1 H) as K.
    change (send_pass env fuel)
      with (one_way_pass env fuel Serial Serial1 SendBuf).
    rewrite K. split; [reflexivity|]. simpl.
    rewrite (emitted_trans w w1); [| apply extends_wire_init
                                   | now exists (idle_passes Serial ticks)].
    rewrite writes_on_app. unfold w1 at 1. rewrite Init.
    rewrite (emitted_app w1 _ (idle_passes Serial ticks)) by reflexivity.
    apply Idle.
  - intros ticks w evs. subst evs. split.
    + apply (bidi_idle env ticks fuel Serial1 Serial w). discriminate.
    + apply (bidi_idle env ticks fuel Serial Serial1 w). discriminate.
Qed.

Lemma empty_source_is_noop_witness :
  reported env_greedy Serial1 (power_on [] []) = 0
  /\ pump_once env_greedy 0 Serial1 Serial RecvBuf (power_on [] [])
     = Done tt (log (Hal Serial1 (Available 0)) (power_on [] [])).
Proof.
  split; [vm_compute; reflexivity|].
  apply (empty_source_is_noop env_greedy 0). vm_compute. reflexivity.
Defined.

(** ** Flushing *)

Lemma flushes_on_app e l1 l2 :
  flushes_on e (l1 ++ l2) = flushes_on e l1 ++ flushes_on e l2.
Proof. apply filter_app. Qed.

Lemma flushes_on_writes e dst cs :
  Forall (fun c => exists req r, c = Write req r) cs ->
  flushes_on e (map (Hal dst) cs) = [].
Proof. intros H. now apply filter_writes_nil. Qed.

(** C9, as the code has it: the flush is tied to the [if (n)] on the
    reported count.  A step whose source reports zero consists of the
    query alone; a step that gets past the test and is left consists of
    the query, one read, the write calls and then exactly one
    [flush(false)], which is the last call; a step that moved at least
    one byte is of that kind; a step still inside its write loop has not
    flushed. *)
Theorem flush_once_after_writes env fuel src dst b w :
  let o := pump_once env fuel src dst b w in
  let evs := emitted w (world_of o) in
  let a := reported env src w in
  (to_size_t a = 0 -> o = Done tt (polled env src w)
                      /\ evs = [Hal src (Available a)])
  /\ (to_size_t a <> 0 -> returned o = true ->
      exists req n calls,
        evs = Hal src (Available a) :: Hal src (ReadBytes req n)
                :: map (Hal dst) calls ++ [Hal dst (Flush (Some false))]
        /\ Forall (fun c => exists q r, c = Write q r) calls
        /\ flushes_on dst evs = [Hal dst (Flush (Some false))])
  /\ (1 <= read_bytes src evs -> to_size_t a <> 0)
  /\ (returned o = false -> flushes_on dst evs = []).
Proof.
  cbv zeta. rewrite pump_once_emitted, pump_once_returned.
  rewrite pump_once_eq. unfold pump_events, pump_done.
  destruct (to_size_t (reported env src w) =? 0) eqn:E.
  - apply Z.eqb_eq in E. split; [auto|]. split; [congruence|].
    split; [simpl; lia|]. discriminate.
  - apply Z.eqb_neq in E. split; [congruence|]. cbv zeta.
    set (req := chunk_size (reported env src w)).
    set (n := Z.of_nat (length (fetch env src req (polled env src w)))).
    set (cs := drain_calls env fuel dst (S (S (clock w))) n 0).
    assert (W : Forall (fun c => exists q r, c = Write q r) cs)
      by apply drain_calls_are_writes.
    assert (F : forall tl,
      flushes_on dst (Hal src (Available (reported env src w))
                        :: Hal src (ReadBytes req n)
                        :: map (Hal dst) cs ++ tl)
      = flushes_on dst tl).
    { intros tl. unfold flushes_on at 1. simpl.
      rewrite filter_app. fold (flushes_on dst (map (Hal dst) cs)).
      now rewrite flushes_on_writes. }
    split; [|split; [auto|]].
    + intros _ Hd. rewrite Hd. exists req, n, cs.
      split; [reflexivity|]. split; [exact W|].
      rewrite F. simpl. now rewrite endpoint_eqb_refl.
    + intros Hd. rewrite Hd, F. reflexivity.
Qed.

Lemma flush_once_after_writes_witness :
  to_size_t (reported env_two Serial (power_on ping [])) <> 0
  /\ returned (pump_once env_two 4 Serial Serial1 SendBuf (power_on ping []))
     = true
  /\ flushes_on Serial1
       (emitted (power_on ping [])
          (world_of (pump_once env_two 4 Serial Serial1 SendBuf
                       (power_on ping []))))
     = [Hal Serial1 (Flush (Some false))].
Proof.
  assert (A : to_size_t (reported env_two Serial (power_on ping [])) <> 0).
  { vm_compute. discriminate. }
  assert (B : returned (pump_once env_two 4 Serial Serial1 SendBuf
                          (power_on ping [])) = true).
  { vm_compute. reflexivity. }
  split; [exact A|]. split; [exact B|].
  destruct (flush_once_after_writes env_two 4 Serial Serial1 SendBuf
              (power_on ping [])) as (_ & H & _).
  destruct (H A B) as (req & n & calls & _ & _ & F). exact F.
Defined.

(** C9, as stated, fails where it says that a step that moved no data
    does not flush: when four bytes are reported and the read hands over
    none, nothing is read or written and the sink is flushed all the
    same. *)
Lemma flush_without_data :
  let w := power_on ping [] in
  let o := pump_once env_read_stalls 4 Serial Serial1 SendBuf w in
  let evs := emitted w (world_of o) in
  returned o = true
  /\ read_bytes Serial evs = 0
  /\ writes_on Serial1 evs = []
  /\ tx_out (wire (world_of o)) = []
  /\ flushes_on Serial1 evs = [Hal Serial1 (Flush (Some false))]
  /\ evs = [Hal Serial (Available 4); Hal Serial (ReadBytes 4 0);
            Hal Serial1 (Flush (Some false))].
Proof. vm_compute. repeat split. Qed.

(** ** The size of the write requests *)

Lemma write_requests_app e l1 l2 :
  write_requests e (l1 ++ l2) = write_requests e l1 ++ write_requests e l2.
Proof. unfold write_requests. apply flat_map_app. Qed.

(** The first [write] of a step asks the port to take the whole chunk
    that was read, whatever its size and with no look at the room the
    port has. *)
Lemma first_write_requests_whole_chunk env fuel src dst b w :
  let evs := emitted w (world_of (pump_once env fuel src dst b w)) in
  fuel <> O -> 1 <= read_bytes src evs ->
  exists rest, write_requests dst evs = read_bytes src evs :: rest.
Proof.
  cbv zeta. rewrite pump_once_emitted. unfold pump_events.
  destruct (to_size_t (reported env src w) =? 0); [simpl; lia|].
  cbv zeta.
  set (req := chunk_size (reported env src w)).
  set (n := Z.of_nat (length (fetch env src req (polled env src w)))).
  set (t := S (S (clock w))).
  destruct (busy_counts env fuel src dst t (reported env src w) req n)
    as (_ & E2 & _).
  cbv zeta in E2. rewrite E2. clear E2. intros Hf Hn.
  destruct fuel as [|f]; [congruence|].
  change (write_requests dst
            (Hal src (Available (reported env src w))
               :: Hal src (ReadBytes req n)
               :: map (Hal dst) (drain_calls env (S f) dst t n 0)
               ++ (if drain_done env (S f) dst t n 0
                   then [Hal dst (Flush (Some false))] else [])))
    with (write_requests dst
            (map (Hal dst) (drain_calls env (S f) dst t n 0)
               ++ (if drain_done env (S f) dst t n 0
                   then [Hal dst (Flush (Some false))] else []))).
  rewrite write_requests_app. simpl drain_calls.
  assert (E : (0 <? n) = true) by (apply Z.ltb_lt; lia).
  rewrite E. simpl. rewrite endpoint_eqb_refl, Z.sub_0_r. simpl.
  eexists. reflexivity.
Qed.

(** No pump step ever asks a port how much room it has. *)
Lemma pump_never_queries_room env fuel src dst w :
  filter is_room_query (pump_events env fuel src dst w) = [].
Proof.
  unfold pump_events.
  destruct (to_size_t (reported env src w) =? 0); [reflexivity|].
  cbv zeta. simpl. rewrite filter_app.
  rewrite (filter_writes_nil is_room_query dst _
             (drain_calls_are_writes env fuel dst _ _ _)
             (fun _ _ => eq_refl)).
  now destruct (drain_done _ _ _ _ _ _).
Qed.

(** The helper [write_chunk], which no loop calls, does cap its request:
    at the remaining count, at 256, and at the reported room when that
    is not zero. *)
Lemma write_chunk_caps env s b off n w :
  0 <= n ->
  exists room send r w',
    write_chunk env s b off n w = Done r w'
    /\ emitted w w' = [Hal s (AvailableForWrite room); Hal s (Write send r)]
    /\ send <= n /\ send <= 256
    /\ (to_size_t room <> 0 -> send <= to_size_t room).
Proof.
  intros Hn. unfold write_chunk, bind, hs_availableForWrite.
  cbv beta iota zeta. rewrite hs_write_eq. cbv zeta.
  set (room := env_room env s (clock w)).
  set (send1 := if negb (to_size_t room =? 0) && (n >? to_size_t room)
                then to_size_t room else n).
  set (send := if send1 >? 256 then 256 else send1).
  exists room, send. eexists. eexists. split; [reflexivity|].
  assert (B1 : send1 <= n /\ (to_size_t room <> 0 -> send1 <= to_size_t room)).
  { unfold send1. destruct (to_size_t room =? 0) eqn:E0; simpl.
    - apply Z.eqb_eq in E0. split; [lia | congruence].
    - destruct (n >? to_size_t room) eqn:E1;
        rewrite Z.gtb_ltb in E1;
        [apply Z.ltb_lt in E1 | apply Z.ltb_ge in E1]; split; lia. }
  assert (B2 : send <= send1 /\ send <= 256).
  { unfold send. destruct (send1 >? 256) eqn:E;
      rewrite Z.gtb_ltb in E;
      [apply Z.ltb_lt in E | apply Z.ltb_ge in E]; lia. }
  split.
  - apply emitted_app. rewrite trace_log, trace_push_tx, trace_log.
    now rewrite <- app_assoc.
  - split; [lia|]. split; [lia|]. intros H. destruct B1 as [_ B1].
    specialize (B1 H). lia.
Qed.

Lemma write_chunk_caps_witness :
  0 <= 300
  /\ exists room send r w',
       write_chunk env_greedy Serial RecvBuf 0 300 (power_on [] burst)
       = Done r w'
       /\ emitted (power_on [] burst) w'
          = [Hal Serial (AvailableForWrite room); Hal Serial (Write send r)]
       /\ send <= 300 /\ send <= 256
       /\ (to_size_t room <> 0 -> send <= to_size_t room).
Proof.
  split; [lia|].
  apply (write_chunk_caps env_greedy Serial RecvBuf 0 300 (power_on [] burst)).
  lia.
Defined.

(** C1, evaluated on the code: with 300 bytes waiting on the link and a
    USB port that reports room for 128, the single [write] of the step
    asks the port to take all 300 bytes, more than the port's room and
    more than 256; the room is never queried. *)
Theorem write_request_exceeds_cap :
  let w := power_on [] burst in
  let evs := emitted w (world_of (run_receive_bridge env_greedy 1 4 w)) in
  write_requests Serial evs = [300]
  /\ env_room env_greedy Serial 7 = 128
  /\ Z.min 300 (Z.min 128 256) = 128
  /\ filter is_room_query evs = []
  /\ skipn 5 evs
     = [Hal Serial1 (Available 300); Hal Serial1 (ReadBytes 300 300);
        Hal Serial (Write 300 300); Hal Serial (Flush (Some false));
        Delay 0].
Proof. vm_compute. repeat split. Qed.

(** ** What each call does to the ports and the buffers *)

Lemma fetched_eq env e b req w :
  fetched env e b req w
  = log (Hal e (ReadBytes req (Z.of_nat (length (fetch env e req w)))))
        (set_buf b (overwrite (fetch env e req w) (buf_of b w))
           (set_port e
              (consumed (Z.to_nat (Z.min (env_read env e (clock w)) req))
                        (port_of e w)) w)).
Proof. reflexivity. Qed.

Lemma port_of_log e ev w : port_of e (log ev w) = port_of e w.
Proof. destruct e; reflexivity. Qed.

Lemma port_of_log_all e evs w : port_of e (log_all evs w) = port_of e w.
Proof. destruct e; reflexivity. Qed.

Lemma port_of_set_buf e b l w : port_of e (set_buf b l w) = port_of e w.
Proof. destruct e, b; reflexivity. Qed.

Lemma buf_of_set_port b e p w : buf_of b (set_port e p w) = buf_of b w.
Proof. destruct e, b; reflexivity. Qed.

Lemma buf_of_log_all b evs w : buf_of b (log_all evs w) = buf_of b w.
Proof. destruct b; reflexivity. Qed.

Lemma port_of_push_tx_same e bytes w :
  port_of e (push_tx e bytes w) = sent bytes (port_of e w).
Proof. unfold push_tx. apply port_of_set_port_same. Qed.

Lemma port_of_push_tx_other e d bytes w :
  e <> d -> port_of e (push_tx d bytes w) = port_of e w.
Proof. intros H. unfold push_tx. now apply port_of_set_port_other. Qed.

Lemma port_of_polled_same e env w :
  port_of e (polled env e w)
  = deliver (env_arrive env e (clock w)) (port_of e w).
Proof. rewrite polled_eq, port_of_log. apply port_of_set_port_same. Qed.

Lemma port_of_polled_other e e' env w :
  e <> e' -> port_of e (polled env e' w) = port_of e w.
Proof.
  intros H. rewrite polled_eq, port_of_log. now apply port_of_set_port_other.
Qed.

Lemma port_of_fetched_same e env b req w :
  port_of e (fetched env e b req w)
  = consumed (Z.to_nat (Z.min (env_read env e (clock w)) req)) (port_of e w).
Proof.
  rewrite fetched_eq, port_of_log, port_of_set_buf.
  apply port_of_set_port_same.
Qed.

Lemma port_of_fetched_other e e' env b req w :
  e <> e' -> port_of e (fetched env e' b req w) = port_of e w.
Proof.
  intros H. rewrite fetched_eq, port_of_log, port_of_set_buf.
  now apply port_of_set_port_other.
Qed.

Lemma buf_of_polled b env e w : buf_of b (polled env e w) = buf_of b w.
Proof. rewrite polled_eq, buf_of_log. apply buf_of_set_port. Qed.

Lemma buf_of_fetched_same b env e req w :
  buf_of b (fetched env e b req w)
  = overwrite (fetch env e req w) (buf_of b w).
Proof. rewrite fetched_eq, buf_of_log. apply buf_of_set_buf_same. Qed.

Lemma buf_of_fetched_other b b' env e req w :
  b <> b' -> buf_of b (fetched env e b' req w) = buf_of b w.
Proof.
  intros H. rewrite fetched_eq, buf_of_log.
  rewrite buf_of_set_buf_other by assumption. apply buf_of_set_port.
Qed.

(** *** Streams *)

Lemma pending_polled env e e' w : pending e (polled env e' w) = pending e w.
Proof.
  unfold pending. destruct (endpoint_eqb e e') eqn:E.
  - assert (e = e') by (destruct e, e'; congruence || discriminate). subst e'.
    rewrite port_of_polled_same. unfold deliver. simpl.
    now rewrite <- app_assoc, firstn_skipn.
  - rewrite port_of_polled_other; [reflexivity|].
    intros ->. now rewrite endpoint_eqb_refl in E.
Qed.

Lemma delivered_polled env e e' w :
  delivered e (polled env e' w) = delivered e w.
Proof.
  unfold delivered. destruct (endpoint_eqb e e') eqn:E.
  - assert (e = e') by (destruct e, e'; congruence || discriminate). subst e'.
    now rewrite port_of_polled_same.
  - rewrite port_of_polled_other; [reflexivity|].
    intros ->. now rewrite endpoint_eqb_refl in E.
Qed.

Lemma pending_fetched_same env e b req w :
  fetch env e req w ++ pending e (fetched env e b req w) = pending e w.
Proof.
  unfold pending, fetch. rewrite port_of_fetched_same. unfold consumed. simpl.
  now rewrite app_assoc, firstn_skipn.
Qed.

Lemma pending_fetched_other env e e' b req w :
  e <> e' -> pending e (fetched env e' b req w) = pending e w.
Proof. intros H. unfold pending. now rewrite port_of_fetched_other. Qed.

Lemma delivered_fetched env e e' b req w :
  delivered e (fetched env e' b req w) = delivered e w.
Proof.
  unfold delivered. destruct (endpoint_eqb e e') eqn:E.
  - assert (e = e') by (destruct e, e'; congruence || discriminate). subst e'.
    now rewrite port_of_fetched_same.
  - rewrite port_of_fetched_other; [reflexivity|].
    intros ->. now rewrite endpoint_eqb_refl in E.
Qed.

Lemma pending_push_tx e d bytes w : pending e (push_tx d bytes w) = pending e w.
Proof.
  unfold pending. destruct (endpoint_eqb e d) eqn:E.
  - assert (e = d) by (destruct e, d; congruence || discriminate). subst d.
    now rewrite port_of_push_tx_same.
  - rewrite port_of_push_tx_other; [reflexivity|].
    intros ->. now rewrite endpoint_eqb_refl in E.
Qed.

Lemma delivered_push_tx_same e bytes w :
  delivered e (push_tx e bytes w) = delivered e w ++ bytes.
Proof. unfold delivered. now rewrite port_of_push_tx_same. Qed.

Lemma delivered_push_tx_other e d bytes w :
  e <> d -> delivered e (push_tx d bytes w) = delivered e w.
Proof. intros H. unfold delivered. now rewrite port_of_push_tx_other. Qed.

Lemma pending_log e ev w : pending e (log ev w) = pending e w.
Proof. unfold pending. now rewrite port_of_log. Qed.

Lemma delivered_log e ev w : delivered e (log ev w) = delivered e w.
Proof. unfold delivered. now rewrite port_of_log. Qed.

Lemma pending_log_all e evs w : pending e (log_all evs w) = pending e w.
Proof. unfold pending. now rewrite port_of_log_all. Qed.

Lemma delivered_log_all e evs w : delivered e (log_all evs w) = delivered e w.
Proof. unfold delivered. now rewrite port_of_log_all. Qed.

(** The world a pump step leaves, in closed form. *)
Lemma pump_once_world env fuel src dst b w :
  world_of (pump_once env fuel src dst b w)
  = if to_size_t (reported env src w) =? 0 then polled env src w
    else
      let req := chunk_size (reported env src w) in
      let w1 := polled env src w in
      let n := Z.of_nat (length (fetch env src req w1)) in
      let w2 := fetched env src b req w1 in
      let t := S (S (clock w)) in
      log_all
        (map (Hal dst) (drain_calls env fuel dst t n 0)
           ++ (if drain_done env fuel dst t n 0
               then [Hal dst (Flush (Some false))] else []))
        (push_tx dst (drain_bytes env fuel dst (buf_of b w2) t n 0) w2).
Proof.
  rewrite pump_once_eq.
  destruct (to_size_t (reported env src w) =? 0); [reflexivity|].
  cbv zeta. rewrite drain_closed_form, clock_fetched_polled.
  destruct (drain_done _ _ _ _ _ _); simpl.
  - unfold log, log_all. simpl. now rewrite <- app_assoc.
  - now rewrite app_nil_r.
Qed.

(** ** Order, loss and duplication *)

Lemma slice_overwrite got old tot :
  0 <= tot <= Z.of_nat (length got) ->
  slice (overwrite got old) 0 tot = firstn (Z.to_nat tot) got.
Proof.
  intros H. unfold slice, overwrite. simpl.
  rewrite firstn_app.
  replace (Z.to_nat tot - length got)%nat with O by lia.
  simpl. apply app_nil_r.
Qed.

Lemma conserved_in_order src dst w0 w :
  conserved src dst w0 w -> in_order src dst w0 w.
Proof. intros H. exists []. exact H. Qed.

(** One pump step, on its own direction. *)
Lemma pump_once_in_order env fuel src dst b w :
  honest_writes env dst ->
  exists stuck,
    delivered dst (world_of (pump_once env fuel src dst b w))
      ++ stuck ++ pending src (world_of (pump_once env fuel src dst b w))
    = delivered dst w ++ pending src w
    /\ (returned (pump_once env fuel src dst b w) = true -> stuck = []).
Proof.
  intros Hh. rewrite pump_once_world, pump_once_returned. unfold pump_done.
  destruct (to_size_t (reported env src w) =? 0).
  - exists []. now rewrite delivered_polled, pending_polled.
  - cbv zeta.
    set (req := chunk_size (reported env src w)).
    set (w1 := polled env src w).
    set (got := fetch env src req w1).
    set (w2 := fetched env src b req w1).
    set (t := S (S (clock w))).
    set (n := Z.of_nat (length got)).
    pose proof (chunk_size_bound (reported env src w)) as Hreq. fold req in Hreq.
    pose proof (fetch_length_bound env src req w1 ltac:(lia)) as Hlen.
    fold got in Hlen. fold n in Hlen.
    pose proof buf_sz_small as Hsm.
    destruct (drain_sum env dst (buf_of b w2) n) with
      (fuel := fuel) (t := t) (off := 0) as (H1 & H2 & H3); try lia.
    { intros t0 size Hs. apply Hh. lia. }
    rewrite Z.sub_0_r in H1, H2.
    set (tot := returned_total (drain_calls env fuel dst t n 0)) in *.
    rewrite H3. unfold w2 at 1. rewrite buf_of_fetched_same. fold got.
    rewrite slice_overwrite by (fold n; lia).
    exists (skipn (Z.to_nat tot) got).
    rewrite delivered_log_all, pending_log_all.
    rewrite delivered_push_tx_same, pending_push_tx.
    unfold w2. rewrite delivered_fetched. unfold w1 at 1.
    rewrite delivered_polled.
    split.
    + rewrite <- app_assoc. f_equal.
      rewrite (app_assoc (firstn _ got)), firstn_skipn.
      unfold got. rewrite pending_fetched_same. unfold w1.
      apply pending_polled.
    + intros Hd. apply H2 in Hd. rewrite Hd. unfold n.
      rewrite Nat2Z.id. apply skipn_all.
Qed.

(** One pump step leaves the other ports' streams alone. *)
Lemma pump_once_frame env fuel src dst b w e :
  (e <> dst ->
   delivered e (world_of (pump_once env fuel src dst b w)) = delivered e w)
  /\ (e <> src ->
      pending e (world_of (pump_once env fuel src dst b w)) = pending e w).
Proof.
  rewrite pump_once_world.
  destruct (to_size_t (reported env src w) =? 0).
  - split; intros H; [apply delivered_polled | apply pending_polled].
  - cbv zeta. split; intros H.
    + rewrite delivered_log_all, delivered_push_tx_other by assumption.
      now rewrite delivered_fetched, delivered_polled.
    + rewrite pending_log_all, pending_push_tx.
      rewrite pending_fetched_other by assumption. apply pending_polled.
Qed.

Lemma keeps_bind {A B} src dst (m : M A) (k : A -> M B) :
  keeps src dst m -> (forall a, keeps src dst (k a)) ->
  keeps src dst (bind m k).
Proof.
  intros Hm Hk w0 w H. unfold bind. specialize (Hm w0 w H).
  destruct (m w) as [a w1|w1]; [now apply Hk | exact Hm].
Qed.

Lemma keeps_forever {A} src dst body :
  keeps src dst body ->
  forall ticks w0 w,
    conserved src dst w0 w ->
    in_order src dst w0 (world_of (forever (A:=A) ticks body w)).
Proof.
  intros Hb. induction ticks as [|k IH]; intros w0 w H.
  - now apply conserved_in_order.
  - rewrite forever_succ. specialize (Hb w0 w H).
    destruct (body w) as [u w1|w1]; [now apply IH | exact Hb].
Qed.

Lemma keeps_pump_forth env fuel src dst b :
  honest_writes env dst -> keeps src dst (pump_once env fuel src dst b).
Proof.
  intros Hh w0 w H.
  destruct (pump_once_in_order env fuel src dst b w Hh) as (stuck & E & D).
  unfold conserved in *.
  destruct (pump_once env fuel src dst b w) as [u w1|w1]; simpl in *.
  - rewrite (D eq_refl) in E. simpl in E. congruence.
  - exists stuck. congruence.
Qed.

Lemma keeps_pump_back env fuel src dst b :
  src <> dst -> keeps src dst (pump_once env fuel dst src b).
Proof.
  intros Hne w0 w H.
  destruct (pump_once_frame env fuel dst src b w dst) as [F1 _].
  destruct (pump_once_frame env fuel dst src b w src) as [_ F2].
  specialize (F1 ltac:(congruence)). specialize (F2 Hne).
  unfold conserved in *.
  destruct (pump_once env fuel dst src b w) as [u w1|w1]; simpl in *.
  - congruence.
  - exists []. simpl. congruence.
Qed.

Lemma keeps_delay src dst ms : keeps src dst (delay ms).
Proof.
  intros w0 w H. unfold delay, conserved in *.
  now rewrite delivered_log, pending_log.
Qed.

Lemma streams_wire_init e w :
  delivered e (world_of (wire_init w)) = delivered e w
  /\ pending e (world_of (wire_init w)) = pending e w.
Proof.
  rewrite wire_init_eq. destruct (wire_inited w); simpl; [auto|].
  destruct e; auto.
Qed.

Lemma keeps_wire_init src dst : keeps src dst wire_init.
Proof.
  intros w0 w H. destruct (streams_wire_init dst w) as [D _].
  destruct (streams_wire_init src w) as [_ P].
  rewrite wire_init_eq in *. simpl in *. unfold conserved in *. congruence.
Qed.

Lemma keeps_passes env fuel :
  (honest_writes env Serial ->
   keeps Serial1 Serial (receive_pass env fuel)
   /\ keeps Serial1 Serial (bidi_pass env fuel))
  /\ (honest_writes env Serial1 ->
      keeps Serial Serial1 (send_pass env fuel)
      /\ keeps Serial Serial1 (bidi_pass env fuel)).
Proof.
  split; intros Hh; split.
  - apply keeps_bind; [now apply keeps_pump_forth | intros; apply keeps_delay].
  - apply keeps_bind; [now apply keeps_pump_forth|]. intros _.
    apply keeps_bind; [apply keeps_pump_back; discriminate|].
    intros; apply keeps_delay.
  - apply keeps_bind; [now apply keeps_pump_forth | intros; apply keeps_delay].
  - apply keeps_bind; [apply keeps_pump_back; discriminate|]. intros _.
    apply keeps_bind; [now apply keeps_pump_forth|].
    intros; apply keeps_delay.
Qed.

Lemma keeps_run {A} src dst ticks body w :
  keeps src dst body ->
  in_order src dst w (world_of ((wire_init ;; forever (A:=A) ticks body)%prog w)).
Proof.
  intros Hb. unfold bind. rewrite wire_init_eq. cbv beta iota.
  apply keeps_forever; [exact Hb|].
  destruct (streams_wire_init dst w) as [D _].
  destruct (streams_wire_init src w) as [_ P].
  rewrite wire_init_eq in D, P. simpl in D, P. unfold conserved. congruence.
Qed.

(** ** Everything that arrives is forwarded *)

Lemma writes_progress_honest env e :
  writes_progress env e -> honest_writes env e.
Proof. intros H t size Hs. specialize (H t size Hs). lia. Qed.

Lemma pump_once_completes env fuel src dst b w :
  writes_progress env dst -> (Z.to_nat BRIDGE_BUF_SZ <= fuel)%nat ->
  returned (pump_once env fuel src dst b w) = true.
Proof.
  intros Hp Hf. rewrite pump_once_returned. unfold pump_done.
  destruct (to_size_t (reported env src w) =? 0); [reflexivity|]. cbv zeta.
  pose proof (chunk_size_bound (reported env src w)) as Hreq.
  pose proof (fetch_length_bound env src (chunk_size (reported env src w))
                (polled env src w) ltac:(lia)) as Hlen.
  pose proof buf_sz_small as Hsm.
  apply drain_progress; auto; unfold BRIDGE_BUF_SZ in *; lia.
Qed.

Lemma reported_eq env e w :
  reported env e w
  = Z.of_nat (length (rx_fifo (port_of e w))
              + Nat.min (env_arrive env e (clock w))
                        (length (line_in (port_of e w)))).
Proof.
  unfold reported, deliver. simpl. now rewrite length_app, length_firstn.
Qed.

Lemma pending_length e w :
  length (pending e w)
  = (length (rx_fifo (port_of e w)) + length (line_in (port_of e w)))%nat.
Proof. unfold pending. apply length_app. Qed.

Lemma pump_once_pending env fuel src dst b w :
  arrivals_progress env src -> reads_progress env src ->
  Z.of_nat (length (pending src w)) < SIZE_MOD ->
  (length (pending src (world_of (pump_once env fuel src dst b w)))
   <= Nat.pred (length (pending src w)))%nat.
Proof.
  intros Ha Hr Hb. rewrite pump_once_world.
  pose proof (reported_eq env src w) as Rep.
  pose proof (pending_length src w) as Len.
  specialize (Ha (clock w)).
  destruct (to_size_t (reported env src w) =? 0) eqn:E.
  - apply Z.eqb_eq in E. rewrite pending_polled.
    rewrite to_size_t_small in E by lia. lia.
  - apply Z.eqb_neq in E. cbv zeta.
    rewrite pending_log_all, pending_push_tx.
    set (req := chunk_size (reported env src w)).
    set (w1 := polled env src w).
    pose proof (pending_fetched_same env src b req w1) as P.
    unfold w1 in P at 3. rewrite pending_polled in P.
    apply (f_equal (@length byte)) in P. rewrite length_app in P.
    assert (G : (1 <= length (fetch env src req w1))%nat).
    { unfold fetch. rewrite length_firstn.
      assert (R1 : 1 <= req).
      { unfold req, chunk_size.
        pose proof (Z.mod_pos_bound (reported env src w) SIZE_MOD
                      size_mod_pos) as M.
        fold (to_size_t (reported env src w)) in M.
        destruct (to_size_t (reported env src w) >? BRIDGE_BUF_SZ);
          unfold BRIDGE_BUF_SZ; lia. }
      assert (R2 : (1 <= length (rx_fifo (port_of src w1)))%nat).
      { unfold w1. rewrite port_of_polled_same.
        assert (reported env src w <> 0).
        { intros Z0. apply E. now rewrite Z0. }
        unfold reported in *. lia. }
      specialize (Hr (clock w1)). lia. }
    lia.
Qed.

Lemma pump_once_advances env fuel src dst b :
  fair env src dst -> (Z.to_nat BRIDGE_BUF_SZ <= fuel)%nat ->
  advances src dst (pump_once env fuel src dst b).
Proof.
  intros (Ha & Hr & Hw) Hf w Hb.
  pose proof (pump_once_completes env fuel src dst b w Hw Hf) as D.
  pose proof (pump_once_pending env fuel src dst b w Ha Hr Hb) as P.
  destruct (pump_once_in_order env fuel src dst b w
              (writes_progress_honest _ _ Hw)) as (stuck & E & S0).
  rewrite (S0 D) in E. simpl in E.
  destruct (pump_once env fuel src dst b w) as [[] w'|w']; [|discriminate].
  exists w'. auto.
Qed.

Lemma advances_then_delay src dst (m : M unit) :
  advances src dst m -> advances src dst (m ;; delay 0).
Proof.
  intros Hm w Hb. destruct (Hm w Hb) as (w1 & E & C & L).
  exists (log (Delay 0) w1). unfold bind. rewrite E.
  unfold conserved in *. rewrite delivered_log, pending_log. auto.
Qed.

(** A step of the other direction that completes does not disturb. *)
Lemma advances_after_back env fuel src dst b (m : M unit) :
  src <> dst -> writes_progress env src ->
  (Z.to_nat BRIDGE_BUF_SZ <= fuel)%nat ->
  advances src dst m ->
  advances src dst (pump_once env fuel dst src b ;; m).
Proof.
  intros Hne Hw Hf Hm w Hb.
  pose proof (pump_once_completes env fuel dst src b w Hw Hf) as D.
  destruct (pump_once_frame env fuel dst src b w dst) as [F1 _].
  destruct (pump_once_frame env fuel dst src b w src) as [_ F2].
  specialize (F1 ltac:(congruence)). specialize (F2 Hne).
  unfold bind.
  destruct (pump_once env fuel dst src b w) as [[] w1|w1]; [|discriminate].
  simpl in F1, F2.
  destruct (Hm w1) as (w2 & E & C & L); [now rewrite F2|].
  exists w2. unfold conserved in *. rewrite F1, F2 in *. auto.
Qed.

Lemma advances_before_back env fuel src dst b (m : M unit) :
  src <> dst -> writes_progress env src ->
  (Z.to_nat BRIDGE_BUF_SZ <= fuel)%nat ->
  advances src dst m ->
  advances src dst (m ;; pump_once env fuel dst src b ;; delay 0).
Proof.
  intros Hne Hw Hf Hm w Hb.
  destruct (Hm w Hb) as (w1 & E & C & L).
  pose proof (pump_once_completes env fuel dst src b w1 Hw Hf) as D.
  destruct (pump_once_frame env fuel dst src b w1 dst) as [F1 _].
  destruct (pump_once_frame env fuel dst src b w1 src) as [_ F2].
  specialize (F1 ltac:(congruence)). specialize (F2 Hne).
  unfold bind. rewrite E.
  destruct (pump_once env fuel dst src b w1) as [[] w2|w2]; [|discriminate].
  simpl in F1, F2. exists (log (Delay 0) w2).
  unfold conserved in *. rewrite delivered_log, pending_log, F1, F2. auto.
Qed.

Lemma forever_delivers src dst body :
  advances src dst body ->
  forall ticks w,
    Z.of_nat (length (pending src w)) < SIZE_MOD ->
    (length (pending src w) <= ticks)%nat ->
    let wf := world_of (forever (A:=unit) ticks body w) in
    delivered dst wf = delivered dst w ++ pending src w
    /\ pending src wf = [].
Proof.
  intros Hb. induction ticks as [|k IH]; intros w Hs Hl; simpl.
  - assert (E : pending src w = []) by (apply length_zero_iff_nil; lia).
    rewrite E. now rewrite app_nil_r.
  - destruct (Hb w Hs) as (w1 & E & C & L). rewrite E.
    destruct (IH w1) as [I1 I2]; try lia.
    cbv zeta in I1, I2. rewrite I1, I2. unfold conserved in C. auto.
Qed.

Lemma run_delivers src dst ticks body w :
  advances src dst body ->
  Z.of_nat (length (pending src w)) < SIZE_MOD ->
  (length (pending src w) <= ticks)%nat ->
  let wf := world_of ((wire_init ;; forever (A:=unit) ticks body)%prog w) in
  delivered dst wf = delivered dst w ++ pending src w
  /\ pending src wf = [].
Proof.
  intros Hb Hs Hl. unfold bind. rewrite wire_init_eq. cbv beta iota zeta.
  destruct (streams_wire_init dst w) as [D _].
  destruct (streams_wire_init src w) as [_ P].
  rewrite wire_init_eq in D, P. simpl in D, P.
  rewrite <- D, <- P. apply forever_delivers; [exact Hb | |];
    rewrite P; assumption.
Qed.

(** C3: in each direction the bytes reach the sink in arrival order,
    none lost and none repeated, however the environment chunks the
    arrivals, the reads and the writes, as long as a write returns how
    many bytes it took.  At every moment of every run the bytes accepted
    by the sink, followed by those held in the staging buffer, followed
    by those not yet read from the source, are the stream the run
    started with; and when arrivals, reads and writes each make progress,
    as many passes as there are bytes deliver the whole stream. *)
Theorem bytes_forwarded_in_order env ticks fuel w :
  (honest_writes env Serial ->
     in_order Serial1 Serial w (world_of (run_receive_bridge env ticks fuel w))
     /\ in_order Serial1 Serial w (world_of (run_bidi_bridge env ticks fuel w)))
  /\ (honest_writes env Serial1 ->
      in_order Serial Serial1 w (world_of (run_send_bridge env ticks fuel w))
      /\ in_order Serial Serial1 w
           (world_of (run_bidi_bridge env ticks fuel w)))
  /\ ((Z.to_nat BRIDGE_BUF_SZ <= fuel)%nat ->
      (fair env Serial1 Serial ->
       Z.of_nat (length (pending Serial1 w)) < SIZE_MOD ->
       (length (pending Serial1 w) <= ticks)%nat ->
       let wf := world_of (run_receive_bridge env ticks fuel w) in
       delivered Serial wf = delivered Serial w ++ pending Serial1 w
       /\ pending Serial1 wf = [])
      /\ (fair env Serial Serial1 ->
          Z.of_nat (length (pending Serial w)) < SIZE_MOD ->
          (length (pending Serial w) <= ticks)%nat ->
          let wf := world_of (run_send_bridge env ticks fuel w) in
          delivered Serial1 wf = delivered Serial1 w ++ pending Serial w
          /\ pending Serial wf = [])
      /\ (fair env Serial1 Serial -> fair env Serial Serial1 ->
          Z.of_nat (length (pending Serial1 w)) < SIZE_MOD ->
          Z.of_nat (length (pending Serial w)) < SIZE_MOD ->
          (length (pending Serial1 w) <= ticks)%nat ->
          (length (pending Serial w) <= ticks)%nat ->
          let wf := world_of (run_bidi_bridge env ticks fuel w) in
          delivered Serial wf = delivered Serial w ++ pending Serial1 w
          /\ pending Serial1 wf = []
          /\ delivered Serial1 wf = delivered Serial1 w ++ pending Serial w
          /\ pending Serial wf = [])).
Proof.
  destruct (keeps_passes env fuel) as [K1 K2].
  split; [|split; [|intros Hf; split; [|split]]].
  - intros Hh. destruct (K1 Hh) as [Ka Kb].
    split; apply keeps_run; assumption.
  - intros Hh. destruct (K2 Hh) as [Ka Kb].
    split; apply keeps_run; assumption.
  - intros Fa Hs Hl. apply run_delivers; try assumption.
    apply advances_then_delay. now apply pump_once_advances.
  - intros Fa Hs Hl. apply run_delivers; try assumption.
    apply advances_then_delay. now apply pump_once_advances.
  - intros Fa Fb Hs1 Hs2 Hl1 Hl2.
    assert (A1 : advances Serial1 Serial (bidi_pass env fuel)).
    { unfold bidi_pass.
      apply (advances_before_back env fuel Serial1 Serial UsbToWire);
        try assumption; [discriminate | apply Fb |].
      now apply pump_once_advances. }
    assert (A2 : advances Serial Serial1 (bidi_pass env fuel)).
    { unfold bidi_pass.
      apply (advances_after_back env fuel Serial Serial1 WireToUsb);
        try assumption; [discriminate | apply Fa |].
      apply advances_then_delay. now apply pump_once_advances. }
    destruct (run_delivers Serial1 Serial ticks (bidi_pass env fuel) w A1 Hs1 Hl1)
      as [D1 P1].
    destruct (run_delivers Serial Serial1 ticks (bidi_pass env fuel) w A2 Hs2 Hl2)
      as [D2 P2].
    cbv zeta. unfold run_bidi_bridge. auto.
Qed.

Lemma bytes_forwarded_in_order_witness :
  (Z.to_nat BRIDGE_BUF_SZ <= Z.to_nat BRIDGE_BUF_SZ)%nat
  /\ fair env_two Serial Serial1
  /\ Z.of_nat (length (pending Serial (power_on ping []))) < SIZE_MOD
  /\ (length (pending Serial (power_on ping [])) <= 4)%nat
  /\ delivered Serial1
       (world_of (run_send_bridge env_two 4 (Z.to_nat BRIDGE_BUF_SZ)
                    (power_on ping [])))
     = delivered Serial1 (power_on ping []) ++ pending Serial (power_on ping []).
Proof.
  assert (F : fair env_two Serial Serial1).
  { split; [|split].
    - intros t. simpl. lia.
    - intros t. simpl. unfold BRIDGE_BUF_SZ. lia.
    - intros t size H. simpl. lia. }
  assert (B : Z.of_nat (length (pending Serial (power_on ping []))) < SIZE_MOD).
  { vm_compute. reflexivity. }
  assert (L : (length (pending Serial (power_on ping [])) <= 4)%nat).
  { vm_compute. lia. }
  split; [lia|]. split; [exact F|]. split; [exact B|]. split; [exact L|].
  destruct (bytes_forwarded_in_order env_two 4 (Z.to_nat BRIDGE_BUF_SZ)
              (power_on ping [])) as (_ & _ & H).
  destruct (H (Nat.le_refl _)) as (_ & H2 & _).
  apply (H2 F B L).
Defined.

(** ** The two directions of the two-way loop *)

Lemma idle_while_silent_refl src dst w : idle_while_silent src dst w w.
Proof.
  split; [apply extends_refl|]. intros H. split; [exact H|].
  rewrite emitted_refl. apply no_traffic_nil.
Qed.

Lemma idle_while_silent_trans src dst a b c :
  idle_while_silent src dst a b -> idle_while_silent src dst b c ->
  idle_while_silent src dst a c.
Proof.
  intros [X1 H1] [X2 H2]. split; [eapply extends_trans; eauto|].
  intros H. destruct (H1 H) as [P1 N1]. destruct (H2 P1) as [P2 N2].
  split; [exact P2|].
  rewrite (emitted_trans _ _ _ X1 X2). now apply no_traffic_app.
Qed.

Lemma reported_silent env e w : pending e w = [] -> reported env e w = 0.
Proof.
  intros H. pose proof (reported_eq env e w) as R.
  pose proof (pending_length e w) as L. rewrite H in L. simpl in L. lia.
Qed.

Lemma silent_pump_forth env fuel src dst b w :
  idle_while_silent src dst w (world_of (pump_once env fuel src dst b w)).
Proof.
  split; [apply extends_pump|]. intros H.
  rewrite (pump_once_idle env fuel src dst b w (reported_silent env src w H)).
  simpl. rewrite pending_log. split; [exact H|].
  rewrite (emitted_app w _ [Hal src (Available 0)]) by reflexivity.
  repeat split.
Qed.

Lemma silent_pump_back env fuel src dst b w :
  src <> dst ->
  idle_while_silent src dst w (world_of (pump_once env fuel dst src b w)).
Proof.
  intros Hne. split; [apply extends_pump|]. intros H.
  destruct (pump_once_frame env fuel dst src b w src) as [_ F].
  rewrite (F Hne). split; [exact H|].
  rewrite pump_once_emitted. now apply pump_back_no_traffic.
Qed.

Lemma silent_delay src dst ms w :
  idle_while_silent src dst w (world_of (delay ms w)).
Proof.
  split; [apply extends_log|]. intros H. simpl. rewrite pending_log.
  split; [exact H|].
  rewrite (emitted_app w _ [Delay ms]) by reflexivity. repeat split.
Qed.

Lemma silent_wire_init src dst w :
  idle_while_silent src dst w (world_of (wire_init w)).
Proof.
  split; [apply extends_wire_init|]. intros H.
  destruct (streams_wire_init src w) as [_ P]. rewrite P.
  split; [exact H|].
  destruct (idle_wire_init src dst w) as [X N].
  rewrite wire_init_eq in *. destruct (wire_inited w); simpl in *.
  - rewrite emitted_refl. apply no_traffic_nil.
  - rewrite (emitted_app _ (initialized w) init_calls) by reflexivity.
    destruct dst; repeat split.
Qed.

Lemma bidi_silent env ticks fuel src dst w :
  src <> dst ->
  idle_while_silent src dst w (world_of (run_bidi_bridge env ticks fuel w)).
Proof.
  intros Hne. unfold run_bidi_bridge.
  apply (bind_lift (idle_while_silent src dst));
    [apply idle_while_silent_trans | apply silent_wire_init |].
  intros _ w1.
  apply (forever_lift (idle_while_silent src dst));
    [apply idle_while_silent_refl | apply idle_while_silent_trans |].
  intros w2. unfold bidi_pass.
  assert (P : forall s d b w0, s <> d ->
                idle_while_silent src dst w0
                  (world_of (pump_once env fuel s d b w0))).
  { intros s d b w0 Hsd. destruct src, dst, s, d; try congruence;
      try apply silent_pump_forth; apply silent_pump_back; congruence. }
  apply (bind_lift (idle_while_silent src dst));
    [apply idle_while_silent_trans | apply P; discriminate |].
  intros _ w3.
  apply (bind_lift (idle_while_silent src dst));
    [apply idle_while_silent_trans | apply P; discriminate |].
  intros _ w4. apply silent_delay.
Qed.

(** *** Staging buffers *)

Lemma clock_set_buf b l w : clock (set_buf b l w) = clock w.
Proof. destruct b; reflexivity. Qed.

Lemma reported_set_buf env e b l w :
  reported env e (set_buf b l w) = reported env e w.
Proof. unfold reported. now rewrite clock_set_buf, port_of_set_buf. Qed.

Lemma polled_set_buf env e b l w :
  polled env e (set_buf b l w) = set_buf b l (polled env e w).
Proof. destruct b, e; reflexivity. Qed.

Lemma fetch_set_buf env e req b l w :
  fetch env e req (set_buf b l w) = fetch env e req w.
Proof. unfold fetch. now rewrite clock_set_buf, port_of_set_buf. Qed.

Lemma fetched_set_buf env e b b' req l w :
  b' <> b ->
  fetched env e b req (set_buf b' l w) = set_buf b' l (fetched env e b req w).
Proof. intros H. destruct b, b', e; try congruence; reflexivity. Qed.

Lemma push_tx_set_buf e bytes b l w :
  push_tx e bytes (set_buf b l w) = set_buf b l (push_tx e bytes w).
Proof. destruct b, e; reflexivity. Qed.

Lemma log_all_set_buf evs b l w :
  log_all evs (set_buf b l w) = set_buf b l (log_all evs w).
Proof. destruct b; reflexivity. Qed.

(** A pump step neither writes nor reads a staging buffer other than
    its own: the other buffer's contents stay, and changing them changes
    nothing else. *)
Lemma pump_once_own_buffer env fuel src dst b b' w :
  b' <> b ->
  buf_of b' (world_of (pump_once env fuel src dst b w)) = buf_of b' w
  /\ forall l,
       world_of (pump_once env fuel src dst b (set_buf b' l w))
       = set_buf b' l (world_of (pump_once env fuel src dst b w))
       /\ returned (pump_once env fuel src dst b (set_buf b' l w))
          = returned (pump_once env fuel src dst b w).
Proof.
  intros Hne. split.
  - rewrite pump_once_world.
    destruct (to_size_t (reported env src w) =? 0).
    + apply buf_of_polled.
    + cbv zeta. rewrite buf_of_log_all, buf_of_push_tx.
      rewrite buf_of_fetched_other by assumption. apply buf_of_polled.
  - intros l. rewrite !pump_once_world, !pump_once_returned.
    unfold pump_done. rewrite reported_set_buf, clock_set_buf.
    destruct (to_size_t (reported env src w) =? 0).
    + split; [apply polled_set_buf | reflexivity].
    + cbv zeta. rewrite polled_set_buf, fetch_set_buf.
      rewrite fetched_set_buf by assumption.
      rewrite buf_of_set_buf_other by congruence.
      rewrite push_tx_set_buf, log_all_set_buf. auto.
Qed.

(** *** Each direction in its own buffer *)

Lemma returned_bytes_other_map e dst cs :
  e <> dst -> returned_bytes e (map (Hal dst) cs) = 0.
Proof.
  intros H. induction cs as [|c cs IH]; [reflexivity|].
  destruct c; try exact IH.
  cbn [map returned_bytes]. rewrite IH, endpoint_eqb_neq by assumption.
  reflexivity.
Qed.

Lemma returned_bytes_other env fuel src dst e w :
  e <> dst -> returned_bytes e (pump_events env fuel src dst w) = 0.
Proof.
  intros H. unfold pump_events.
  destruct (to_size_t (reported env src w) =? 0); [reflexivity|].
  cbv zeta. cbn [returned_bytes].
  rewrite returned_bytes_app, returned_bytes_other_map by assumption.
  destruct (drain_done _ _ _ _ _ _); reflexivity.
Qed.

Lemma slice_from_start buf tot : slice buf 0 tot = firstn (Z.to_nat tot) buf.
Proof. reflexivity. Qed.

Lemma queued_is_reported env e w :
  rx_fifo (port_of e w) <> [] ->
  Z.of_nat (length (pending e w)) < SIZE_MOD ->
  1 <= reported env e w < SIZE_MOD.
Proof.
  intros Hq Hb.
  pose proof (reported_eq env e w) as Rep.
  pose proof (pending_length e w) as Len.
  destruct (rx_fifo (port_of e w)) as [|x q] eqn:Q; [congruence|].
  cbn [length] in *. lia.
Qed.

(** A pump step stages in the buffer it is given. *)
Lemma pump_once_stages env fuel src dst b :
  stages_in env src dst b (pump_once env fuel src dst b).
Proof.
  intros w. cbv zeta.
  rewrite pump_once_emitted, pump_once_returned, pump_once_world.
  unfold pump_events, pump_done.
  destruct (to_size_t (reported env src w) =? 0) eqn:E.
  - exists []. apply Z.eqb_eq in E.
    split; [now rewrite pending_polled|].
    split; [reflexivity|].
    split; [now rewrite buf_of_polled|].
    split; [intros b' _; apply buf_of_polled|].
    split.
    + intros _. split; [|reflexivity].
      rewrite delivered_polled. cbn [returned_bytes]. now rewrite app_nil_r.
    + intros Hq Hb _. exfalso.
      pose proof (queued_is_reported env src w Hq Hb) as R.
      rewrite to_size_t_small in E by lia. lia.
  - apply Z.eqb_neq in E. cbv zeta.
    set (req := chunk_size (reported env src w)).
    set (w1 := polled env src w).
    set (got := fetch env src req w1).
    set (w2 := fetched env src b req w1).
    set (t := S (S (clock w))).
    set (n := Z.of_nat (length got)).
    pose proof (chunk_size_bound (reported env src w)) as Hreq. fold req in Hreq.
    pose proof (fetch_length_bound env src req w1 ltac:(lia)) as Hlen.
    fold got in Hlen. fold n in Hlen.
    pose proof buf_sz_small as Hsm.
    destruct (busy_counts env fuel src dst t (reported env src w) req n)
      as (C1 & C2 & _).
    cbv zeta in C1, C2. rewrite C1, C2.
    exists got.
    rewrite !pending_log_all, !pending_push_tx, !buf_of_log_all,
      !buf_of_push_tx, delivered_log_all, delivered_push_tx_same.
    split.
    { unfold w2, got. rewrite pending_fetched_same. unfold w1.
      symmetry. apply pending_polled. }
    split; [reflexivity|].
    split.
    { unfold w2. rewrite buf_of_fetched_same. fold got. unfold w1.
      now rewrite buf_of_polled. }
    split.
    { intros b' Hb'. rewrite buf_of_log_all, buf_of_push_tx. unfold w2.
      rewrite buf_of_fetched_other by assumption.
      apply buf_of_polled. }
    split.
    { intros Hh.
      destruct (drain_sum env dst (buf_of b w2) n) with
        (fuel := fuel) (t := t) (off := 0) as (H1 & H2 & H3); try lia.
      { intros t0 size Hs. apply Hh. lia. }
      rewrite Z.sub_0_r in H1, H2.
      rewrite H3, slice_from_start. unfold w2 at 1.
      rewrite delivered_fetched. unfold w1 at 1. rewrite delivered_polled.
      split; [reflexivity|]. intros Hd. now apply H2. }
    intros Hq Hb Hr.
    assert (G : (1 <= length got)%nat).
    { unfold got, fetch. rewrite length_firstn.
      pose proof (queued_is_reported env src w Hq Hb) as R.
      assert (R1 : 1 <= req).
      { unfold req, chunk_size. rewrite to_size_t_small by lia.
        destruct (reported env src w >? BRIDGE_BUF_SZ);
          unfold BRIDGE_BUF_SZ; lia. }
      assert (R2 : (1 <= length (rx_fifo (port_of src w1)))%nat).
      { unfold w1. rewrite port_of_polled_same. unfold reported in R. lia. }
      assert (R3 : clock w1 = S (clock w)).
      { unfold clock, w1. rewrite trace_polled, length_app.
        cbn [length]. lia. }
      rewrite R3. lia. }
    intros K. rewrite K in G. cbn [length] in G. lia.
Qed.

Lemma bidi_pass_world env fuel w :
  let wa := world_of (pump_once env fuel Serial1 Serial WireToUsb w) in
  let wb := world_of (pump_once env fuel Serial Serial1 UsbToWire wa) in
  (returned (pump_once env fuel Serial1 Serial WireToUsb w) = false
   /\ world_of (bidi_pass env fuel w) = wa)
  \/ (returned (pump_once env fuel Serial1 Serial WireToUsb w) = true
      /\ (world_of (bidi_pass env fuel w) = wb
          \/ world_of (bidi_pass env fuel w) = log (Delay 0) wb)).
Proof.
  cbv zeta. unfold bidi_pass, bind.
  destruct (pump_once env fuel Serial1 Serial WireToUsb w) as [[] wa|wa];
    cbn [world_of returned]; [right|left; split; reflexivity].
  split; [reflexivity|].
  destruct (pump_once env fuel Serial Serial1 UsbToWire wa) as [[] wb|wb];
    cbn [world_of]; [right|left]; reflexivity.
Qed.

(** One pass of the two-way loop keeps the directions in two buffers. *)
Lemma bidi_pass_buffers_apart env fuel :
  buffers_apart env fuel (bidi_pass env fuel).
Proof.
  intros w. cbv zeta.
  pose proof (pump_once_stages env fuel Serial1 Serial WireToUsb w) as SA.
  cbv zeta in SA. destruct SA as (far & A1 & A2 & A3 & A4 & A5 & A6).
  pose proof (pump_once_frame env fuel Serial1 Serial WireToUsb w Serial)
    as [_ FA1].
  pose proof (pump_once_frame env fuel Serial1 Serial WireToUsb w Serial1)
    as [FA2 _].
  pose proof (pump_once_trace env fuel Serial1 Serial WireToUsb w) as TA.
  rewrite pump_once_emitted in A5.
  set (wa := world_of (pump_once env fuel Serial1 Serial WireToUsb w)) in *.
  set (ea := pump_events env fuel Serial1 Serial w) in *.
  pose proof (returned_bytes_other env fuel Serial1 Serial Serial1 w
                ltac:(discriminate)) as ZA.
  fold ea in ZA.
  destruct (bidi_pass_world env fuel w) as [[Ra Ew]|[Ra Ew]];
    cbv zeta in Ew; fold wa in Ew.
  - (* caught in the first write loop *)
    rewrite Ew. exists far, [].
    rewrite (emitted_app w wa ea TA).
    split; [exact A1|]. split; [now rewrite FA1 by discriminate|].
    split; [exact A3|].
    split; [now rewrite A4 by discriminate|].
    split; [now apply A4|]. split; [now apply A4|].
    split.
    { intros H1 H2. split; [apply A5, H1|].
      rewrite ZA, FA2 by discriminate. cbn [Z.to_nat firstn].
      now rewrite app_nil_r. }
    split.
    { intros Hr Hq Hb. apply A6; auto. }
    intros _ Hp Hf _ _. exfalso.
    pose proof (pump_once_completes env fuel Serial1 Serial WireToUsb w
                  Hp Hf) as C.
    fold wa in C. congruence.
  - pose proof (pump_once_stages env fuel Serial Serial1 UsbToWire wa) as SB.
    cbv zeta in SB. destruct SB as (near & B1 & B2 & B3 & B4 & B5 & B6).
    pose proof (pump_once_frame env fuel Serial Serial1 UsbToWire wa Serial1)
      as [_ FB1].
    pose proof (pump_once_frame env fuel Serial Serial1 UsbToWire wa Serial)
      as [FB2 _].
    pose proof (pump_once_trace env fuel Serial Serial1 UsbToWire wa) as TB.
    rewrite pump_once_emitted in B5.
    set (wb := world_of (pump_once env fuel Serial Serial1 UsbToWire wa)) in *.
    set (eb := pump_events env fuel Serial Serial1 wa) in *.
    pose proof (returned_bytes_other env fuel Serial Serial1 Serial wa
                  ltac:(discriminate)) as ZB.
    fold eb in ZB.
    assert (W : exists tl wf,
               world_of (bidi_pass env fuel w) = wf
               /\ trace wf = trace w ++ ea ++ eb ++ tl
               /\ (forall e, returned_bytes e tl = 0)
               /\ (forall e, pending e wf = pending e wb)
               /\ (forall e, delivered e wf = delivered e wb)
               /\ (forall b, buf_of b wf = buf_of b wb)).
    { destruct Ew as [Ew|Ew].
      - exists [], wb. split; [exact Ew|].
        split; [rewrite app_nil_r, TB, TA; now rewrite app_assoc|].
        repeat split; reflexivity.
      - exists [Delay 0], (log (Delay 0) wb). split; [exact Ew|].
        split.
        { rewrite trace_log, TB, TA. now rewrite <- !app_assoc. }
        split; [reflexivity|].
        split; [intros e; apply pending_log|].
        split; [intros e; apply delivered_log|].
        intros b. apply buf_of_log. }
    destruct W as (tl & wf & -> & Tf & Ztl & Pf & Df & Bf).
    rewrite (emitted_app w wf _ Tf).
    rewrite !Pf, !Df, !Bf.
    exists far, near.
    split; [rewrite FB1 by discriminate; exact A1|].
    split; [rewrite <- B1; symmetry; now apply FA1|].
    split; [rewrite B4 by discriminate; exact A3|].
    split; [rewrite B3; now rewrite A4 by discriminate|].
    split; [rewrite B4 by discriminate; now apply A4|].
    split; [rewrite B4 by discriminate; now apply A4|].
    split.
    { intros H1 H2.
      rewrite !returned_bytes_app, !Ztl, ZA, ZB, !Z.add_0_r, Z.add_0_l.
      split.
      - rewrite FB2 by discriminate. rewrite B4 by discriminate.
        apply A5, H1.
      - rewrite <- FA2 by discriminate. apply B5, H2. }
    split.
    { intros Hr Hq Hb. apply A6; auto. }
    intros Hr Hp Hf Hq Hb. apply B6.
    + change (port_of Serial wa) with (usb wa).
      assert (Q : rx_fifo (usb wa) = rx_fifo (usb w)).
      { unfold wa. rewrite pump_once_world.
        destruct (to_size_t (reported env Serial1 w) =? 0); reflexivity. }
      now rewrite Q.
    + now rewrite FA1 by discriminate.
    + apply Hr.
Qed.

(** C8: in the two-way loop the directions do not interfere.  While
    nothing is pending on one side's input, the run issues no read on
    that side and no write or flush on the opposite sink, whatever the
    other direction carries.  Each direction's step stores the bytes it
    reads at the start of its own staging buffer and hands its sink bytes
    from that buffer, touching no other buffer; after every pass both
    buffers hold their own direction's bytes at once, so the second store
    does not land in the first buffer; and the contents of the other
    direction's buffer neither change nor matter. *)
Theorem bidi_directions_independent env ticks fuel w :
  let wf := world_of (run_bidi_bridge env ticks fuel w) in
  (pending Serial1 w = [] -> no_traffic Serial1 Serial (emitted w wf))
  /\ (pending Serial w = [] -> no_traffic Serial Serial1 (emitted w wf))
  /\ bidi_pass env fuel
     = (pump_once env fuel Serial1 Serial WireToUsb ;;
        pump_once env fuel Serial Serial1 UsbToWire ;;
        delay 0)%prog
  /\ stages_in env Serial1 Serial WireToUsb
               (pump_once env fuel Serial1 Serial WireToUsb)
  /\ stages_in env Serial Serial1 UsbToWire
               (pump_once env fuel Serial Serial1 UsbToWire)
  /\ buffers_apart env fuel (bidi_pass env fuel)
  /\ (forall w0 l,
        let step := pump_once env fuel Serial1 Serial WireToUsb in
        buf_of UsbToWire (world_of (step w0)) = buf_of UsbToWire w0
        /\ world_of (step (set_buf UsbToWire l w0))
           = set_buf UsbToWire l (world_of (step w0))
        /\ returned (step (set_buf UsbToWire l w0)) = returned (step w0))
  /\ (forall w0 l,
        let step := pump_once env fuel Serial Serial1 UsbToWire in
        buf_of WireToUsb (world_of (step w0)) = buf_of WireToUsb w0
        /\ world_of (step (set_buf WireToUsb l w0))
           = set_buf WireToUsb l (world_of (step w0))
        /\ returned (step (set_buf WireToUsb l w0)) = returned (step w0)).
Proof.
  cbv zeta.
  split; [|split; [|split; [reflexivity|split; [|split; [|split; [|split]]]]]].
  - apply (bidi_silent env ticks fuel Serial1 Serial w). discriminate.
  - apply (bidi_silent env ticks fuel Serial Serial1 w). discriminate.
  - apply pump_once_stages.
  - apply pump_once_stages.
  - apply bidi_pass_buffers_apart.
  - intros w0 l.
    destruct (pump_once_own_buffer env fuel Serial1 Serial WireToUsb
                UsbToWire w0 ltac:(discriminate)) as [F N].
    destruct (N l). auto.
  - intros w0 l.
    destruct (pump_once_own_buffer env fuel Serial Serial1 UsbToWire
                WireToUsb w0 ltac:(discriminate)) as [F N].
    destruct (N l). auto.
Qed.

Lemma bidi_directions_independent_witness :
  (pending Serial1 (power_on ping []) = []
   /\ no_traffic Serial1 Serial
        (emitted (power_on ping [])
           (world_of (run_bidi_bridge env_two 3 8 (power_on ping [])))))
  /\ (reads_progress env_two Serial1
      /\ rx_fifo (wire (power_on_queued ping pong)) <> []
      /\ Z.of_nat (length (pending Serial1 (power_on_queued ping pong)))
         < SIZE_MOD
      /\ exists far,
           far <> []
           /\ pending Serial1 (power_on_queued ping pong)
              = far ++ pending Serial1
                         (world_of (bidi_pass env_two 8
                                      (power_on_queued ping pong)))
           /\ buf_of WireToUsb
                (world_of (bidi_pass env_two 8 (power_on_queued ping pong)))
              = overwrite far (buf_of WireToUsb (power_on_queued ping pong))).
Proof.
  destruct (bidi_directions_independent env_two 3 8 (power_on ping []))
    as (H1 & _ & _ & _ & _ & HB & _).
  split; [split; [reflexivity | apply H1; reflexivity]|].
  assert (R : reads_progress env_two Serial1).
  { intros t. unfold env_two, env_read, BRIDGE_BUF_SZ. lia. }
  assert (Q : rx_fifo (wire (power_on_queued ping pong)) <> []).
  { intros K. change (pong = []) in K. discriminate K. }
  assert (L : Z.of_nat (length (pending Serial1 (power_on_queued ping pong)))
              < SIZE_MOD) by reflexivity.
  split; [exact R|]. split; [exact Q|]. split; [exact L|].
  destruct (HB (power_on_queued ping pong))
    as (far & near & P1 & _ & B1 & _ & _ & _ & _ & F1 & _).
  exists far. split; [exact (F1 R Q L)|]. split; [exact P1 | exact B1].
Defined.

(** The buffer matters: the step of the receive-only loop, which stores
    into [buf] of [run_receive_bridge], does not stage in
    [buf_wire_to_usb]. *)
Lemma stages_in_own_buffer_only :
  ~ stages_in env_two Serial1 Serial WireToUsb
      (pump_once env_two 4 Serial1 Serial RecvBuf).
Proof.
  intros H.
  destruct (H (power_on_queued [] pong)) as (got & _ & _ & _ & F & _).
  specialize (F RecvBuf ltac:(discriminate)).
  apply (f_equal (firstn 1)) in F. vm_compute in F. discriminate F.
Qed.

(** Both directions at once: "PONG" waits on the link and "PING" on the
    USB side, and each port takes two bytes per [write].  After one pass
    each buffer starts with its own direction's four bytes, each sink has
    received them, and the buffers of the one-way loops still hold their
    zeroes. *)
Example both_ways_scenario :
  let w := world_of (wire_init (power_on ping pong)) in
  let o := bidi_pass env_two 4 w in
  firstn 4 (buf_of WireToUsb (world_of o)) = pong
  /\ firstn 4 (buf_of UsbToWire (world_of o)) = ping
  /\ delivered Serial (world_of o) = pong
  /\ delivered Serial1 (world_of o) = ping
  /\ firstn 4 (buf_of RecvBuf (world_of o)) = repeat x00 4
  /\ firstn 4 (buf_of SendBuf (world_of o)) = repeat x00 4
  /\ emitted w (world_of o)
     = [Hal Serial1 (Available 4); Hal Serial1 (ReadBytes 4 4);
        Hal Serial (Write 4 2); Hal Serial (Write 2 2);
        Hal Serial (Flush (Some false));
        Hal Serial (Available 4); Hal Serial (ReadBytes 4 4);
        Hal Serial1 (Write 4 2); Hal Serial1 (Write 2 2);
        Hal Serial1 (Flush (Some false)); Delay 0].
Proof. vm_compute. repeat split. Qed.

(** ** A worked scenario

    "PING" arrives on the USB side while the link takes two bytes per
    [write]: one pass of the send loop reads the four bytes, needs two
    writes (the first asks for all four and gets two taken, the second
    asks for the remaining two), flushes once, and the link has received
    "PING". *)
Example ping_scenario :
  let w := world_of (wire_init (power_on ping [])) in
  let o := send_pass env_two 4 w in
  emitted w (world_of o)
  = [Hal Serial (Available 4); Hal Serial (ReadBytes 4 4);
     Hal Serial1 (Write 4 2); Hal Serial1 (Write 2 2);
     Hal Serial1 (Flush (Some false)); Delay 0]
  /\ delivered Serial1 (world_of o) = ping
  /\ pending Serial (world_of o) = []
  /\ returned o = true.
Proof. vm_compute. repeat split. Qed.

(* ================================================================= *)
(** * Further properties of the code *)

(** ** The capped write helper *)

(** [write_chunk] asks the port for its room, then issues one [write]
    whose size is the count capped at 256 and, when the reported room is
    not zero, at the room.  With at least one byte to send it never
    issues an empty write, not even when the port reports no room. *)
Theorem write_chunk_request env s b off n w :
  let room := env_room env s (clock w) in
  let send := chunk_request room n in
  let r := env_write env s (S (clock w)) send in
  write_chunk env s b off n w
  = Done r
      (log (Hal s (Write send r))
         (push_tx s (firstn (Z.to_nat r) (slice (buf_of b w) off send))
            (log (Hal s (AvailableForWrite room)) w)))
  /\ send <= 256
  /\ (to_size_t room <> 0 -> send <= to_size_t room)
  /\ (0 <= n -> send <= n)
  /\ (1 <= n -> 1 <= send).
Proof.
  cbv zeta.
  set (room := env_room env s (clock w)).
  assert (Hroom : 0 <= to_size_t room < SIZE_MOD)
    by (apply Z.mod_pos_bound, size_mod_pos).
  assert (E : (let send := n in
               let send := if negb (to_size_t room =? 0)
                              && (send >? to_size_t room)
                           then to_size_t room else send in
               if send >? 256 then 256 else send)
              = chunk_request room n).
  { cbv zeta. unfold chunk_request.
    destruct (to_size_t room =? 0) eqn:E0; simpl.
    - destruct (n >? 256) eqn:E1; rewrite Z.gtb_ltb in E1;
        [apply Z.ltb_lt in E1 | apply Z.ltb_ge in E1]; lia.
    - destruct (n >? to_size_t room) eqn:E1; rewrite Z.gtb_ltb in E1;
        [apply Z.ltb_lt in E1 | apply Z.ltb_ge in E1].
      + destruct (to_size_t room >? 256) eqn:E2; rewrite Z.gtb_ltb in E2;
          [apply Z.ltb_lt in E2 | apply Z.ltb_ge in E2]; lia.
      + destruct (n >? 256) eqn:E2; rewrite Z.gtb_ltb in E2;
          [apply Z.ltb_lt in E2 | apply Z.ltb_ge in E2]; lia. }
  split.
  - unfold write_chunk, bind, hs_availableForWrite. cbv beta iota.
    fold room. cbv zeta in E. cbv zeta. rewrite E.
    rewrite hs_write_eq. cbv zeta.
    now rewrite clock_log, buf_of_log.
  - unfold chunk_request.
    destruct (to_size_t room =? 0) eqn:E0;
      [apply Z.eqb_eq in E0 | apply Z.eqb_neq in E0].
    + split; [lia|]. split; [congruence|]. split; lia.
    + split; [lia|]. split; [lia|]. split; lia.
Qed.

Lemma write_chunk_request_witness :
  1 <= 300 /\ 1 <= chunk_request (env_room env_greedy Serial 0) 300.
Proof.
  split; [lia|].
  apply (write_chunk_request env_greedy Serial RecvBuf 0 300 (power_on [] [])).
  lia.
Defined.

(** ** Which calls the loops make *)

Lemma only_refl P w : only P w w.
Proof. split; [apply extends_refl|]. rewrite emitted_refl. constructor. Qed.

Lemma only_trans P a b c : only P a b -> only P b c -> only P a c.
Proof.
  intros [X1 F1] [X2 F2]. split; [eapply extends_trans; eauto|].
  rewrite (emitted_trans _ _ _ X1 X2). apply Forall_app. auto.
Qed.

Lemma only_logged P ev w : P ev -> only P w (log ev w).
Proof.
  intros H. split; [apply extends_log|].
  rewrite (emitted_app w _ [ev]) by reflexivity. auto.
Qed.

Lemma to_size_t_range z : 0 <= to_size_t z < SIZE_MOD.
Proof. apply Z.mod_pos_bound, size_mod_pos. Qed.

(** Every request of the write loop is for the bytes that remain, at
    least one and at most the chunk. *)
Lemma drain_calls_bounded env fuel dst n :
  forall t off, 0 <= off ->
    Forall (fun c => exists q r, c = Write q r /\ 1 <= q <= n)
           (drain_calls env fuel dst t n off).
Proof.
  induction fuel as [|f IH]; intros t off Hoff; simpl;
    destruct (off <? n) eqn:E; constructor.
  - apply Z.ltb_lt in E. eexists. eexists. split; [reflexivity | lia].
  - apply IH. apply to_size_t_range.
Qed.

Lemma chunk_size_positive a : to_size_t a <> 0 -> 1 <= chunk_size a.
Proof.
  intros H. pose proof (to_size_t_range a). unfold chunk_size.
  destruct (to_size_t a >? BRIDGE_BUF_SZ); unfold BRIDGE_BUF_SZ; lia.
Qed.

Section OnlyPump.

Variable env : environment.
Variable P : event -> Prop.
Variables src dst : endpoint.
Hypothesis P_available : forall a, P (Hal src (Available a)).
Hypothesis P_read :
  forall req n, 1 <= req <= BRIDGE_BUF_SZ -> 0 <= n <= req ->
                P (Hal src (ReadBytes req n)).
Hypothesis P_write :
  forall q r, 1 <= q <= BRIDGE_BUF_SZ -> P (Hal dst (Write q r)).
Hypothesis P_flush : P (Hal dst (Flush (Some false))).

Lemma pump_events_only fuel w : Forall P (pump_events env fuel src dst w).
Proof.
  unfold pump_events.
  destruct (to_size_t (reported env src w) =? 0) eqn:E.
  - constructor; auto.
  - apply Z.eqb_neq in E. cbv zeta.
    set (req := chunk_size (reported env src w)).
    set (n := Z.of_nat (length (fetch env src req (polled env src w)))).
    pose proof (chunk_size_bound (reported env src w)) as Hreq.
    pose proof (chunk_size_positive _ E) as Hpos. fold req in Hreq, Hpos.
    pose proof (fetch_length_bound env src req (polled env src w)
                  ltac:(lia)) as Hlen.
    fold n in Hlen.
    constructor; [apply P_available|].
    constructor; [apply P_read; lia|].
    apply Forall_app. split.
    + pose proof (drain_calls_bounded env fuel dst n (S (S (clock w))) 0
                    ltac:(lia)) as B.
      induction B as [|c cs (q & r & -> & Hq) _ IH]; simpl; constructor.
      * apply P_write. lia.
      * exact IH.
    + destruct (drain_done _ _ _ _ _ _); constructor; auto.
Qed.

Lemma only_pump fuel b w :
  only P w (world_of (pump_once env fuel src dst b w)).
Proof.
  split; [apply extends_pump|]. rewrite pump_once_emitted.
  apply pump_events_only.
Qed.

End OnlyPump.

Lemma only_one_way env P src dst b fuel :
  (forall a, P (Hal src (Available a))) ->
  (forall req n, 1 <= req <= BRIDGE_BUF_SZ -> 0 <= n <= req ->
                 P (Hal src (ReadBytes req n))) ->
  (forall q r, 1 <= q <= BRIDGE_BUF_SZ -> P (Hal dst (Write q r))) ->
  P (Hal dst (Flush (Some false))) ->
  P (Delay 0) ->
  forall ticks w,
    only P w (world_of (forever (A:=unit) ticks
                          (one_way_pass env fuel src dst b) w)).
Proof.
  intros H1 H2 H3 H4 H5.
  apply (forever_lift (only P)); [apply only_refl | apply only_trans |].
  intros w. unfold one_way_pass.
  apply (bind_lift (only P)); [apply only_trans | now apply only_pump |].
  intros _ w1. now apply only_logged.
Qed.

Lemma only_bidi env P fuel :
  (forall e a, P (Hal e (Available a))) ->
  (forall e req n, 1 <= req <= BRIDGE_BUF_SZ -> 0 <= n <= req ->
                   P (Hal e (ReadBytes req n))) ->
  (forall e q r, 1 <= q <= BRIDGE_BUF_SZ -> P (Hal e (Write q r))) ->
  (forall e, P (Hal e (Flush (Some false)))) ->
  P (Delay 0) ->
  forall ticks w,
    only P w (world_of (forever (A:=unit) ticks (bidi_pass env fuel) w)).
Proof.
  intros H1 H2 H3 H4 H5.
  apply (forever_lift (only P)); [apply only_refl | apply only_trans |].
  intros w. unfold bidi_pass.
  apply (bind_lift (only P)); [apply only_trans | apply only_pump; auto |].
  intros _ w1.
  apply (bind_lift (only P)); [apply only_trans | apply only_pump; auto |].
  intros _ w2. now apply only_logged.
Qed.

(** Whatever the ports report and return, no loop ever asks a port to
    read more than the staging buffer holds or offers it more than the
    buffer holds: every [readBytes] asks for between 1 and 32768 bytes
    and every [write] offers between 1 and 32768 bytes. *)
Theorem requests_fit_buffer env ticks fuel w :
  let w1 := world_of (wire_init w) in
  Forall fits_buffer
         (emitted w1 (world_of (run_receive_bridge env ticks fuel w)))
  /\ Forall fits_buffer
            (emitted w1 (world_of (run_send_bridge env ticks fuel w)))
  /\ Forall fits_buffer
            (emitted w1 (world_of (run_bidi_bridge env ticks fuel w))).
Proof.
  cbv zeta. destruct (run_bridges_eq env ticks fuel w) as (-> & -> & ->).
  split; [|split].
  - apply (only_one_way env fits_buffer Serial1 Serial RecvBuf);
      simpl; auto.
  - apply (only_one_way env fits_buffer Serial Serial1 SendBuf);
      simpl; auto.
  - apply (only_bidi env fits_buffer); simpl; auto.
Qed.

(** Past the link initialisation a bridge only queries, reads, writes,
    flushes without waiting and yields: it never prints, never asks for
    the room of a port, never configures a port and never waits. *)
Lemma loops_only_loop_events env ticks fuel w :
  let P := fun ev => is_loop_event ev = true in
  only P w (world_of (forever (A:=unit) ticks (receive_pass env fuel) w))
  /\ only P w (world_of (forever (A:=unit) ticks (send_pass env fuel) w))
  /\ only P w (world_of (forever (A:=unit) ticks (bidi_pass env fuel) w)).
Proof.
  cbv zeta. split; [|split].
  - apply (only_one_way env _ Serial1 Serial RecvBuf); reflexivity.
  - apply (only_one_way env _ Serial Serial1 SendBuf); reflexivity.
  - apply (only_bidi env); reflexivity.
Qed.

Lemma trace_wire_init w :
  trace (world_of (wire_init w))
  = trace w ++ (if wire_inited w then [] else init_calls).
Proof.
  rewrite wire_init_eq. destruct (wire_inited w); simpl;
    [now rewrite app_nil_r | reflexivity].
Qed.

(** What a command handler does, from the first call to wherever the
    loop has got: the banner, the line with the pins and the baud rate,
    one blocking flush of the console, a pause of 50 ms, then, unless the
    link was initialised before, the five configuration calls, and from
    there on nothing but the calls of the forwarding loop.  In
    particular nothing is printed after the two status lines. *)
Theorem handler_trace_shape env ticks fuel w :
  let config_line :=
    KonPrintf "Wire: TX=%d RX=%d BAUD=%d. Power-cycle to exit.\r\n"
              [WIRE_TX_PIN; WIRE_RX_PIN; WIRE_BAUD] in
  let rest :=
    [config_line; Hal Serial (Flush None); Delay 50]
      ++ (if wire_inited w then [] else init_calls) in
  (exists loop_evs,
      emitted w (world_of (cmd_receive env ticks fuel w))
      = KonPrintf
          "Entering RECEIVE mode (Serial1 -> USB). No further console output.\r\n"
          [] :: rest ++ loop_evs
      /\ Forall (fun ev => is_loop_event ev = true) loop_evs)
  /\ (exists loop_evs,
         emitted w (world_of (cmd_send env ticks fuel w))
         = KonPrintf
             "Entering SEND mode (USB -> Serial1). No further console output.\r\n"
             [] :: rest ++ loop_evs
         /\ Forall (fun ev => is_loop_event ev = true) loop_evs).
Proof.
  cbv zeta.
  assert (G : forall banner,
    let wp := log (Delay 50)
                (log (Hal Serial (Flush None))
                   (log (KonPrintf
                           "Wire: TX=%d RX=%d BAUD=%d. Power-cycle to exit.\r\n"
                           [WIRE_TX_PIN; WIRE_RX_PIN; WIRE_BAUD])
                      (log (KonPrintf banner []) w))) in
    exists loop_evs,
      emitted w (world_of (run_bidi_bridge env ticks fuel wp))
      = KonPrintf banner []
          :: ([KonPrintf
                 "Wire: TX=%d RX=%d BAUD=%d. Power-cycle to exit.\r\n"
                 [WIRE_TX_PIN; WIRE_RX_PIN; WIRE_BAUD];
               Hal Serial (Flush None); Delay 50]
                ++ (if wire_inited w then [] else init_calls))
          ++ loop_evs
      /\ Forall (fun ev => is_loop_event ev = true) loop_evs).
  { intros banner wp.
    destruct (run_bridges_eq env ticks fuel wp) as (_ & _ & ->).
    destruct (loops_only_loop_events env ticks fuel (world_of (wire_init wp)))
      as (_ & _ & [X F]).
    cbv zeta in X, F.
    eexists. split; [|exact F].
    apply emitted_app. rewrite (extends_emitted _ _ X), trace_wire_init.
    unfold wp at 2 3. simpl. repeat rewrite <- app_assoc. reflexivity. }
  split.
  - destruct (G "Entering RECEIVE mode (Serial1 -> USB). No further console output.\r\n"%string)
      as (evs & E & F).
    exists evs. split; [|exact F]. rewrite <- E.
    unfold cmd_receive, bind, kon_printf, hs_flush, delay. cbv beta iota.
    destruct (run_bidi_bridge env ticks fuel _); reflexivity.
  - destruct (G "Entering SEND mode (USB -> Serial1). No further console output.\r\n"%string)
      as (evs & E & F).
    exists evs. split; [|exact F]. rewrite <- E.
    unfold cmd_send, bind, kon_printf, hs_flush, delay. cbv beta iota.
    destruct (run_bidi_bridge env ticks fuel _); reflexivity.
Qed.

(** ** The staging buffers keep their size *)

Lemma staging_eq_dec (b b' : staging) : {b = b'} + {b <> b'}.
Proof. decide equality. Qed.

Lemma overwrite_length (got buf : list byte) :
  (length got <= length buf)%nat ->
  length (overwrite got buf) = length buf.
Proof.
  intros H. unfold overwrite. rewrite length_app, length_skipn. lia.
Qed.

Lemma pump_keeps_buffers env fuel src dst b w :
  buffers_sized w ->
  buffers_sized (world_of (pump_once env fuel src dst b w)).
Proof.
  intros H b'. rewrite pump_once_world.
  destruct (to_size_t (reported env src w) =? 0).
  - rewrite buf_of_polled. apply H.
  - cbv zeta. rewrite buf_of_log_all, buf_of_push_tx.
    destruct (staging_eq_dec b' b) as [->|Hne].
    + rewrite buf_of_fetched_same, buf_of_polled.
      rewrite overwrite_length; [apply H|].
      rewrite H.
      pose proof (chunk_size_bound (reported env src w)) as Hreq.
      pose proof (fetch_length_bound env src (chunk_size (reported env src w))
                    (polled env src w) ltac:(lia)) as Hlen.
      lia.
    + rewrite buf_of_fetched_other by assumption.
      rewrite buf_of_polled. apply H.
Qed.

Lemma buffers_sized_log ev w : buffers_sized w -> buffers_sized (log ev w).
Proof. intros H b. rewrite buf_of_log. apply H. Qed.

Lemma buffers_sized_wire_init w :
  buffers_sized w -> buffers_sized (world_of (wire_init w)).
Proof.
  intros H b. rewrite wire_init_eq. destruct (wire_inited w); simpl;
    [apply H|]. specialize (H b). destruct b; exact H.
Qed.

(** A read never stores past the end of a staging buffer: buffers that
    have their declared size of 32768 bytes, as at reset, have it at
    every moment of every run of every bridge and handler. *)
Theorem staging_buffers_keep_size env ticks fuel w :
  buffers_sized w ->
  buffers_sized (world_of (run_receive_bridge env ticks fuel w))
  /\ buffers_sized (world_of (run_send_bridge env ticks fuel w))
  /\ buffers_sized (world_of (run_bidi_bridge env ticks fuel w))
  /\ buffers_sized (world_of (cmd_receive env ticks fuel w))
  /\ buffers_sized (world_of (cmd_send env ticks fuel w)).
Proof.
  intros H.
  set (R := fun a b : world => buffers_sized a -> buffers_sized b).
  assert (Rr : forall a, R a a) by (intros a Ha; exact Ha).
  assert (Rt : forall a b c, R a b -> R b c -> R a c)
    by (intros a b c Hab Hbc Ha; auto).
  assert (Rp : forall s d b a, R a (world_of (pump_once env fuel s d b a)))
    by (intros s d b a Ha; now apply pump_keeps_buffers).
  assert (Rd : forall ms a, R a (world_of (delay ms a)))
    by (intros ms a Ha; now apply buffers_sized_log).
  assert (Loops : forall a,
    R a (world_of (forever (A:=unit) ticks (receive_pass env fuel) a))
    /\ R a (world_of (forever (A:=unit) ticks (send_pass env fuel) a))
    /\ R a (world_of (forever (A:=unit) ticks (bidi_pass env fuel) a))).
  { intros a. repeat split; apply (forever_lift R); auto; intros a0.
    - apply (bind_lift R); auto.
    - apply (bind_lift R); auto.
    - apply (bind_lift R); auto. intros _ a1. apply (bind_lift R); auto. }
  assert (Run : forall a, buffers_sized a ->
    buffers_sized (world_of (run_bidi_bridge env ticks fuel a))).
  { intros a Ha. destruct (run_bridges_eq env ticks fuel a) as (_ & _ & ->).
    apply Loops. now apply buffers_sized_wire_init. }
  destruct (run_bridges_eq env ticks fuel w) as (-> & -> & _).
  split; [|split; [|split; [|split]]].
  - apply Loops. now apply buffers_sized_wire_init.
  - apply Loops. now apply buffers_sized_wire_init.
  - now apply Run.
  - unfold cmd_receive, bind, kon_printf, hs_flush, delay. cbv beta iota.
    match goal with
    | |- context [run_bidi_bridge env ticks fuel ?a] =>
        pose proof (Run a) as K;
        destruct (run_bidi_bridge env ticks fuel a); simpl in *; apply K
    end; repeat apply buffers_sized_log; exact H.
  - unfold cmd_send, bind, kon_printf, hs_flush, delay. cbv beta iota.
    match goal with
    | |- context [run_bidi_bridge env ticks fuel ?a] =>
        pose proof (Run a) as K;
        destruct (run_bidi_bridge env ticks fuel a); simpl in *; apply K
    end; repeat apply buffers_sized_log; exact H.
Qed.

Lemma staging_buffers_keep_size_witness :
  buffers_sized (power_on ping [])
  /\ buffers_sized (world_of (run_bidi_bridge env_two 2 4 (power_on ping []))).
Proof.
  assert (H : buffers_sized (power_on ping [])).
  { intros b. destruct b; apply repeat_length. }
  split; [exact H|].
  apply (staging_buffers_keep_size env_two 2 4 (power_on ping []) H).
Defined.

(** ** The one-way loops serve one direction only *)

Lemma one_way_frame env fuel src dst b e1 e2 :
  e1 <> src -> e2 <> dst ->
  forall ticks w,
    let wf := world_of (forever (A:=unit) ticks
                          (one_way_pass env fuel src dst b) w) in
    pending e1 wf = pending e1 w /\ delivered e2 wf = delivered e2 w.
Proof.
  intros H1 H2.
  set (R := fun a c : world =>
              pending e1 c = pending e1 a /\ delivered e2 c = delivered e2 a).
  assert (Rt : forall a c d, R a c -> R c d -> R a d).
  { intros a c d [A1 A2] [B1 B2]. split; congruence. }
  apply (forever_lift R); [split; reflexivity | exact Rt |].
  intros w. unfold one_way_pass. apply (bind_lift R); [exact Rt | |].
  - destruct (pump_once_frame env fuel src dst b w e1) as [_ F1].
    destruct (pump_once_frame env fuel src dst b w e2) as [F2 _].
    split; auto.
  - intros _ w1. split; [apply pending_log | apply delivered_log].
Qed.

(** The receive-only loop never looks at the USB side's input and never
    sends anything to the link: its calls are queries and reads on
    Serial1, writes and flushes on Serial, and the yield; whatever waits
    on the USB side stays unread and the link's output stays as it was.
    The send-only loop is its mirror image. *)
Theorem one_way_loops_confined env ticks fuel w :
  let w1 := world_of (wire_init w) in
  (let wf := world_of (run_receive_bridge env ticks fuel w) in
   Forall (fun ev => is_one_way_event Serial1 Serial ev = true) (emitted w1 wf)
   /\ pending Serial wf = pending Serial w
   /\ delivered Serial1 wf = delivered Serial1 w)
  /\ (let wf := world_of (run_send_bridge env ticks fuel w) in
      Forall (fun ev => is_one_way_event Serial Serial1 ev = true)
             (emitted w1 wf)
      /\ pending Serial1 wf = pending Serial1 w
      /\ delivered Serial wf = delivered Serial w).
Proof.
  cbv zeta. destruct (run_bridges_eq env ticks fuel w) as (-> & -> & _).
  split.
  - destruct (one_way_frame env fuel Serial1 Serial RecvBuf Serial Serial1
                ltac:(discriminate) ltac:(discriminate) ticks
                (world_of (wire_init w))) as [F1 F2].
    cbv zeta in F1, F2.
    destruct (streams_wire_init Serial w) as [_ P].
    destruct (streams_wire_init Serial1 w) as [D _].
    split; [|split; [unfold receive_pass; fold (one_way_pass env fuel Serial1
                       Serial RecvBuf); congruence
                    | unfold receive_pass; fold (one_way_pass env fuel Serial1
                       Serial RecvBuf); congruence]].
    apply (only_one_way env _ Serial1 Serial RecvBuf); reflexivity.
  - destruct (one_way_frame env fuel Serial Serial1 SendBuf Serial1 Serial
                ltac:(discriminate) ltac:(discriminate) ticks
                (world_of (wire_init w))) as [F1 F2].
    cbv zeta in F1, F2.
    destruct (streams_wire_init Serial1 w) as [_ P].
    destruct (streams_wire_init Serial w) as [D _].
    split; [|split; [unfold send_pass; fold (one_way_pass env fuel Serial
                       Serial1 SendBuf); congruence
                    | unfold send_pass; fold (one_way_pass env fuel Serial
                       Serial1 SendBuf); congruence]].
    apply (only_one_way env _ Serial Serial1 SendBuf); reflexivity.
Qed.

(** ** The two-way loop takes turns *)

Lemma polls_app e l1 l2 : polls e (l1 ++ l2) = (polls e l1 + polls e l2)%nat.
Proof. unfold polls. now rewrite filter_app, length_app. Qed.

Lemma yields_app l1 l2 : yields (l1 ++ l2) = (yields l1 + yields l2)%nat.
Proof. unfold yields. now rewrite filter_app, length_app. Qed.

Lemma pump_events_counts env fuel src dst w e :
  polls e (pump_events env fuel src dst w)
  = (if endpoint_eqb e src then 1 else 0)%nat
  /\ yields (pump_events env fuel src dst w) = O.
Proof.
  unfold pump_events.
  destruct (to_size_t (reported env src w) =? 0).
  - unfold polls, yields. simpl. now destruct (endpoint_eqb e src).
  - cbv zeta.
    set (cs := drain_calls env fuel dst _ _ 0).
    assert (W : Forall (fun c => exists req r, c = Write req r) cs)
      by apply drain_calls_are_writes.
    unfold polls, yields. simpl. rewrite !filter_app.
    rewrite !(filter_writes_nil _ dst cs W) by reflexivity.
    destruct (drain_done _ _ _ _ _ _), (endpoint_eqb e src); auto.
Qed.

Lemma extends_bidi_loop env fuel k w :
  extends w (world_of (forever (A:=unit) k (bidi_pass env fuel) w)).
Proof.
  apply extends_forever. intros w0. unfold bidi_pass.
  apply extends_bind; [apply extends_pump|]. intros _ w4.
  apply extends_bind; [apply extends_pump|]. intros _ w5.
  apply extends_log.
Qed.

(** The events of the two-way loop, pass by pass. *)
Lemma bidi_loop_events env fuel k w :
  let w1 := world_of (pump_once env fuel Serial1 Serial WireToUsb w) in
  let w2 := world_of (pump_once env fuel Serial Serial1 UsbToWire w1) in
  let w3 := log (Delay 0) w2 in
  emitted w (world_of (forever (A:=unit) (S k) (bidi_pass env fuel) w))
  = pump_events env fuel Serial1 Serial w
      ++ (if pump_done env fuel Serial1 Serial w
          then pump_events env fuel Serial Serial1 w1
                 ++ (if pump_done env fuel Serial Serial1 w1
                     then Delay 0
                            :: emitted w3
                                 (world_of (forever (A:=unit) k
                                              (bidi_pass env fuel) w3))
                     else [])
          else []).
Proof.
  cbv zeta. apply emitted_app.
  rewrite forever_succ. unfold bidi_pass at 1. unfold bind.
  pose proof (pump_once_trace env fuel Serial1 Serial WireToUsb w) as TA.
  pose proof (pump_once_returned env fuel Serial1 Serial WireToUsb w) as RA.
  destruct (pump_once env fuel Serial1 Serial WireToUsb w) as [u w1|w1];
    cbn [world_of returned] in *; rewrite <- RA; cbv beta iota.
  - pose proof (pump_once_trace env fuel Serial Serial1 UsbToWire w1) as TB.
    pose proof (pump_once_returned env fuel Serial Serial1 UsbToWire w1) as RB.
    destruct (pump_once env fuel Serial Serial1 UsbToWire w1) as [u' w2|w2];
      cbn [world_of returned] in *; rewrite <- RB; cbv beta iota.
    + change (delay 0 w2) with (Done (A:=unit) tt (log (Delay 0) w2)).
      cbv beta iota.
      rewrite (extends_emitted _ _ (extends_bidi_loop env fuel k
                                      (log (Delay 0) w2))).
      rewrite trace_log, TB, TA. repeat rewrite <- app_assoc. reflexivity.
    + rewrite TB, TA. repeat rewrite <- app_assoc. now rewrite app_nil_r.
  - rewrite TA. now rewrite app_nil_r.
Qed.

(** In the two-way loop neither direction is served twice before the
    other has had its turn: at every moment the link has been queried as
    often as the USB side or once more, the USB side as often as the loop
    has yielded or once more, and the loop has yielded once per completed
    pass. *)
Theorem bidi_takes_turns env fuel :
  forall ticks w,
    let evs :=
      emitted w (world_of (forever (A:=unit) ticks (bidi_pass env fuel) w)) in
    (yields evs <= polls Serial evs)%nat
    /\ (polls Serial evs <= polls Serial1 evs)%nat
    /\ (polls Serial1 evs <= S (yields evs))%nat
    /\ (yields evs <= ticks)%nat.
Proof.
  induction ticks as [|k IH]; intros w; cbv zeta.
  - simpl. rewrite emitted_refl. unfold yields, polls. simpl. lia.
  - pose proof (bidi_loop_events env fuel k w) as E. cbv zeta in E.
    rewrite E. clear E.
    set (w1 := world_of (pump_once env fuel Serial1 Serial WireToUsb w)).
    set (w2 := world_of (pump_once env fuel Serial Serial1 UsbToWire w1)).
    set (w3 := log (Delay 0) w2).
    destruct (pump_events_counts env fuel Serial1 Serial w Serial1) as [A1 A0].
    destruct (pump_events_counts env fuel Serial1 Serial w Serial) as [A2 _].
    destruct (pump_events_counts env fuel Serial Serial1 w1 Serial1)
      as [B1 B0].
    destruct (pump_events_counts env fuel Serial Serial1 w1 Serial)
      as [B2 _].
    simpl in A1, A2, B1, B2.
    specialize (IH w3). cbv zeta in IH.
    set (rest := emitted w3 (world_of (forever (A:=unit) k
                                         (bidi_pass env fuel) w3))) in *.
    assert (C : forall e, polls e (Delay 0 :: rest) = polls e rest
                          /\ yields (Delay 0 :: rest) = S (yields rest)).
    { intros e. split; reflexivity. }
    destruct (C Serial) as [C1 C0]. destruct (C Serial1) as [C2 _].
    assert (N : forall e, polls e [] = O) by reflexivity.
    assert (N0 : yields [] = O) by reflexivity.
    destruct (pump_done env fuel Serial1 Serial w);
      [destruct (pump_done env fuel Serial Serial1 w1)|];
      rewrite ?polls_app, ?yields_app, ?A1, ?A0, ?A2, ?B1, ?B0, ?B2,
        ?C1, ?C0, ?C2, ?N, ?N0;
      lia.
Qed.

(** ** How much one pass moves *)

Lemma queues_push_tx e d bytes w :
  rx_fifo (port_of e (push_tx d bytes w)) = rx_fifo (port_of e w)
  /\ line_in (port_of e (push_tx d bytes w)) = line_in (port_of e w).
Proof. destruct e, d; split; reflexivity. Qed.

Lemma queues_wire_init e w :
  rx_fifo (port_of e (world_of (wire_init w))) = rx_fifo (port_of e w)
  /\ line_in (port_of e (world_of (wire_init w))) = line_in (port_of e w).
Proof.
  rewrite wire_init_eq. destruct (wire_inited w), e; split; reflexivity.
Qed.

Lemma skipn_chunk (l : list byte) (req : Z) :
  req = Z.min (Z.of_nat (length l)) BRIDGE_BUF_SZ ->
  skipn (Z.to_nat req) l = skipn BUF_LEN l.
Proof.
  intros ->. unfold BUF_LEN.
  destruct (Z.le_gt_cases (Z.of_nat (length l)) BRIDGE_BUF_SZ) as [H|H].
  - rewrite Z.min_l by lia. rewrite Nat2Z.id.
    rewrite skipn_all. symmetry. apply skipn_all2. lia.
  - now rewrite Z.min_r by lia.
Qed.

Lemma chunk_size_small a :
  0 <= a < SIZE_MOD -> chunk_size a = Z.min a BRIDGE_BUF_SZ.
Proof.
  intros H. unfold chunk_size. rewrite to_size_t_small by assumption.
  destruct (a >? BRIDGE_BUF_SZ) eqn:E; rewrite Z.gtb_ltb in E;
    [apply Z.ltb_lt in E | apply Z.ltb_ge in E]; lia.
Qed.

Lemma pump_once_moves_chunk env fuel src dst b w :
  reads_full env src -> writes_progress env dst ->
  (BUF_LEN <= fuel)%nat ->
  line_in (port_of src w) = [] ->
  Z.of_nat (length (pending src w)) < SIZE_MOD ->
  exists w',
    pump_once env fuel src dst b w = Done tt w'
    /\ line_in (port_of src w') = []
    /\ pending src w' = skipn BUF_LEN (pending src w)
    /\ delivered dst w' = delivered dst w ++ firstn BUF_LEN (pending src w).
Proof.
  intros Hr Hw Hf L Hb.
  pose proof (pump_once_completes env fuel src dst b w Hw Hf) as D.
  destruct (pump_once_in_order env fuel src dst b w
              (writes_progress_honest _ _ Hw)) as (stuck & C & S0).
  rewrite (S0 D) in C. rewrite app_nil_l in C.
  assert (Pw : pending src w = rx_fifo (port_of src w)).
  { unfold pending. rewrite L. apply app_nil_r. }
  assert (Rep : reported env src w = Z.of_nat (length (rx_fifo (port_of src w)))).
  { rewrite reported_eq, L. cbn [length]. f_equal. lia. }
  assert (Hb' : Z.of_nat (length (rx_fifo (port_of src w))) < SIZE_MOD)
    by (rewrite <- Pw; exact Hb).
  assert (Q : line_in (port_of src (world_of (pump_once env fuel src dst b w)))
              = []
              /\ pending src (world_of (pump_once env fuel src dst b w))
                 = skipn BUF_LEN (pending src w)).
  { rewrite pump_once_world.
    destruct (to_size_t (reported env src w) =? 0) eqn:E.
    - apply Z.eqb_eq in E. rewrite to_size_t_small in E by lia.
      rewrite pending_polled, port_of_polled_same. unfold deliver.
      cbn [line_in rx_fifo].
      rewrite L, skipn_nil. split; [reflexivity|].
      assert (N : rx_fifo (port_of src w) = [])
        by (apply length_zero_iff_nil; lia).
      rewrite Pw, N. now rewrite skipn_nil.
    - cbv zeta.
      destruct (queues_push_tx src dst
                  (drain_bytes env fuel dst
                     (buf_of b (fetched env src b
                                  (chunk_size (reported env src w))
                                  (polled env src w)))
                     (S (S (clock w)))
                     (Z.of_nat (length (fetch env src
                                          (chunk_size (reported env src w))
                                          (polled env src w)))) 0)
                  (fetched env src b (chunk_size (reported env src w))
                     (polled env src w))) as [Q1 Q2].
      unfold pending. rewrite !port_of_log_all, Q1, Q2.
      rewrite port_of_fetched_same, port_of_polled_same.
      unfold consumed, deliver. cbn [line_in rx_fifo].
      rewrite L, skipn_nil, firstn_nil.
      rewrite !app_nil_r. split; [reflexivity|].
      rewrite Z.min_r.
      + apply skipn_chunk. rewrite chunk_size_small by lia. now rewrite Rep.
      + pose proof (chunk_size_bound (reported env src w)).
        specialize (Hr (clock (polled env src w))). lia. }
  destruct Q as [Q1 Q2].
  destruct (pump_once env fuel src dst b w) as [[] w'|w']; [|discriminate].
  cbn [world_of] in *. exists w'. split; [reflexivity|]. split; [exact Q1|].
  split; [exact Q2|].
  rewrite Q2 in C.
  rewrite <- (firstn_skipn BUF_LEN (pending src w)) in C at 2.
  rewrite app_assoc in C. now apply app_inv_tail in C.
Qed.

Lemma one_way_moves_chunks env fuel src dst b :
  reads_full env src -> writes_progress env dst ->
  (BUF_LEN <= fuel)%nat ->
  forall k w,
    line_in (port_of src w) = [] ->
    Z.of_nat (length (pending src w)) < SIZE_MOD ->
    let wf := world_of (forever (A:=unit) k
                          (one_way_pass env fuel src dst b) w) in
    pending src wf = skipn (k * BUF_LEN) (pending src w)
    /\ delivered dst wf
       = delivered dst w ++ firstn (k * BUF_LEN) (pending src w).
Proof.
  intros Hr Hw Hf. induction k as [|k IH]; intros w L Hb; cbv zeta.
  - cbn [forever world_of Nat.mul skipn firstn]. now rewrite app_nil_r.
  - destruct (pump_once_moves_chunk env fuel src dst b w Hr Hw Hf L Hb)
      as (w1 & E & L1 & P1 & D1).
    assert (EQ : forever (A:=unit) (S k) (one_way_pass env fuel src dst b) w
                 = forever (A:=unit) k (one_way_pass env fuel src dst b)
                     (log (Delay 0) w1)).
    { rewrite forever_succ. unfold one_way_pass at 1. unfold bind.
      now rewrite E. }
    rewrite EQ.
    destruct (IH (log (Delay 0) w1)) as [P2 D2].
    + now rewrite port_of_log.
    + rewrite pending_log, P1, length_skipn. lia.
    + rewrite P2, D2, pending_log, delivered_log, P1, D1.
      rewrite skipn_skipn, <- app_assoc.
      change (S k * BUF_LEN)%nat with (BUF_LEN + k * BUF_LEN)%nat.
      rewrite firstn_plus.
      rewrite (Nat.add_comm BUF_LEN (k * BUF_LEN)). split; reflexivity.
Qed.

(** When the sender's bytes are all in the driver's queue, reads are not
    cut short and writes make progress, every pass of a one-way loop
    forwards the next 32768 bytes, or all that is left if that is less:
    after [ticks] passes the sink has received the first
    [ticks * 32768] bytes of the stream and the rest is still queued.  A
    stream of [L] bytes is therefore through after [ceil(L / 32768)]
    passes. *)
Theorem one_way_chunk_per_pass env ticks fuel w :
  (BUF_LEN <= fuel)%nat ->
  (reads_full env Serial1 -> writes_progress env Serial ->
   line_in (wire w) = [] ->
   Z.of_nat (length (pending Serial1 w)) < SIZE_MOD ->
   let wf := world_of (run_receive_bridge env ticks fuel w) in
   pending Serial1 wf = skipn (ticks * BUF_LEN) (pending Serial1 w)
   /\ delivered Serial wf
      = delivered Serial w ++ firstn (ticks * BUF_LEN) (pending Serial1 w))
  /\ (reads_full env Serial -> writes_progress env Serial1 ->
      line_in (usb w) = [] ->
      Z.of_nat (length (pending Serial w)) < SIZE_MOD ->
      let wf := world_of (run_send_bridge env ticks fuel w) in
      pending Serial wf = skipn (ticks * BUF_LEN) (pending Serial w)
      /\ delivered Serial1 wf
         = delivered Serial1 w ++ firstn (ticks * BUF_LEN) (pending Serial w)).
Proof.
  intros Hf.
  destruct (run_bridges_eq env ticks fuel w) as (-> & -> & _).
  split; intros Hr Hw L Hb; cbv zeta.
  - destruct (streams_wire_init Serial1 w) as [_ P].
    destruct (streams_wire_init Serial w) as [D _].
    destruct (queues_wire_init Serial1 w) as [_ Q].
    rewrite <- P, <- D.
    apply (one_way_moves_chunks env fuel Serial1 Serial RecvBuf Hr Hw Hf).
    + exact (eq_trans Q L).
    + now rewrite P.
  - destruct (streams_wire_init Serial w) as [_ P].
    destruct (streams_wire_init Serial1 w) as [D _].
    destruct (queues_wire_init Serial w) as [_ Q].
    rewrite <- P, <- D.
    apply (one_way_moves_chunks env fuel Serial Serial1 SendBuf Hr Hw Hf).
    + exact (eq_trans Q L).
    + now rewrite P.
Qed.

Lemma one_way_chunk_per_pass_witness :
  (BUF_LEN <= BUF_LEN)%nat
  /\ reads_full env_greedy Serial1
  /\ writes_progress env_greedy Serial
  /\ line_in (wire (power_on_queued [] ping)) = []
  /\ Z.of_nat (length (pending Serial1 (power_on_queued [] ping))) < SIZE_MOD
  /\ delivered Serial
       (world_of (run_receive_bridge env_greedy 1 BUF_LEN
                    (power_on_queued [] ping)))
     = delivered Serial (power_on_queued [] ping)
         ++ firstn (1 * BUF_LEN) (pending Serial1 (power_on_queued [] ping)).
Proof.
  assert (R : reads_full env_greedy Serial1).
  { intros t. simpl. apply Z.le_refl. }
  assert (W : writes_progress env_greedy Serial).
  { intros t size H. simpl. lia. }
  assert (B : Z.of_nat (length (pending Serial1 (power_on_queued [] ping)))
              < SIZE_MOD).
  { vm_compute. reflexivity. }
  split; [apply Nat.le_refl|]. split; [exact R|]. split; [exact W|].
  split; [reflexivity|]. split; [exact B|].
  destruct (one_way_chunk_per_pass env_greedy 1 BUF_LEN
              (power_on_queued [] ping) (Nat.le_refl _)) as [H _].
  apply (H R W eq_refl B).
Defined.

(** ** The two commands run the same program *)

Lemma with_trace_fields h w :
  usb (with_trace h w) = usb w /\ wire (with_trace h w) = wire w
  /\ wire_inited (with_trace h w) = wire_inited w
  /\ (forall b, buf_of b (with_trace h w) = buf_of b w)
  /\ (forall e, port_of e (with_trace h w) = port_of e w)
  /\ trace (with_trace h w) = h.
Proof. repeat split; intros x; destruct x; reflexivity. Qed.

Lemma with_trace_log h ev w :
  log ev (with_trace h w) = with_trace (h ++ [ev]) w.
Proof. reflexivity. Qed.

Lemma with_trace_set_port h e p w :
  set_port e p (with_trace h w) = with_trace h (set_port e p w).
Proof. destruct e; reflexivity. Qed.

Lemma with_trace_set_buf h b l w :
  set_buf b l (with_trace h w) = with_trace h (set_buf b l w).
Proof. destruct b; reflexivity. Qed.

Lemma with_trace_twice h h' w : with_trace h (with_trace h' w) = with_trace h w.
Proof. reflexivity. Qed.

Lemma with_trace_of_log h ev w :
  with_trace h (log ev w) = with_trace h w.
Proof. reflexivity. Qed.

(** A call that changes ports and buffers by [upd], logs [ev] and returns
    [a], all three determined by the world without its trace. *)
Lemma blind_step {A} (m : M A) :
  (forall w, exists a ev upd,
      m w = Done a (log ev (upd w))
      /\ trace (upd w) = trace w
      /\ forall h, length h = length (trace w) ->
                   m (with_trace h w)
                   = Done a (log ev (with_trace h (upd w)))) ->
  history_blind m.
Proof.
  intros H w h Hl. destruct (H w) as (a & ev & upd & E & T & B).
  rewrite (B h Hl), E. simpl. split.
  - exists [ev]. simpl. now rewrite T.
  - rewrite (emitted_app w (log ev (upd w)) [ev]) by (simpl; now rewrite T).
    reflexivity.
Qed.

Lemma blind_available env e : history_blind (hs_available env e).
Proof.
  apply blind_step. intros w.
  exists (reported env e w), (Hal e (Available (reported env e w))),
    (fun w0 => set_port e (deliver (env_arrive env e (clock w))
                             (port_of e w)) w0).
  split; [reflexivity|]. split; [apply trace_set_port|].
  intros h Hl. unfold hs_available, clock, reported.
  destruct (with_trace_fields h w) as (_ & _ & _ & _ & P & T).
  rewrite P, T, Hl, with_trace_set_port. reflexivity.
Qed.

Lemma blind_read env e b req : history_blind (hs_readBytes env e b req).
Proof.
  apply blind_step. intros w.
  exists (Z.of_nat (length (fetch env e req w))),
    (Hal e (ReadBytes req (Z.of_nat (length (fetch env e req w))))),
    (fun w0 => set_buf b (overwrite (fetch env e req w) (buf_of b w))
                 (set_port e
                    (consumed (Z.to_nat (Z.min (env_read env e (clock w)) req))
                              (port_of e w)) w0)).
  split; [reflexivity|].
  split; [now rewrite trace_set_buf, trace_set_port|].
  intros h Hl. unfold hs_readBytes, fetch, clock, consumed.
  destruct (with_trace_fields h w) as (_ & _ & _ & B & P & T).
  rewrite P, T, Hl, B, with_trace_set_port, with_trace_set_buf. reflexivity.
Qed.

Lemma blind_write env e b off size : history_blind (hs_write env e b off size).
Proof.
  apply blind_step. intros w.
  exists (env_write env e (clock w) size),
    (Hal e (Write size (env_write env e (clock w) size))),
    (fun w0 => set_port e
                 (sent (firstn (Z.to_nat (env_write env e (clock w) size))
                               (slice (buf_of b w) off size))
                       (port_of e w)) w0).
  split; [reflexivity|]. split; [apply trace_set_port|].
  intros h Hl. unfold hs_write, clock, sent.
  destruct (with_trace_fields h w) as (_ & _ & _ & B & P & T).
  rewrite P, T, Hl, B, with_trace_set_port. reflexivity.
Qed.

Lemma blind_logging ev : history_blind (fun w => Done tt (log ev w)).
Proof.
  apply blind_step. intros w. exists tt, ev, (fun w0 => w0).
  split; [reflexivity|]. split; reflexivity.
Qed.

Lemma blind_ret {A} (a : A) : history_blind (ret a).
Proof.
  intros w h Hl. split; [apply extends_refl|].
  unfold ret, rebase. rewrite emitted_refl, app_nil_r. reflexivity.
Qed.

Lemma rebase_rebase {A} h w w1 (o : outcome A) :
  extends w w1 -> extends w1 (world_of o) ->
  rebase (h ++ emitted w w1) w1 o = rebase h w o.
Proof.
  intros X1 X2. destruct o as [a w2|w2]; simpl in *;
    rewrite (emitted_trans w w1 w2 X1 X2), app_assoc; reflexivity.
Qed.

Lemma blind_bind {A B} (m : M A) (k : A -> M B) :
  history_blind m -> (forall a, history_blind (k a)) ->
  history_blind (bind m k).
Proof.
  intros Hm Hk w h Hl. destruct (Hm w h Hl) as [Xm Em].
  unfold bind. rewrite Em.
  destruct (m w) as [a w1|w1]; simpl in *; [|auto].
  assert (Hl1 : length (h ++ emitted w w1) = length (trace w1)).
  { rewrite (extends_emitted _ _ Xm), !length_app. lia. }
  destruct (Hk a w1 (h ++ emitted w w1) Hl1) as [Xk Ek].
  split; [eapply extends_trans; eauto|].
  rewrite Ek. now apply rebase_rebase.
Qed.

Lemma blind_forever {A} body :
  history_blind body -> forall ticks, history_blind (forever (A:=A) ticks body).
Proof.
  intros Hb. induction ticks as [|k IH]; intros w h Hl.
  - split; [apply extends_refl|]. simpl.
    rewrite emitted_refl, app_nil_r. reflexivity.
  - destruct (Hb w h Hl) as [Xb Eb]. rewrite !forever_succ, Eb.
    destruct (body w) as [u w1|w1]; simpl in *; [|auto].
    assert (Hl1 : length (h ++ emitted w w1) = length (trace w1)).
    { rewrite (extends_emitted _ _ Xb), !length_app. lia. }
    destruct (IH w1 (h ++ emitted w w1) Hl1) as [Xk Ek].
    split; [eapply extends_trans; eauto|].
    rewrite Ek. now apply rebase_rebase.
Qed.

Lemma blind_drain env fuel dst b n :
  forall off, history_blind (drain env fuel dst b n off).
Proof.
  induction fuel as [|f IH]; intros off w h Hl; simpl;
    destruct (off <? n).
  - split; [apply extends_refl|]. unfold rebase.
    rewrite emitted_refl, app_nil_r. reflexivity.
  - apply (blind_ret tt w h Hl).
  - apply (blind_bind (hs_write env dst b off (n - off))
             (fun r => drain env f dst b n (to_size_t (off + r)))
             (blind_write env dst b off (n - off))
             (fun r => IH (to_size_t (off + r))) w h Hl).
  - apply (blind_ret tt w h Hl).
Qed.

Lemma blind_pump env fuel src dst b :
  history_blind (pump_once env fuel src dst b).
Proof.
  unfold pump_once. apply blind_bind; [apply blind_available|].
  intros a. destruct (to_size_t a =? 0); [apply blind_ret|].
  apply blind_bind; [apply blind_read|]. intros n.
  apply blind_bind; [apply blind_drain|]. intros _.
  apply (blind_logging (Hal dst (Flush (Some false)))).
Qed.

Lemma blind_wire_init : history_blind wire_init.
Proof.
  intros w h Hl. split; [apply extends_wire_init|].
  rewrite !wire_init_eq. simpl.
  destruct (wire_inited w); simpl.
  - rewrite emitted_refl, app_nil_r. reflexivity.
  - rewrite (emitted_app w (initialized w) init_calls) by reflexivity.
    reflexivity.
Qed.

Lemma blind_run_bidi env ticks fuel :
  history_blind (run_bidi_bridge env ticks fuel).
Proof.
  unfold run_bidi_bridge. apply blind_bind; [apply blind_wire_init|].
  intros _. apply blind_forever. unfold bidi_pass.
  apply blind_bind; [apply blind_pump|]. intros _.
  apply blind_bind; [apply blind_pump|]. intros _.
  apply (blind_logging (Delay 0)).
Qed.

Lemma world_of_rebase {A} h w (o : outcome A) :
  world_of (rebase h w o)
  = with_trace (h ++ emitted w (world_of o)) (world_of o).
Proof. destruct o; reflexivity. Qed.

(** [receive] and [send] are one program with two banners: run from the
    same state against the same environment, the two handlers leave the
    same ports, the same buffers and the same latch, and make the same
    calls in the same order; only the first status line differs. *)
Theorem commands_differ_in_banner env ticks fuel w :
  let r := world_of (cmd_receive env ticks fuel w) in
  let s := world_of (cmd_send env ticks fuel w) in
  usb r = usb s
  /\ wire r = wire s
  /\ wire_inited r = wire_inited s
  /\ (forall b, buf_of b r = buf_of b s)
  /\ tl (emitted w r) = tl (emitted w s)
  /\ hd_error (emitted w r)
     = Some (KonPrintf
               "Entering RECEIVE mode (Serial1 -> USB). No further console output.\r\n"
               [])
  /\ hd_error (emitted w s)
     = Some (KonPrintf
               "Entering SEND mode (USB -> Serial1). No further console output.\r\n"
               []).
Proof.
  set (pre := fun banner =>
    log (Delay 50)
      (log (Hal Serial (Flush None))
         (log (KonPrintf
                 "Wire: TX=%d RX=%d BAUD=%d. Power-cycle to exit.\r\n"
                 [WIRE_TX_PIN; WIRE_RX_PIN; WIRE_BAUD])
            (log (KonPrintf banner []) w)))).
  set (bR := "Entering RECEIVE mode (Serial1 -> USB). No further console output.\r\n"%string).
  set (bS := "Entering SEND mode (USB -> Serial1). No further console output.\r\n"%string).
  assert (ER : world_of (cmd_receive env ticks fuel w)
               = world_of (run_bidi_bridge env ticks fuel (pre bR))).
  { unfold cmd_receive, bind, kon_printf, hs_flush, delay. cbv beta iota.
    fold bR. fold (pre bR).
    destruct (run_bidi_bridge env ticks fuel (pre bR)); reflexivity. }
  assert (ES : world_of (cmd_send env ticks fuel w)
               = world_of (run_bidi_bridge env ticks fuel (pre bS))).
  { unfold cmd_send, bind, kon_printf, hs_flush, delay. cbv beta iota.
    fold bS. fold (pre bS).
    destruct (run_bidi_bridge env ticks fuel (pre bS)); reflexivity. }
  cbv zeta. rewrite ER, ES. clear ER ES.
  assert (EP : pre bS = with_trace (trace (pre bS)) (pre bR)) by reflexivity.
  assert (HL : length (trace (pre bS)) = length (trace (pre bR))).
  { unfold pre. simpl. rewrite !length_app. reflexivity. }
  destruct (blind_run_bidi env ticks fuel (pre bR) (trace (pre bS)) HL)
    as [X B].
  rewrite <- EP in B.
  set (wr := world_of (run_bidi_bridge env ticks fuel (pre bR))) in *.
  assert (W : world_of (run_bidi_bridge env ticks fuel (pre bS))
              = with_trace (trace (pre bS) ++ emitted (pre bR) wr) wr).
  { rewrite B. apply world_of_rebase. }
  rewrite W.
  destruct (with_trace_fields (trace (pre bS) ++ emitted (pre bR) wr) wr)
    as (F1 & F2 & F3 & F4 & _ & F6).
  assert (TR : emitted w wr
               = KonPrintf bR []
                   :: [KonPrintf
                         "Wire: TX=%d RX=%d BAUD=%d. Power-cycle to exit.\r\n"
                         [WIRE_TX_PIN; WIRE_RX_PIN; WIRE_BAUD];
                       Hal Serial (Flush None); Delay 50]
                   ++ emitted (pre bR) wr).
  { apply emitted_app. rewrite (extends_emitted _ _ X). unfold pre. simpl.
    repeat rewrite <- app_assoc. reflexivity. }
  assert (TS : emitted w (with_trace (trace (pre bS) ++ emitted (pre bR) wr) wr)
               = KonPrintf bS []
                   :: [KonPrintf
                         "Wire: TX=%d RX=%d BAUD=%d. Power-cycle to exit.\r\n"
                         [WIRE_TX_PIN; WIRE_RX_PIN; WIRE_BAUD];
                       Hal Serial (Flush None); Delay 50]
                   ++ emitted (pre bR) wr).
  { apply emitted_app. rewrite F6. unfold pre. simpl.
    repeat rewrite <- app_assoc. reflexivity. }
  rewrite TR, TS, F1, F2, F3.
  repeat split; auto.
Qed.

(** ** The console's input callback *)

Lemma to_uint8_of_byte x : to_uint8 (Z.of_N (Byte.to_N x)) = x.
Proof.
  unfold to_uint8. pose proof (Byte.to_N_bounded x) as B.
  rewrite Z.mod_small by lia. now rewrite N2Z.id, Byte.of_to_N.
Qed.

Lemma input_only_refl w : input_only w w.
Proof. repeat split. Qed.

Lemma input_only_trans a b c :
  input_only a b -> input_only b c -> input_only a c.
Proof.
  intros (A1 & A2 & A3 & A4) (B1 & B2 & B3 & B4).
  repeat split; try congruence; intros s; now rewrite B4.
Qed.

Lemma input_only_polled env w : input_only w (polled env Serial w).
Proof.
  repeat split; try apply delivered_polled; intros s; apply buf_of_polled.
Qed.

Lemma hs_read_some x rest w :
  rx_fifo (usb w) = x :: rest ->
  exists w',
    hs_read Serial w = Done (Z.of_N (Byte.to_N x)) w'
    /\ rx_fifo (usb w') = rest
    /\ line_in (usb w') = line_in (usb w)
    /\ input_only w w'.
Proof.
  intros H. unfold hs_read. simpl. rewrite H.
  eexists. split; [reflexivity|]. simpl. rewrite H.
  repeat split; intros s; destruct s; reflexivity.
Qed.

Lemma store_inside i x (b : list byte) :
  (i < length b)%nat ->
  store (Z.of_nat i) x b = firstn i b ++ x :: skipn (S i) b.
Proof.
  intros H. unfold store.
  destruct (Z.of_nat (length b) <=? Z.of_nat i) eqn:E.
  - apply Z.leb_le in E. lia.
  - now rewrite Nat2Z.id.
Qed.

Lemma store_shape i x (b : list byte) :
  (i < length b)%nat ->
  let b2 := firstn i b ++ x :: skipn (S i) b in
  firstn (S i) b2 = firstn i b ++ [x]
  /\ (forall j, (S i <= j)%nat -> skipn j b2 = skipn j b)
  /\ length b2 = length b.
Proof.
  intros H. cbv zeta.
  assert (L : length (firstn i b) = i) by (rewrite length_firstn; lia).
  split; [|split].
  - rewrite firstn_app, L.
    rewrite firstn_all2 by lia.
    replace (S i - i)%nat with 1%nat by lia. reflexivity.
  - intros j Hj. rewrite skipn_app, L.
    rewrite skipn_all2 by lia.
    replace (j - i)%nat with (S (j - S i)) by lia.
    rewrite app_nil_l.
    change (skipn (S (j - S i)) (x :: skipn (S i) b))
      with (skipn (j - S i) (skipn (S i) b)).
    rewrite skipn_skipn. f_equal. lia.
  - rewrite length_app, L.
    change (length (x :: skipn (S i) b)) with (S (length (skipn (S i) b))).
    rewrite length_skipn. lia.
Qed.

Lemma hs_available_eq env e w :
  hs_available env e w = Done (reported env e w) (polled env e w).
Proof. reflexivity. Qed.

Lemma io_read_loop_spec env (n : nat) :
  Z.of_nat n < SIZE_MOD ->
  forall fuel (i : nat) b w,
    (i <= n)%nat -> (n - i <= fuel)%nat -> (n <= length b)%nat ->
    exists (i' : nat) taken w',
      io_read_loop env fuel (Z.of_nat n) (Z.of_nat i) b w
      = Done (Z.of_nat i', firstn i b ++ taken ++ skipn i' b) w'
      /\ (i <= i' <= n)%nat
      /\ length taken = (i' - i)%nat
      /\ taken ++ pending Serial w' = pending Serial w
      /\ ((i' < n)%nat -> rx_fifo (usb w') = [])
      /\ (length (line_in (usb w')) <= length (line_in (usb w)))%nat
      /\ input_only w w'.
Proof.
  intros Hn. induction fuel as [|f IH]; intros i b w Hi Hf Hb.
  - assert (i = n) by lia. subst i. simpl.
    rewrite Z.ltb_irrefl. exists n, [], w.
    split; [now rewrite app_nil_l, firstn_skipn|].
    repeat split; auto using input_only_refl; try lia.
    rewrite Nat.sub_diag. reflexivity.
  - simpl. destruct (Z.of_nat i <? Z.of_nat n) eqn:E.
    2:{ apply Z.ltb_ge in E. assert (i = n) by lia. subst i.
        exists n, [], w.
        split; [now rewrite app_nil_l, firstn_skipn|].
        repeat split; auto using input_only_refl; try lia.
        rewrite Nat.sub_diag. reflexivity. }
    apply Z.ltb_lt in E. unfold bind. rewrite hs_available_eq.
    set (w1 := polled env Serial w).
    assert (P1 : pending Serial w1 = pending Serial w) by apply pending_polled.
    assert (U1 : usb w1 = deliver (env_arrive env Serial (clock w)) (usb w))
      by apply (port_of_polled_same Serial).
    assert (L1 : (length (line_in (usb w1)) <= length (line_in (usb w)))%nat).
    { rewrite U1. unfold deliver. simpl. rewrite length_skipn. lia. }
    destruct (reported env Serial w =? 0) eqn:E0.
    + apply Z.eqb_eq in E0. exists i, [], w1.
      split; [unfold ret; now rewrite app_nil_l, firstn_skipn|].
      repeat split; auto using input_only_polled; try lia.
      * rewrite Nat.sub_diag. reflexivity.
      * intros _. rewrite U1. apply length_zero_iff_nil.
        unfold reported in E0. change (port_of Serial w) with (usb w) in E0.
        lia.
    + apply Z.eqb_neq in E0.
      destruct (rx_fifo (usb w1)) as [|x rest] eqn:F.
      { exfalso. apply E0. unfold reported.
        change (port_of Serial w) with (usb w). rewrite <- U1, F.
        reflexivity. }
      destruct (hs_read_some x rest w1 F) as (w2 & R & F2 & L2 & I2).
      rewrite R. rewrite to_uint8_of_byte.
      rewrite to_size_t_small by lia.
      replace (Z.of_nat i + 1) with (Z.of_nat (S i)) by lia.
      rewrite store_inside by lia.
      destruct (store_shape i x b ltac:(lia)) as (S1 & S2 & S3).
      cbv zeta in S1, S2, S3.
      destruct (IH (S i) (firstn i b ++ x :: skipn (S i) b) w2)
        as (i' & taken & w' & Eq & Hi' & Lt & Pt & Fe & Ll & Io);
        try lia.
      exists i', (x :: taken), w'.
      split.
      { rewrite Eq, S1, S2 by lia. repeat rewrite <- app_assoc. reflexivity. }
      split; [lia|]. split; [simpl; lia|]. split.
      { simpl. rewrite Pt, <- P1. unfold pending.
        change (port_of Serial w2) with (usb w2).
        change (port_of Serial w1) with (usb w1).
        rewrite F, F2, L2. reflexivity. }
      split; [exact Fe|]. split; [rewrite L2 in Ll; lia|].
      eapply input_only_trans; [apply input_only_polled|].
      eapply input_only_trans; eassumption.
Qed.

(** The input callback always returns, with a count between 0 and [n];
    the bytes it stored at the start of the caller's buffer are the next
    bytes of the USB input, in order, and they are gone from the input;
    the rest of the buffer is untouched; it gives up early only when the
    driver reports nothing available; and it changes nothing but the USB
    port's input side. *)
Theorem io_read_spec env n b w :
  0 <= n < SIZE_MOD -> (Z.to_nat n <= length b)%nat ->
  exists i got w',
    io_read env n b w = Done (i, got ++ skipn (Z.to_nat i) b) w'
    /\ 0 <= i <= n
    /\ Z.of_nat (length got) = i
    /\ got ++ pending Serial w' = pending Serial w
    /\ (i < n -> rx_fifo (usb w') = [])
    /\ input_only w w'.
Proof.
  intros Hn Hb. unfold io_read.
  destruct (io_read_loop_spec env (Z.to_nat n) ltac:(lia) (Z.to_nat n) O b w)
    as (i' & taken & w' & Eq & Hi' & Lt & Pt & Fe & _ & Io); try lia.
  rewrite Z2Nat.id in Eq by lia. simpl in Eq.
  exists (Z.of_nat i'), taken, w'. rewrite Nat2Z.id.
  split; [exact Eq|]. split; [lia|]. split; [lia|]. split; [exact Pt|].
  split; [|exact Io]. intros H. apply Fe. lia.
Qed.

Lemma io_read_spec_witness :
  0 <= 3 < SIZE_MOD
  /\ (Z.to_nat 3 <= length (repeat x00 8))%nat
  /\ exists i got w',
       io_read env_greedy 3 (repeat x00 8) (power_on ping []) = Done (i, got ++ skipn (Z.to_nat i) (repeat x00 8)) w'
       /\ 0 <= i <= 3
       /\ Z.of_nat (length got) = i
       /\ got ++ pending Serial w' = pending Serial (power_on ping [])
       /\ (i < 3 -> rx_fifo (usb w') = [])
       /\ input_only (power_on ping []) w'.
Proof.
  assert (A : 0 <= 3 < SIZE_MOD) by (unfold SIZE_MOD; lia).
  assert (B : (Z.to_nat 3 <= length (repeat x00 8))%nat) by (simpl; lia).
  split; [exact A|]. split; [exact B|].
  apply (io_read_spec env_greedy 3 (repeat x00 8) (power_on ping []) A B).
Defined.

(** A read of no more bytes than the driver already holds is never
    short; and when nothing more is on its way, the callback returns the
    first [n] queued bytes, or all of them if there are fewer. *)
Theorem io_read_count env n b w :
  0 <= n < SIZE_MOD -> (Z.to_nat n <= length b)%nat ->
  exists i got w',
    io_read env n b w = Done (i, got ++ skipn (Z.to_nat i) b) w'
    /\ ((Z.to_nat n <= length (rx_fifo (usb w)))%nat ->
        i = n /\ got = firstn (Z.to_nat n) (rx_fifo (usb w)))
    /\ (line_in (usb w) = [] ->
        i = Z.min n (Z.of_nat (length (rx_fifo (usb w))))
        /\ got = firstn (Z.to_nat n) (rx_fifo (usb w))).
Proof.
  intros Hn Hb. unfold io_read.
  destruct (io_read_loop_spec env (Z.to_nat n) ltac:(lia) (Z.to_nat n) O b w)
    as (i' & taken & w' & Eq & Hi' & Lt & Pt & Fe & Ll & Io); try lia.
  rewrite Z2Nat.id in Eq by lia. simpl in Eq.
  exists (Z.of_nat i'), taken, w'. rewrite Nat2Z.id.
  split; [exact Eq|].
  assert (Len : (length taken + length (rx_fifo (usb w'))
                 + length (line_in (usb w'))
                 = length (rx_fifo (usb w)) + length (line_in (usb w)))%nat).
  { apply (f_equal (@length byte)) in Pt. unfold pending in Pt.
    change (port_of Serial w') with (usb w') in Pt.
    change (port_of Serial w) with (usb w) in Pt.
    rewrite !length_app in Pt. lia. }
  assert (Pre : forall l, (Z.to_nat n <= length l)%nat -> i' = Z.to_nat n ->
                  taken ++ pending Serial w' = l ++ line_in (usb w) ->
                  taken = firstn (Z.to_nat n) l).
  { intros l Hl Hi E.
    apply (f_equal (firstn (Z.to_nat n))) in E.
    rewrite !firstn_app in E.
    replace (Z.to_nat n - length taken)%nat with O in E by lia.
    replace (Z.to_nat n - length l)%nat with O in E by lia.
    simpl in E. rewrite !app_nil_r in E.
    rewrite firstn_all2 in E by lia. exact E. }
  split.
  - intros Hq.
    assert (Hi : i' = Z.to_nat n).
    { destruct (Nat.eq_dec i' (Z.to_nat n)) as [|Ne]; [assumption|].
      assert (F0 : rx_fifo (usb w') = []) by (apply Fe; lia).
      rewrite F0 in Len. simpl in Len. lia. }
    split; [lia|]. now apply Pre.
  - intros L0. rewrite L0 in Ll, Len. simpl in Ll, Len.
    assert (L' : line_in (usb w') = []) by (apply length_zero_iff_nil; lia).
    destruct (Nat.eq_dec i' (Z.to_nat n)) as [Hi|Ne].
    + split; [lia|]. apply Pre; [lia | exact Hi|].
      rewrite Pt. unfold pending. reflexivity.
    + assert (F0 : rx_fifo (usb w') = []) by (apply Fe; lia).
      rewrite F0 in Len. simpl in Len. split; [lia|].
      unfold pending in Pt.
      change (port_of Serial w') with (usb w') in Pt.
      change (port_of Serial w) with (usb w) in Pt.
      rewrite F0, L', L0, !app_nil_r in Pt. rewrite Pt.
      symmetry. apply firstn_all2. lia.
Qed.

Lemma io_read_count_witness :
  0 <= 3 < SIZE_MOD
  /\ (Z.to_nat 3 <= length (repeat x00 8))%nat
  /\ line_in (usb (power_on_queued ping [])) = []
  /\ exists i got w',
       io_read env_greedy 3 (repeat x00 8) (power_on_queued ping [])
       = Done (i, got ++ skipn (Z.to_nat i) (repeat x00 8)) w'
       /\ i = Z.min 3 (Z.of_nat (length (rx_fifo (usb (power_on_queued ping [])))))
       /\ got = firstn (Z.to_nat 3) (rx_fifo (usb (power_on_queued ping []))).
Proof.
  assert (A : 0 <= 3 < SIZE_MOD) by (unfold SIZE_MOD; lia).
  assert (B : (Z.to_nat 3 <= length (repeat x00 8))%nat) by (simpl; lia).
  split; [exact A|]. split; [exact B|]. split; [reflexivity|].
  destruct (io_read_count env_greedy 3 (repeat x00 8)
              (power_on_queued ping []) A B)
    as (i & got & w' & E & _ & H).
  exists i, got, w'. split; [exact E|]. apply H. reflexivity.
Defined.

(** ** The calls of the write loop *)

Lemma drain_offers env dst n :
  (forall t size, 1 <= size -> 0 <= env_write env dst t size <= size) ->
  n < SIZE_MOD ->
  forall fuel t off, 0 <= off <= n ->
    offers_remainder (n - off) (drain_calls env fuel dst t n off).
Proof.
  intros Hw Hn. induction fuel as [|f IH]; intros t off Hoff; simpl;
    destruct (off <? n) eqn:E; simpl; auto.
  apply Z.ltb_lt in E. split; [reflexivity|].
  pose proof (Hw t (n - off) ltac:(lia)) as Hr.
  rewrite to_size_t_small by lia.
  replace (n - off - env_write env dst t (n - off))
    with (n - (off + env_write env dst t (n - off))) by lia.
  apply IH. lia.
Qed.

Lemma drain_calls_length env dst n :
  writes_progress env dst ->
  n < SIZE_MOD ->
  forall fuel t off, 0 <= off <= n ->
    (length (drain_calls env fuel dst t n off) <= Z.to_nat (n - off))%nat.
Proof.
  intros Hw Hn. induction fuel as [|f IH]; intros t off Hoff; simpl;
    destruct (off <? n) eqn:E; simpl; try lia.
  apply Z.ltb_lt in E.
  pose proof (Hw t (n - off) ltac:(lia)) as Hr.
  rewrite to_size_t_small by lia.
  specialize (IH (S t) (off + env_write env dst t (n - off)) ltac:(lia)).
  lia.
Qed.

Lemma drain_calls_single env dst n f t :
  takes_all env dst -> 0 < n < SIZE_MOD ->
  drain_calls env (S f) dst t n 0 = [Write n n].
Proof.
  intros Hw Hn. simpl.
  assert (E : (0 <? n) = true) by (apply Z.ltb_lt; lia).
  rewrite E, Hw, Z.sub_0_r. simpl.
  rewrite to_size_t_small by lia.
  destruct f; simpl; rewrite Z.ltb_irrefl; reflexivity.
Qed.

(** The calls of one step, with the names of their parts. *)
Lemma pump_step_calls env fuel src dst b w :
  let evs := emitted w (world_of (pump_once env fuel src dst b w)) in
  exists n (t : nat),
    0 <= n <= BRIDGE_BUF_SZ
    /\ read_bytes src evs = n
    /\ writes_on dst evs = map (Hal dst) (drain_calls env fuel dst t n 0).
Proof.
  cbv zeta. rewrite pump_once_emitted. unfold pump_events.
  destruct (to_size_t (reported env src w) =? 0).
  - exists 0, O. unfold BRIDGE_BUF_SZ. split; [lia|].
    split; [reflexivity|]. simpl.
    destruct fuel; reflexivity.
  - cbv zeta.
    set (req := chunk_size (reported env src w)).
    set (n := Z.of_nat (length (fetch env src req (polled env src w)))).
    pose proof (chunk_size_bound (reported env src w)) as Hreq. fold req in Hreq.
    pose proof (fetch_length_bound env src req (polled env src w)
                  ltac:(lia)) as Hlen.
    fold n in Hlen.
    destruct (busy_counts env fuel src dst (S (S (clock w)))
                (reported env src w) req n) as (_ & E2 & E3).
    exists n, (S (S (clock w))). split; [lia|]. split; assumption.
Qed.

(** With a port that returns how many bytes it took, the first [write]
    of a step offers all the bytes the step has read and every further
    [write] offers exactly what the one before it did not take. *)
Theorem retries_offer_the_remainder env fuel src dst b w :
  honest_writes env dst ->
  let evs := emitted w (world_of (pump_once env fuel src dst b w)) in
  exists cs,
    writes_on dst evs = map (Hal dst) cs
    /\ offers_remainder (read_bytes src evs) cs.
Proof.
  intros Hh. cbv zeta.
  destruct (pump_step_calls env fuel src dst b w) as (n & t & Hn & R & W).
  cbv zeta in R, W. rewrite R, W.
  exists (drain_calls env fuel dst t n 0). split; [reflexivity|].
  pose proof buf_sz_small.
  replace n with (n - 0) at 1 by lia.
  apply drain_offers; try lia.
  intros t0 size Hs. apply Hh. lia.
Qed.

Lemma retries_offer_the_remainder_witness :
  honest_writes env_two Serial1
  /\ exists cs,
       writes_on Serial1
         (emitted (power_on ping [])
            (world_of (pump_once env_two 4 Serial Serial1 SendBuf
                         (power_on ping []))))
       = map (Hal Serial1) cs
       /\ offers_remainder
            (read_bytes Serial
               (emitted (power_on ping [])
                  (world_of (pump_once env_two 4 Serial Serial1 SendBuf
                               (power_on ping [])))))
            cs.
Proof.
  assert (H : honest_writes env_two Serial1).
  { intros t size Hs. simpl. lia. }
  split; [exact H|].
  apply (retries_offer_the_remainder env_two 4 Serial Serial1 SendBuf
           (power_on ping []) H).
Defined.

(** A step never makes more [write] calls than it has read bytes when
    every call takes at least one byte, and it makes exactly one, for the
    whole chunk, when the port takes all it is offered. *)
Theorem write_calls_bounded env fuel src dst b w :
  let evs := emitted w (world_of (pump_once env fuel src dst b w)) in
  (writes_progress env dst ->
   (length (writes_on dst evs) <= Z.to_nat (read_bytes src evs))%nat)
  /\ (takes_all env dst -> fuel <> O -> 1 <= read_bytes src evs ->
      writes_on dst evs
      = [Hal dst (Write (read_bytes src evs) (read_bytes src evs))]).
Proof.
  cbv zeta.
  destruct (pump_step_calls env fuel src dst b w) as (n & t & Hn & R & W).
  cbv zeta in R, W. rewrite R, W. pose proof buf_sz_small.
  split.
  - intros Hp. rewrite length_map.
    pose proof (drain_calls_length env dst n Hp ltac:(lia) fuel t 0
                  ltac:(lia)) as L.
    now rewrite Z.sub_0_r in L.
  - intros Ht Hf H1. destruct fuel as [|f]; [congruence|].
    rewrite drain_calls_single by (auto; lia). reflexivity.
Qed.

Lemma write_calls_bounded_witness :
  takes_all env_greedy Serial1
  /\ 4%nat <> O
  /\ 1 <= read_bytes Serial
            (emitted (power_on ping [])
               (world_of (pump_once env_greedy 4 Serial Serial1 SendBuf
                            (power_on ping []))))
  /\ writes_on Serial1
       (emitted (power_on ping [])
          (world_of (pump_once env_greedy 4 Serial Serial1 SendBuf
                       (power_on ping []))))
     = [Hal Serial1 (Write 4 4)].
Proof.
  assert (T : takes_all env_greedy Serial1) by (intros t size; reflexivity).
  assert (F : 4%nat <> O) by discriminate.
  assert (R : 1 <= read_bytes Serial
                     (emitted (power_on ping [])
                        (world_of (pump_once env_greedy 4 Serial Serial1
                                     SendBuf (power_on ping []))))).
  { vm_compute. discriminate. }
  split; [exact T|]. split; [exact F|]. split; [exact R|].
  destruct (write_calls_bounded env_greedy 4 Serial Serial1 SendBuf
              (power_on ping [])) as [_ H].
  rewrite (H T F R). vm_compute. reflexivity.
Defined.
